(** * Merge sort of CLRS chapter 2 (merge_sort.cc): model and verification

    The C++ file sorts a [vector<int>] in place between two inclusive
    [size_t] indices.  It has two merge routines: [merge], which copies the
    two halves into scratch vectors closed by an [INT_MAX] sentinel, and
    [merge_lazy], which calls [std::merge] into a temporary vector and
    copies it back.

    Modelling choices.
    - [size_t] is an unsigned 64-bit integer (LP64): a [Z] with every
      arithmetic result reduced modulo [2^64] ([wrap]); [int] has 32 bits,
      so [INT_MAX] is [2^31 - 1].
    - A [vector] is a [list]; [operator[]] outside the vector, and an
      iterator moved outside it, are undefined behaviour in C++ and are the
      outcome [OutOfBounds] here.
    - [std::next] and [std::merge] are the library's: they are modelled
      from the C++ standard and the libstdc++ algorithm.
    - Loops and the recursion are bounded by a [fuel]; running out of it
      is the outcome [OutOfFuel], distinct from every outcome of the
      program.  Each loop receives the whole fuel.
    - Memory exhaustion ([std::bad_alloc], [std::length_error]) is not
      modelled: constructing a vector always succeeds.
    - The code is written once over an element type with an integer [key],
      so that it can also be run on elements that carry a ghost tag; the
      program itself is the instance [int_elem] (elements are their own
      key). *)

From Stdlib Require Import ZArith Lia Sorted Permutation String Ascii.
From stdpp Require Import base tactics option list numbers pretty.

Local Open Scope Z_scope.

(** ** Machine integers *)

Definition SIZE_MOD : Z := 2 ^ 64.
Definition SIZE_MAX : Z := SIZE_MOD - 1.
Definition PTRDIFF_MAX : Z := 2 ^ 63 - 1.
Definition INT_MAX : Z := 2147483647.

(** Unsigned [size_t] arithmetic keeps the low 64 bits. *)
Definition wrap (z : Z) : Z := z mod SIZE_MOD.

(** Conversion of a [size_t] to the signed [difference_type]. *)
Definition to_ptrdiff (n : Z) : Z :=
  if n <=? PTRDIFF_MAX then n else n - SIZE_MOD.

(** ** Outcomes *)

Inductive result (T : Type) : Type :=
| Ok (t : T)
| OutOfBounds
| OutOfFuel.
Arguments Ok {T} t.
Arguments OutOfBounds {T}.
Arguments OutOfFuel {T}.

#[global] Instance result_ret : MRet result := λ _ x, Ok x.
#[global] Instance result_bind : MBind result := λ _ _ f m,
  match m with
  | Ok x => f x
  | OutOfBounds => OutOfBounds
  | OutOfFuel => OutOfFuel
  end.

(** ** Elements *)

Class Elem (T : Type) := {
  key : T → Z;        (* what operator<= and operator< compare *)
  sentinel : T;       (* the value stored behind each scratch buffer *)
  zero : T            (* the value of a value-initialised element *)
}.

(** The program: [vector<int>], sentinel [INT_MAX]. *)
#[global] Instance int_elem : Elem Z :=
  {| key := λ x, x; sentinel := INT_MAX; zero := 0 |}.

(** The same code on elements paired with a ghost tag that no comparison
    looks at. *)
#[global] Instance tagged_elem : Elem (Z * nat) :=
  {| key := fst; sentinel := (INT_MAX, O); zero := (0, O) |}.

(** ** Vectors *)

Section vectors.
Context {T : Type}.

(** [v[i]] as an rvalue. *)
Definition vget (v : list T) (i : Z) : result T :=
  if 0 <=? i then
    match v !! Z.to_nat i with
    | Some x => Ok x
    | None => OutOfBounds
    end
  else OutOfBounds.

(** [v[i] = x]. *)
Definition vset (v : list T) (i : Z) (x : T) : result (list T) :=
  if (0 <=? i) && (i <? Z.of_nat (length v))
  then Ok (<[Z.to_nat i := x]> v)
  else OutOfBounds.

(** [std::next(v.begin(), n)]: the position [n] places after the
    beginning; an iterator outside [begin, end] is undefined. *)
Definition std_next (v : list T) (n : Z) : result Z :=
  let d := to_ptrdiff n in
  if (0 <=? d) && (d <=? Z.of_nat (length v)) then Ok d else OutOfBounds.

(** The elements of the iterator range [first, last). *)
Definition range (v : list T) (first last : Z) : list T :=
  take (Z.to_nat (last - first)) (drop (Z.to_nat first) v).
End vectors.

(** [vector<T> v(n)]: [n] value-initialised elements.  The exceptions of
    the constructor ([std::length_error] above [max_size()],
    [std::bad_alloc]) are outside the model. *)
Definition vector {T} `{Elem T} (n : Z) : list T :=
  replicate (Z.to_nat n) zero.

(** ** Loops *)

(** [for (...; cond; ...) body]: the increment is the end of [body]. *)
Fixpoint for_loop {St : Type} (fuel : nat) (cond : St → bool)
    (body : St → result St) (s : St) : result St :=
  match fuel with
  | O => OutOfFuel
  | S fuel' =>
      if cond s then s' ← body s; for_loop fuel' cond body s'
      else Ok s
  end.

(** ** The program *)

(** State of the scan of [merge]: the vector, the cursors [i], [j] and
    [k], and a ghost count of the writes into the vector. *)
Record scan_state (T : Type) := ScanState {
  arr : list T;
  ci : Z;
  cj : Z;
  ck : Z;
  writes : nat
}.
Arguments ScanState {T}.
Arguments arr {T}.
Arguments ci {T}.
Arguments cj {T}.
Arguments ck {T}.
Arguments writes {T}.

Section program.
Context {T : Type} `{Elem T}.

(** [for (size_t i = 0; i < n; i++) L[i] = A[idx i];] *)
Definition copy_in (fuel : nat) (A : list T) (idx : Z → Z) (n : Z)
    (L : list T) : result (list T) :=
  s ← for_loop fuel (λ s : list T * Z, s.2 <? n)
        (λ s, x ← vget A (idx s.2);
              L ← vset s.1 s.2 x;
              Ok (L, wrap (s.2 + 1)))
        (L, 0);
  Ok s.1.

(** One iteration of [for (size_t k = p; k <= r; k++)]. *)
Definition scan_step (L R : list T) (s : scan_state T)
    : result (scan_state T) :=
  x ← vget L (ci s);
  y ← vget R (cj s);
  if key x <=? key y then
    A ← vset (arr s) (ck s) x;
    Ok (ScanState A (wrap (ci s + 1)) (cj s) (wrap (ck s + 1))
          (S (writes s)))
  else
    A ← vset (arr s) (ck s) y;
    Ok (ScanState A (ci s) (wrap (cj s + 1)) (wrap (ck s + 1))
          (S (writes s))).

Definition scan (fuel : nat) (L R : list T) (r : Z) (s : scan_state T)
    : result (scan_state T) :=
  for_loop fuel (λ s, ck s <=? r) (scan_step L R) s.

(** The first part of [merge], up to [R[n2] = INT_MAX]: the two scratch
    buffers as the scan finds them. *)
Definition scratch (fuel : nat) (A : list T) (p q r : Z)
    : result (list T * list T) :=
  let n1 := wrap (wrap (q - p) + 1) in
  let n2 := wrap (r - q) in
  let L := vector (wrap (n1 + 1)) in
  let R := vector (wrap (n2 + 1)) in
  L ← copy_in fuel A (λ i, wrap (p + i)) n1 L;
  L ← vset L n1 sentinel;
  R ← copy_in fuel A (λ i, wrap (wrap (q + i) + 1)) n2 R;
  R ← vset R n2 sentinel;
  Ok (L, R).

(** [merge] with the state in which its scan ends: the vector, the
    cursors and the ghost count. *)
Definition merge_run (fuel : nat) (A : list T) (p q r : Z)
    : result (scan_state T) :=
  LR ← scratch fuel A p q r;
  scan fuel LR.1 LR.2 r (ScanState A 0 0 p O).

(** [merge]: the caller sees the vector. *)
Definition merge (fuel : nat) (A : list T) (p q r : Z)
    : result (list T) :=
  s ← merge_run fuel A p q r; Ok (arr s).

Fixpoint merge_sort (fuel : nat) (A : list T) (p r : Z)
    : result (list T) :=
  match fuel with
  | O => OutOfFuel
  | S fuel' =>
      if p <? r then
        let q := wrap (p + r) / 2 in
        A ← merge_sort fuel' A p q;
        A ← merge_sort fuel' A (wrap (q + 1)) r;
        merge fuel' A p q r
      else Ok A
  end.

(** [std::merge] on two lists, as the C++ standard specifies it and
    libstdc++ implements it: the head of the second range is taken
    only when it is less than the head of the first. *)
Fixpoint merge_ranges (l1 : list T) : list T → list T :=
  fix go (l2 : list T) : list T :=
    match l1, l2 with
    | [], _ => l2
    | _, [] => l1
    | x :: l1', y :: l2' =>
        if key y <? key x then y :: go l2'
        else x :: merge_ranges l1' l2
    end.

(** [std::merge(first1, last1, first2, last2, B.begin())] with the
    input iterators in [A]: undefined when a range is not a range or
    the output does not fit.  The standard asks for sorted ranges; on
    others this is what the algorithm computes. *)
Definition std_merge (A : list T) (first1 last1 first2 last2 : Z)
    (B : list T) : result (list T) :=
  if (first1 <=? last1) && (first2 <=? last2) then
    let out := merge_ranges (range A first1 last1)
                 (range A first2 last2) in
    if (length out <=? length B)%nat
    then Ok (out ++ drop (length out) B)
    else OutOfBounds
  else OutOfBounds.

(** [for (sa = start, sb = B.begin(); sa != end && sb != B.end();
    sa++, sb++) *sa = *sb;] *)
Definition copy_back (fuel : nat) (A B : list T) (start end_ : Z)
    : result (list T) :=
  s ← for_loop fuel
        (λ s : list T * Z * Z,
           negb (s.1.2 =? end_) && negb (s.2 =? Z.of_nat (length B)))
        (λ s, x ← vget B s.2;
              A ← vset s.1.1 s.1.2 x;
              Ok (A, s.1.2 + 1, s.2 + 1))
        (A, start, 0);
  Ok s.1.1.

Definition merge_lazy (fuel : nat) (A : list T) (p q r : Z)
    : result (list T) :=
  start ← std_next A p;
  middle ← std_next A (wrap (q + 1));
  end_ ← std_next A (wrap (r + 1));
  let B := vector (wrap (wrap (r - p) + 1)) in
  B ← std_merge A start middle middle end_ B;
  copy_back fuel A B start end_.

Fixpoint merge_sort_lazy (fuel : nat) (A : list T) (p r : Z)
    : result (list T) :=
  match fuel with
  | O => OutOfFuel
  | S fuel' =>
      if p <? r then
        let q := wrap (p + r) / 2 in
        A ← merge_sort_lazy fuel' A p q;
        A ← merge_sort_lazy fuel' A (wrap (q + 1)) r;
        merge_lazy fuel' A p q r
      else Ok A
  end.
End program.

(** ** The entry point *)

(** [for (auto i : v) cout << i << ' ';] *)
Definition print_vector (v : list Z) : string :=
  foldr (λ i out, pretty i +:+ " " +:+ out)%string EmptyString v.


(** [A.size()] as a [size_t]. *)
Definition size {T} (v : list T) : Z := wrap (Z.of_nat (length v)).


(** * Specification vocabulary *)

(** A vector that exists has at most [PTRDIFF_MAX] elements
    ([max_size()] is no more than that). *)
Definition representable {T} (v : list T) : Prop :=
  Z.of_nat (length v) ≤ PTRDIFF_MAX.

(** The elements at the indices [p], ..., [r]. *)
Definition sub {T} (A : list T) (p r : Z) : list T := range A p (r + 1).

(** More fuel does not change an outcome other than [OutOfFuel]. *)
Definition fuel_mono {X} (f : nat → result X) : Prop :=
  ∀ n m, (n ≤ m)%nat → f n ≠ OutOfFuel → f m = f n.

(** The states a loop passes through at its test. *)
Inductive reaches {St : Type} (cond : St → bool) (body : St → result St)
    (s0 : St) : St → Prop :=
| reaches_start : reaches cond body s0 s0
| reaches_step s s' :
    reaches cond body s0 s → cond s = true → body s = Ok s' →
    reaches cond body s0 s'.

(** ** Order and stability *)

Section orders_vocabulary.
Context {T : Type} `{Elem T}.

Definition key_le (x y : T) : Prop := key x ≤ key y.

(** Non-decreasing keys. *)
Definition sorted (l : list T) : Prop := StronglySorted key_le l.

Definition has_key (v : Z) (x : T) : Prop := key x = v.

#[global] Instance has_key_dec v x : Decision (has_key v x).
Proof. unfold has_key. apply _. Defined.

(** [l'] is [l] sorted, and the elements of each key are in the order
    they have in [l]. *)
Definition stable_sort_of (l l' : list T) : Prop :=
  sorted l' ∧ l' ≡ₚ l ∧
  ∀ v, filter (has_key v) l' = filter (has_key v) l.

(** Every element is less than the sentinel. *)
Definition below_sentinel (x : T) : Prop := key x < key sentinel.
End orders_vocabulary.

(** What holds each time the scan of [merge] is at its test, on a
    vector [pre ++ _ ++ post] whose halves were [l1] and [l2]: [c1] and
    [c2] have been consumed, [out] has been written, [junk] is still to
    be overwritten. *)
Inductive scan_inv {T} `{Elem T} (pre l1 l2 post : list T) (p : Z)
    (s : scan_state T) : Prop :=
| ScanInv c1 t1 c2 t2 out junk :
    l1 = c1 ++ t1 → l2 = c2 ++ t2 →
    ci s = Z.of_nat (length c1) → cj s = Z.of_nat (length c2) →
    ck s = p + Z.of_nat (length out) →
    length out = (length c1 + length c2)%nat →
    writes s = length out →
    arr s = pre ++ out ++ junk ++ post →
    length junk = (length t1 + length t2)%nat →
    out ++ merge_ranges t1 t2 = merge_ranges l1 l2 →
    scan_inv pre l1 l2 post p s.

(** Iterations the scan still has to make. *)
Definition remaining {T} (r : Z) (s : scan_state T) : nat :=
  Z.to_nat (r + 1 - ck s).

(** ** What a call leaves alone *)

(** [A'] has the length of [A] and the elements of [A] at every index
    outside [p..r]. *)
Definition frame {T} (A A' : list T) (p r : Z) : Prop :=
  length A' = length A ∧
  ∀ i : nat, Z.of_nat i < p ∨ r < Z.of_nat i → A' !! i = A !! i.

(** ** Ghost tags and their erasure *)

#[global] Instance result_fmap : FMap result := λ _ _ f m,
  match m with
  | Ok x => Ok (f x)
  | OutOfBounds => OutOfBounds
  | OutOfFuel => OutOfFuel
  end.

(** Each element paired with its position, counted from [k]. *)
Fixpoint tag_from (k : nat) (S : list Z) : list (Z * nat) :=
  match S with
  | [] => []
  | x :: S' => (x, k) :: tag_from (Datatypes.S k) S'
  end.

(** A vector without its tags. *)
Definition erase (v : list (Z * nat)) : list Z := v.*1.

(** The scan state without its tags. *)
Definition erase_state (s : scan_state (Z * nat)) : scan_state Z :=
  ScanState (erase (arr s)) (ci s) (cj s) (ck s) (writes s).

(** Earlier position. *)
Definition tag_lt (x y : Z * nat) : Prop := (x.2 < y.2)%nat.

(** * Verification *)

(** ** The program on [int]

    With [T := Z] the generic definitions are the C++ text: the
    comparison is the one of the integers, the sentinel is [INT_MAX] and
    a fresh vector holds zeros. *)

Lemma scan_step_int (L R : list Z) (s : scan_state Z) :
  scan_step L R s =
  x ← vget L (ci s);
  y ← vget R (cj s);
  if x <=? y then
    A ← vset (arr s) (ck s) x;
    Ok (ScanState A (wrap (ci s + 1)) (cj s) (wrap (ck s + 1))
          (S (writes s)))
  else
    A ← vset (arr s) (ck s) y;
    Ok (ScanState A (ci s) (wrap (cj s + 1)) (wrap (ck s + 1))
          (S (writes s))).
Proof. reflexivity. Qed.

Lemma scratch_int (fuel : nat) (A : list Z) (p q r : Z) :
  scratch fuel A p q r =
  let n1 := wrap (wrap (q - p) + 1) in
  let n2 := wrap (r - q) in
  L ← copy_in fuel A (λ i, wrap (p + i)) n1
        (replicate (Z.to_nat (wrap (n1 + 1))) 0);
  L ← vset L n1 INT_MAX;
  R ← copy_in fuel A (λ i, wrap (wrap (q + i) + 1)) n2
        (replicate (Z.to_nat (wrap (n2 + 1))) 0);
  R ← vset R n2 INT_MAX;
  Ok (L, R).
Proof. reflexivity. Qed.

Lemma merge_ranges_int (x y : Z) (l1 l2 : list Z) :
  merge_ranges (x :: l1) (y :: l2) =
  if y <? x then y :: merge_ranges (x :: l1) l2
  else x :: merge_ranges l1 (y :: l2).
Proof. reflexivity. Qed.

(** ** Outcomes and machine arithmetic *)

Lemma wrap_small z : 0 ≤ z < SIZE_MOD → wrap z = z.
Proof. intros. unfold wrap. by apply Z.mod_small. Qed.

Lemma wrap_range z : 0 ≤ wrap z < SIZE_MOD.
Proof. unfold wrap. apply Z.mod_pos_bound. reflexivity. Qed.

Lemma to_ptrdiff_small z : 0 ≤ z ≤ PTRDIFF_MAX → to_ptrdiff z = z.
Proof.
  intros. unfold to_ptrdiff. destruct (Z.leb_spec z PTRDIFF_MAX); lia.
Qed.

Lemma bind_Ok {X Y} (m : result X) (f : X → result Y) y :
  m ≫= f = Ok y ↔ ∃ x, m = Ok x ∧ f x = Ok y.
Proof.
  destruct m; simpl; split; try (intros [? [? ?]]); try done; eauto.
  by simplify_eq.
Qed.

Lemma bind_not_OutOfFuel {X Y} (m : result X) (f : X → result Y) :
  m ≠ OutOfFuel → (∀ x, m = Ok x → f x ≠ OutOfFuel) → m ≫= f ≠ OutOfFuel.
Proof. destruct m; simpl; auto. Qed.

(** The split point of a range of at least two indices. *)
Lemma midpoint p r : p < r → p ≤ (p + r) / 2 < r.
Proof.
  intros. split.
  - apply Z.div_le_lower_bound; lia.
  - apply Z.div_lt_upper_bound; lia.
Qed.

Lemma PTRDIFF_MAX_lt : PTRDIFF_MAX < SIZE_MAX ∧ SIZE_MAX + 1 = SIZE_MOD
  ∧ 2 * PTRDIFF_MAX < SIZE_MAX ∧ 0 < PTRDIFF_MAX.
Proof. by vm_compute. Qed.

Section vector_facts.
Context {T : Type}.
Implicit Types v : list T.

Lemma vget_Ok v i x :
  vget v i = Ok x ↔ 0 ≤ i ∧ v !! Z.to_nat i = Some x.
Proof.
  unfold vget. destruct (Z.leb_spec 0 i).
  - destruct (v !! Z.to_nat i); split; try done.
    + by intros [= ->].
    + by intros [_ [= ->]].
    + by intros [_ ?].
  - split; [done | lia].
Qed.

Lemma vget_middle v1 v2 x i :
  i = Z.of_nat (length v1) → vget (v1 ++ x :: v2) i = Ok x.
Proof.
  intros ->. apply vget_Ok. split; [lia|].
  rewrite Nat2Z.id. apply list_lookup_middle. done.
Qed.

Lemma vset_Ok v i x v' :
  vset v i x = Ok v' ↔
  0 ≤ i < Z.of_nat (length v) ∧ v' = <[Z.to_nat i := x]> v.
Proof.
  unfold vset.
  destruct (Z.leb_spec 0 i), (Z.ltb_spec i (Z.of_nat (length v)));
    simpl; split; try done; try lia.
  - by intros [= <-].
  - by intros [_ ->].
Qed.

Lemma vset_middle v1 v2 x y i :
  i = Z.of_nat (length v1) →
  vset (v1 ++ y :: v2) i x = Ok (v1 ++ x :: v2).
Proof.
  intros ->. apply vset_Ok. rewrite length_app, Nat2Z.id. simpl.
  split; [lia|]. rewrite insert_app_r_alt by lia.
  by rewrite Nat.sub_diag.
Qed.

Lemma vset_not_OutOfFuel v i x : vset v i x ≠ OutOfFuel.
Proof. unfold vset. by case_match. Qed.

Lemma vget_not_OutOfFuel v i : vget v i ≠ OutOfFuel.
Proof. unfold vget. by repeat case_match. Qed.

Lemma range_app_exact v1 v2 v3 first last :
  first = Z.of_nat (length v1) →
  last = first + Z.of_nat (length v2) →
  range (v1 ++ v2 ++ v3) first last = v2.
Proof.
  intros -> ->. unfold range.
  rewrite Nat2Z.id, drop_app_length.
  replace (Z.to_nat _) with (length v2) by lia.
  by rewrite take_app_length.
Qed.
End vector_facts.

(** ** Loops *)

Section loops.
Context {St : Type} (cond : St → bool) (body : St → result St).

Lemma reaches_first s0 s1 s :
  cond s0 = true → body s0 = Ok s1 →
  reaches cond body s1 s → reaches cond body s0 s.
Proof.
  intros Hc Hb. induction 1 as [|s s' _ IH Hc' Hb'].
  - eapply reaches_step; [constructor | done..].
  - eapply reaches_step; eauto.
Qed.

Lemma reaches_inv (Inv : St → Prop) s0 s :
  (∀ s s', Inv s → cond s = true → body s = Ok s' → Inv s') →
  Inv s0 → reaches cond body s0 s → Inv s.
Proof. intros Hstep H0. induction 1; eauto. Qed.

Lemma for_loop_reaches fuel s s' :
  for_loop fuel cond body s = Ok s' →
  reaches cond body s s' ∧ cond s' = false.
Proof.
  revert s. induction fuel as [|fuel IH]; intros s; simpl; [done|].
  destruct (cond s) eqn:Hc.
  - intros (s1 & Hb & Hl)%bind_Ok. apply IH in Hl as [Hr ?].
    split; [|done]. by eapply reaches_first.
  - intros [= <-]. split; [constructor | done].
Qed.

(** More fuel does not change an outcome other than [OutOfFuel]. *)
Lemma for_loop_mono n m s :
  (n ≤ m)%nat → for_loop n cond body s ≠ OutOfFuel →
  for_loop m cond body s = for_loop n cond body s.
Proof.
  revert m s. induction n as [|n IH]; intros m s Hle; simpl; [done|].
  destruct m as [|m]; [lia|]. simpl.
  destruct (cond s); [|done].
  destruct (body s) as [s1| |]; simpl; try done.
  apply IH. lia.
Qed.

(** Total correctness: an invariant that every iteration keeps while
    a measure goes down. *)
Lemma for_loop_total (Inv : St → Prop) (measure : St → nat) :
  (∀ s, Inv s → cond s = true →
        ∃ s', body s = Ok s' ∧ Inv s' ∧ (measure s' < measure s)%nat) →
  ∀ fuel s, Inv s → (measure s < fuel)%nat →
    ∃ s', for_loop fuel cond body s = Ok s' ∧ Inv s' ∧ cond s' = false.
Proof.
  intros Hstep. induction fuel as [|fuel IH]; intros s HI Hm; [lia|].
  simpl. destruct (cond s) eqn:Hc; [|eauto].
  destruct (Hstep s HI Hc) as (s1 & -> & HI1 & Hlt). simpl.
  apply IH; [done | lia].
Qed.

(** Termination alone: the loop ends, normally or not. *)
Lemma for_loop_halts (Inv : St → Prop) (measure : St → nat) :
  (∀ s, body s ≠ OutOfFuel) →
  (∀ s s', Inv s → cond s = true → body s = Ok s' →
           Inv s' ∧ (measure s' < measure s)%nat) →
  ∀ fuel s, Inv s → (measure s < fuel)%nat →
    for_loop fuel cond body s ≠ OutOfFuel.
Proof.
  intros Hb Hstep. induction fuel as [|fuel IH]; intros s HI Hm; [lia|].
  simpl. destruct (cond s) eqn:Hc; [|done].
  apply bind_not_OutOfFuel; [done|].
  intros s1 Hs1. destruct (Hstep s s1 HI Hc Hs1). apply IH; [done | lia].
Qed.
End loops.

(** ** Fuel *)

Lemma fuel_mono_const {X} (m : result X) : fuel_mono (λ _, m).
Proof. by intros n k _ _. Qed.

Lemma fuel_mono_bind {X Y} (f : nat → result X) (g : X → nat → result Y) :
  fuel_mono f → (∀ x, fuel_mono (g x)) →
  fuel_mono (λ n, f n ≫= λ x, g x n).
Proof.
  intros Hf Hg n m Hle Hn.
  assert (f n ≠ OutOfFuel) as Hfn by (intros E; by rewrite E in Hn).
  rewrite (Hf n m Hle Hfn).
  destruct (f n) as [x| |]; simpl in *; try done.
  by apply Hg.
Qed.

Lemma fuel_mono_for_loop {St} (cond : St → bool) body s :
  fuel_mono (λ n, for_loop n cond body s).
Proof. intros n m. apply for_loop_mono. Qed.

Section fuel.
Context {T : Type} `{Elem T}.
Implicit Types A L : list T.

Lemma copy_in_mono A idx n L : fuel_mono (λ fuel, copy_in fuel A idx n L).
Proof.
  unfold copy_in.
  apply (fuel_mono_bind _ (λ s _, Ok s.1)).
  - apply fuel_mono_for_loop.
  - intros. apply fuel_mono_const.
Qed.

Lemma scratch_mono A p q r : fuel_mono (λ fuel, scratch fuel A p q r).
Proof.
  unfold scratch.
  apply (fuel_mono_bind _ (λ L fuel, _)); [apply copy_in_mono|].
  intros L.
  apply (fuel_mono_bind (λ _, _) (λ L fuel, _)); [apply fuel_mono_const|].
  intros L'.
  apply (fuel_mono_bind _ (λ R fuel, _)); [apply copy_in_mono|].
  intros R. apply fuel_mono_const.
Qed.

Lemma merge_run_mono A p q r : fuel_mono (λ fuel, merge_run fuel A p q r).
Proof.
  unfold merge_run.
  apply (fuel_mono_bind _ (λ LR fuel, _)); [apply scratch_mono|].
  intros LR. apply fuel_mono_for_loop.
Qed.

Lemma merge_mono A p q r : fuel_mono (λ fuel, merge fuel A p q r).
Proof.
  unfold merge.
  apply (fuel_mono_bind _ (λ s _, Ok (arr s))); [apply merge_run_mono|].
  intros. apply fuel_mono_const.
Qed.


Lemma merge_sort_mono A p r : fuel_mono (λ fuel, merge_sort fuel A p r).
Proof.
  intros n. revert A p r.
  induction n as [|n IH]; intros A p r m Hle; simpl; [done|].
  destruct m as [|m]; [lia|]. simpl.
  destruct (p <? r); [|done]. intros Hne.
  assert (n ≤ m)%nat as Hle' by lia.
  destruct (merge_sort n A p _) as [A1| |] eqn:E1; [| |done].
  - rewrite (IH A p _ m Hle'), E1 by (by rewrite E1). simpl in *.
    destruct (merge_sort n A1 _ r) as [A2| |] eqn:E2; [| |done].
    + rewrite (IH A1 _ r m Hle'), E2 by (by rewrite E2). simpl in *.
      by apply merge_mono.
    + by rewrite (IH A1 _ r m Hle'), E2 by (by rewrite E2).
  - by rewrite (IH A p _ m Hle'), E1 by (by rewrite E1).
Qed.

End fuel.

(** ** Order, permutation and stability on lists *)

Section orders.
Context {T : Type} `{Elem T}.
Implicit Types l : list T.

Lemma merge_ranges_nil_l l2 : merge_ranges [] l2 = l2.
Proof. by destruct l2. Qed.

Lemma merge_ranges_nil_r l1 : merge_ranges l1 [] = l1.
Proof. by destruct l1. Qed.

Lemma merge_ranges_cons x l1 y l2 :
  merge_ranges (x :: l1) (y :: l2) =
  if key y <? key x then y :: merge_ranges (x :: l1) l2
  else x :: merge_ranges l1 (y :: l2).
Proof. reflexivity. Qed.

Lemma merge_ranges_perm l1 l2 : merge_ranges l1 l2 ≡ₚ l1 ++ l2.
Proof.
  revert l2. induction l1 as [|x l1 IH1]; intros l2.
  { by rewrite merge_ranges_nil_l. }
  induction l2 as [|y l2 IH2].
  { by rewrite merge_ranges_nil_r, app_nil_r. }
  rewrite merge_ranges_cons. destruct (key y <? key x).
  - rewrite IH2. by rewrite <- Permutation_middle.
  - by rewrite IH1.
Qed.

Lemma merge_ranges_length l1 l2 :
  length (merge_ranges l1 l2) = (length l1 + length l2)%nat.
Proof. by rewrite merge_ranges_perm, length_app. Qed.

Lemma sorted_cons_inv x l :
  sorted (x :: l) → sorted l ∧ Forall (key_le x) l.
Proof. apply StronglySorted_inv. Qed.

Lemma key_le_trans_Forall x y l :
  key_le x y → Forall (key_le y) l → Forall (key_le x) l.
Proof.
  intros Hxy Hl. eapply Forall_impl; [exact Hl|].
  unfold key_le in *. intros; lia.
Qed.

Lemma merge_ranges_sorted l1 l2 :
  sorted l1 → sorted l2 → sorted (merge_ranges l1 l2).
Proof.
  revert l2. induction l1 as [|x l1 IH1]; intros l2 H1 H2.
  { by rewrite merge_ranges_nil_l. }
  induction l2 as [|y l2 IH2].
  { by rewrite merge_ranges_nil_r. }
  apply sorted_cons_inv in H1 as H1'. destruct H1' as [H1l H1x].
  apply sorted_cons_inv in H2 as H2'. destruct H2' as [H2l H2y].
  rewrite merge_ranges_cons. destruct (Z.ltb_spec (key y) (key x)).
  - constructor; [by apply IH2|].
    rewrite merge_ranges_perm. apply Forall_app. split; [|done].
    assert (key_le y x) by (unfold key_le; lia).
    constructor; [done|]. by eapply key_le_trans_Forall.
  - constructor; [by apply IH1|].
    rewrite merge_ranges_perm. apply Forall_app. split; [done|].
    assert (key_le x y) by (unfold key_le; lia).
    constructor; [done|]. by eapply key_le_trans_Forall.
Qed.

Lemma filter_has_key_above v l :
  Forall (λ x, v < key x) l → filter (has_key v) l = [].
Proof.
  induction 1 as [|x l Hx _ IH]; [done|].
  rewrite filter_cons_False; [done|]. unfold has_key. lia.
Qed.

(** [std::merge] is stable: within one key, the elements of the first
    range come first, each range in its own order. *)
Lemma merge_ranges_filter v l1 l2 :
  sorted l1 →
  filter (has_key v) (merge_ranges l1 l2) =
  filter (has_key v) l1 ++ filter (has_key v) l2.
Proof.
  revert l2. induction l1 as [|x l1 IH1]; intros l2 H1.
  { by rewrite merge_ranges_nil_l. }
  induction l2 as [|y l2 IH2].
  { by rewrite merge_ranges_nil_r, app_nil_r. }
  apply sorted_cons_inv in H1 as H1'. destruct H1' as [H1l H1x].
  rewrite merge_ranges_cons. destruct (Z.ltb_spec (key y) (key x)).
  - destruct (decide (has_key v y)) as [Hv|Hv].
    + rewrite (filter_cons_True _ y), (filter_cons_True _ y) by done.
      rewrite IH2.
      rewrite (filter_has_key_above v (x :: l1)); [done|].
      unfold has_key in Hv. constructor; [lia|].
      eapply Forall_impl; [exact H1x|]. unfold key_le. intros; lia.
    + rewrite (filter_cons_False _ y), (filter_cons_False _ y) by done.
      apply IH2.
  - destruct (decide (has_key v x)) as [Hv|Hv].
    + rewrite !(filter_cons_True _ x) by done.
      by rewrite IH1.
    + rewrite !(filter_cons_False _ x) by done.
      by rewrite IH1.
Qed.

Lemma stable_sort_of_merge l1 l1' l2 l2' :
  stable_sort_of l1 l1' → stable_sort_of l2 l2' →
  stable_sort_of (l1 ++ l2) (merge_ranges l1' l2').
Proof.
  intros (S1 & P1 & F1) (S2 & P2 & F2). split_and!.
  - by apply merge_ranges_sorted.
  - by rewrite merge_ranges_perm, P1, P2.
  - intros v. by rewrite merge_ranges_filter, filter_app, F1, F2.
Qed.

Lemma stable_sort_of_short l :
  (length l ≤ 1)%nat → stable_sort_of l l.
Proof.
  intros Hl. split_and!; [|done..].
  destruct l as [|x [|y l]]; simpl in Hl; [| |lia].
  - constructor.
  - by repeat constructor.
Qed.

Lemma below_sentinel_perm l l' :
  l' ≡ₚ l → Forall below_sentinel l → Forall below_sentinel l'.
Proof. by intros ->. Qed.
End orders.

(** ** The scan of [merge] *)

Section scan_facts.
Context {T : Type} `{Elem T}.
Variables (pre l1 l2 post : list T) (p r : Z).
Hypothesis Hp : p = Z.of_nat (length pre).
Hypothesis Hr : r + 1 = p + Z.of_nat (length l1) + Z.of_nat (length l2).
Hypothesis Hmax : r < SIZE_MAX.
Hypothesis Hb1 : Forall below_sentinel l1.
Hypothesis Hb2 : Forall below_sentinel l2.

Local Abbreviation L := (l1 ++ [sentinel]).
Local Abbreviation R := (l2 ++ [sentinel]).
Local Abbreviation inv := (scan_inv pre l1 l2 post p).

Lemma scan_inv_start junk :
  length junk = (length l1 + length l2)%nat →
  inv (ScanState (pre ++ junk ++ post) 0 0 p 0).
Proof.
  intros Hj.
  apply (ScanInv pre l1 l2 post p _ [] l1 [] l2 [] junk); simpl;
    try done. lia.
Qed.

Lemma scan_inv_bounds s :
  inv s →
  0 ≤ ci s ≤ Z.of_nat (length l1) ∧ 0 ≤ cj s ≤ Z.of_nat (length l2) ∧
  ck s = p + ci s + cj s ∧ Z.of_nat (writes s) = ci s + cj s ∧
  length (arr s) = length (pre ++ l1 ++ l2 ++ post).
Proof.
  intros [c1 t1 c2 t2 out junk E1 E2 Hi Hj Hk Hout Hw Harr Hjunk Hm].
  rewrite Harr, E1, E2, !length_app. lia.
Qed.

Lemma scan_step_inv s :
  inv s → (ck s <=? r) = true →
  ∃ s', scan_step L R s = Ok s' ∧ inv s' ∧
        (remaining r s' < remaining r s)%nat.
Proof.
  intros [c1 t1 c2 t2 out junk E1 E2 Hi Hj Hk Hout Hw Harr Hjunk Hm] Hc.
  apply Z.leb_le in Hc.
  assert (length l1 = length c1 + length t1)%nat as Hl1
    by (by rewrite E1, length_app).
  assert (length l2 = length c2 + length t2)%nat as Hl2
    by (by rewrite E2, length_app).
  assert (SIZE_MAX + 1 = SIZE_MOD) as HS by done.
  destruct junk as [|z junk]; [simpl in *; lia|].
  assert (∀ x, vset (arr s) (ck s) x
               = Ok (pre ++ (out ++ [x]) ++ junk ++ post)) as Hset.
  { intros x. rewrite Harr.
    replace (pre ++ out ++ (z :: junk) ++ post)
      with ((pre ++ out) ++ z :: (junk ++ post))
      by (by rewrite <- !app_assoc).
    rewrite (vset_middle _ _ x z) by (rewrite length_app; lia).
    by rewrite <- !app_assoc. }
  assert (wrap (ck s + 1) = p + Z.of_nat (S (length out))) as Hk'
    by (rewrite wrap_small; lia).
  assert (L = c1 ++ t1 ++ [sentinel]) as HL
    by (by rewrite E1, <- app_assoc).
  assert (R = c2 ++ t2 ++ [sentinel]) as HR
    by (by rewrite E2, <- app_assoc).
  assert (Forall below_sentinel t1) as Ht1
    by (rewrite E1 in Hb1; by apply Forall_app in Hb1 as [_ ?]).
  assert (Forall below_sentinel t2) as Ht2
    by (rewrite E2 in Hb2; by apply Forall_app in Hb2 as [_ ?]).
  unfold scan_step, remaining. rewrite HL, HR.
  destruct t1 as [|x t1], t2 as [|y t2]; simpl in Hjunk; [lia|..];
    cbn [app].
  - (* the left buffer is exhausted *)
    rewrite (vget_middle c1 _ sentinel), (vget_middle c2 _ y) by done.
    cbn [mbind result_bind].
    apply Forall_cons in Ht2 as [Hy _]. unfold below_sentinel in Hy.
    destruct (Z.leb_spec (key sentinel) (key y)); [lia|].
    rewrite Hset. eexists; split; [done|]. split; [|simpl; lia].
    apply (ScanInv pre l1 l2 post p _ c1 [] (c2 ++ [y]) t2 (out ++ [y]) junk);
      rewrite ?length_app; cbn [arr ci cj ck writes length];
      try done; try lia.
    + by rewrite E2, <- app_assoc.
    + rewrite wrap_small; lia.
    + rewrite <- Hm, !merge_ranges_nil_l. by rewrite <- app_assoc.
  - (* the right buffer is exhausted *)
    rewrite (vget_middle c1 _ x), (vget_middle c2 _ sentinel) by done.
    cbn [mbind result_bind].
    apply Forall_cons in Ht1 as [Hx _]. unfold below_sentinel in Hx.
    destruct (Z.leb_spec (key x) (key sentinel)); [|lia].
    rewrite Hset. eexists; split; [done|]. split; [|simpl; lia].
    apply (ScanInv pre l1 l2 post p _ (c1 ++ [x]) t1 c2 [] (out ++ [x]) junk);
      rewrite ?length_app; cbn [arr ci cj ck writes length];
      try done; try lia.
    + by rewrite E1, <- app_assoc.
    + rewrite wrap_small; lia.
    + rewrite <- Hm, !merge_ranges_nil_r. by rewrite <- app_assoc.
  - rewrite (vget_middle c1 _ x), (vget_middle c2 _ y) by done.
    cbn [mbind result_bind]. rewrite merge_ranges_cons in Hm.
    destruct (Z.leb_spec (key x) (key y)).
    + destruct (Z.ltb_spec (key y) (key x)); [lia|].
      rewrite Hset. eexists; split; [done|]. split; [|simpl; lia].
      apply (ScanInv pre l1 l2 post p _ (c1 ++ [x]) t1 c2 (y :: t2)
               (out ++ [x]) junk);
        rewrite ?length_app; cbn [arr ci cj ck writes length];
        try done; try lia.
      * by rewrite E1, <- app_assoc.
      * rewrite wrap_small; lia.
      * rewrite <- Hm. by rewrite <- app_assoc.
    + destruct (Z.ltb_spec (key y) (key x)); [|lia].
      rewrite Hset. eexists; split; [done|]. split; [|simpl; lia].
      apply (ScanInv pre l1 l2 post p _ c1 (x :: t1) (c2 ++ [y]) t2
               (out ++ [y]) junk);
        rewrite ?length_app; cbn [arr ci cj ck writes length];
        try done; try lia.
      * by rewrite E2, <- app_assoc.
      * rewrite wrap_small; lia.
      * rewrite <- Hm. by rewrite <- app_assoc.
Qed.

(** The scan runs to its end and leaves the merged range. *)
Lemma scan_spec fuel junk :
  length junk = (length l1 + length l2)%nat →
  (length l1 + length l2 < fuel)%nat →
  scan fuel L R r (ScanState (pre ++ junk ++ post) 0 0 p 0) =
  Ok (ScanState (pre ++ merge_ranges l1 l2 ++ post)
        (Z.of_nat (length l1)) (Z.of_nat (length l2)) (r + 1)
        (length l1 + length l2)).
Proof.
  intros Hj Hfuel. unfold scan.
  destruct (for_loop_total (λ s, ck s <=? r) (scan_step L R)
              inv (remaining r) scan_step_inv fuel
              (ScanState (pre ++ junk ++ post) 0 0 p 0))
    as (s' & -> & Hinv & Hc).
  { by apply scan_inv_start. }
  { unfold remaining. simpl. lia. }
  f_equal. apply Z.leb_gt in Hc.
  destruct Hinv as [c1 t1 c2 t2 out junk' E1 E2 Hi Hj' Hk Hout Hw Harr
                      Hjunk Hm].
  assert (length l1 = length c1 + length t1)%nat as Hl1
    by (by rewrite E1, length_app).
  assert (length l2 = length c2 + length t2)%nat as Hl2
    by (by rewrite E2, length_app).
  destruct t1; [|simpl in *; lia]. destruct t2; [|simpl in *; lia].
  destruct junk'; [|simpl in *; lia].
  simpl in Hm. rewrite app_nil_r in Hm. rewrite Hm in Harr.
  destruct s' as [A i j k w]. simpl in *.
  rewrite Nat.add_0_r in *. f_equal; try done; lia.
Qed.
(** Every state the scan passes through satisfies the invariant. *)
Lemma scan_inv_reaches junk s :
  length junk = (length l1 + length l2)%nat →
  reaches (λ s, ck s <=? r) (scan_step L R)
    (ScanState (pre ++ junk ++ post) 0 0 p 0) s →
  inv s.
Proof.
  intros Hj. apply reaches_inv; [|by apply scan_inv_start].
  intros s1 s2 Hinv Hc Hstep.
  destruct (scan_step_inv s1 Hinv Hc) as (s2' & Hstep' & Hinv' & _).
  rewrite Hstep in Hstep'. by injection Hstep' as ->.
Qed.

(** Both cursors point into their buffers. *)
Lemma scan_inv_reads s :
  inv s →
  ∃ x y, vget L (ci s) = Ok x ∧ vget R (cj s) = Ok y.
Proof.
  intros [c1 t1 c2 t2 out junk E1 E2 Hi Hj Hk Hout Hw Harr Hjunk Hm].
  assert (∃ x u, L = c1 ++ x :: u) as (x & u & ->).
  { rewrite E1, <- app_assoc. destruct t1; simpl; eauto. }
  assert (∃ y v, R = c2 ++ y :: v) as (y & v & ->).
  { rewrite E2, <- app_assoc. destruct t2; simpl; eauto. }
  exists x, y. by rewrite !vget_middle.
Qed.

(** What has been written so far are elements of the two halves, none
    of them the sentinel. *)
Lemma scan_inv_written s :
  inv s → Forall below_sentinel (range (arr s) p (ck s)).
Proof.
  intros [c1 t1 c2 t2 out junk E1 E2 Hi Hj Hk Hout Hw Harr Hjunk Hm].
  rewrite Harr, (range_app_exact pre out (junk ++ post)) by lia.
  assert (Forall below_sentinel (merge_ranges l1 l2)) as Hall.
  { rewrite merge_ranges_perm. by apply Forall_app. }
  rewrite <- Hm in Hall. by apply Forall_app in Hall as [? _].
Qed.
End scan_facts.

(** ** [merge] on a well-formed call *)

Section copy_in_facts.
Context {T : Type} `{Elem T}.
Implicit Types A l : list T.

Lemma copy_in_spec fuel A idx l L0 rest :
  (∀ i x, l !! i = Some x → vget A (idx (Z.of_nat i)) = Ok x) →
  Z.of_nat (length l) < SIZE_MOD →
  length L0 = length l → (length l < fuel)%nat →
  copy_in fuel A idx (Z.of_nat (length l)) (L0 ++ rest) = Ok (l ++ rest).
Proof.
  intros Hidx Hsz HL0 Hfuel. unfold copy_in.
  set (Inv := λ s : list T * Z, ∃ done todo junk,
         l = done ++ todo ∧ s.1 = done ++ junk ++ rest ∧
         s.2 = Z.of_nat (length done) ∧ length junk = length todo).
  set (measure := λ s : list T * Z,
         Z.to_nat (Z.of_nat (length l) - s.2)).
  edestruct (for_loop_total (λ s : list T * Z, s.2 <? Z.of_nat (length l))
               (λ s, x ← vget A (idx s.2); L ← vset s.1 s.2 x;
                     Ok (L, wrap (s.2 + 1)))
               Inv measure) as (s' & -> & HI & Hc).
  - intros [L i] (done & todo & junk & E & HL & Hi & Hj) Hc.
    simpl in *. apply Z.ltb_lt in Hc.
    assert (length l = length done + length todo)%nat as Hl
      by (by rewrite E, length_app).
    destruct todo as [|x todo]; [simpl in *; lia|].
    destruct junk as [|z junk]; [done|].
    rewrite Hi, (Hidx (length done) x)
      by (rewrite E; by apply list_lookup_middle).
    cbn [mbind result_bind]. rewrite HL. cbn [app].
    rewrite (vset_middle done _ x z) by done.
    eexists; split; [done|]. unfold measure, Inv. simpl. split.
    + exists (done ++ [x]), todo, junk. rewrite length_app.
      simpl in *. split_and!.
      * by rewrite E, <- app_assoc.
      * by rewrite <- app_assoc.
      * rewrite wrap_small; lia.
      * lia.
    + rewrite wrap_small; lia.
  - exists [], l, L0. by simpl.
  - unfold measure. simpl. lia.
  - destruct HI as (done & todo & junk & E & HL & Hi & Hj).
    apply Z.ltb_ge in Hc. simpl.
    assert (length l = length done + length todo)%nat as Hl
      by (by rewrite E, length_app).
    destruct todo; [|simpl in *; lia]. destruct junk; [|done].
    rewrite app_nil_r in E. by rewrite HL, E.
Qed.
End copy_in_facts.

Section merge_facts.
Context {T : Type} `{Elem T}.
Variables (pre l1 l2 post : list T) (p q r : Z).
Hypothesis Hp : p = Z.of_nat (length pre).
Hypothesis Hq : q + 1 = p + Z.of_nat (length l1).
Hypothesis Hr : r = q + Z.of_nat (length l2).
Hypothesis Hpq : p ≤ q.
Hypothesis Hrep : representable (pre ++ l1 ++ l2 ++ post).

Local Abbreviation A := (pre ++ l1 ++ l2 ++ post).

Lemma merge_facts_bounds :
  Z.of_nat (length pre) + Z.of_nat (length l1) + Z.of_nat (length l2)
    + Z.of_nat (length post) ≤ PTRDIFF_MAX ∧
  PTRDIFF_MAX < SIZE_MAX ∧ SIZE_MAX + 1 = SIZE_MOD.
Proof.
  unfold representable in Hrep. split_and!; try done.
  rewrite !length_app, !Nat2Z.inj_add in Hrep. lia.
Qed.

Lemma merge_n1 : wrap (wrap (q - p) + 1) = Z.of_nat (length l1).
Proof.
  destruct merge_facts_bounds as (? & ? & ?).
  rewrite (wrap_small (q - p)) by lia. rewrite wrap_small; lia.
Qed.

Lemma merge_n2 : wrap (r - q) = Z.of_nat (length l2).
Proof.
  destruct merge_facts_bounds as (? & ? & ?).
  rewrite !wrap_small; lia.
Qed.

Lemma scratch_spec fuel :
  (length l1 < fuel)%nat → (length l2 < fuel)%nat →
  scratch fuel A p q r = Ok (l1 ++ [sentinel], l2 ++ [sentinel]).
Proof.
  intros Hf1 Hf2. unfold scratch.
  destruct merge_facts_bounds as (Hlen & ? & ?).
  rewrite merge_n1, merge_n2.
  unfold vector. rewrite !wrap_small by lia.
  replace (Z.to_nat (Z.of_nat (length l1) + 1))
    with (length l1 + 1)%nat by lia.
  replace (Z.to_nat (Z.of_nat (length l2) + 1))
    with (length l2 + 1)%nat by lia.
  rewrite !replicate_add. simpl.
  rewrite (copy_in_spec fuel _ _ l1);
    [|  |lia|by rewrite length_replicate|done].
  2:{ intros i x Hi. apply lookup_lt_Some in Hi as Hlt.
      rewrite wrap_small by lia. apply vget_Ok. split; [lia|].
      replace (Z.to_nat (p + Z.of_nat i)) with (length pre + i)%nat by lia.
      rewrite lookup_app_r by lia.
      replace (length pre + i - length pre)%nat with i by lia.
      by apply lookup_app_l_Some. }
  cbn [mbind result_bind].
  rewrite (vset_middle l1 [] sentinel zero) by done.
  cbn [mbind result_bind].
  rewrite (copy_in_spec fuel _ _ l2);
    [|  |lia|by rewrite length_replicate|done].
  2:{ intros i x Hi. apply lookup_lt_Some in Hi as Hlt.
      rewrite (wrap_small (q + _)) by lia. rewrite wrap_small by lia.
      apply vget_Ok. split; [lia|].
      replace (Z.to_nat (q + Z.of_nat i + 1))
        with (length pre + (length l1 + i))%nat by lia.
      rewrite lookup_app_r by lia.
      replace (length pre + (length l1 + i) - length pre)%nat
        with (length l1 + i)%nat by lia.
      rewrite lookup_app_r by lia.
      replace (length l1 + i - length l1)%nat with i by lia.
      by apply lookup_app_l_Some. }
  cbn [mbind result_bind].
  by rewrite (vset_middle l2 [] sentinel zero) by done.
Qed.

Hypothesis Hb1 : Forall below_sentinel l1.
Hypothesis Hb2 : Forall below_sentinel l2.

Lemma merge_run_spec fuel :
  (length l1 + length l2 < fuel)%nat →
  merge_run fuel A p q r =
  Ok (ScanState (pre ++ merge_ranges l1 l2 ++ post)
        (Z.of_nat (length l1)) (Z.of_nat (length l2)) (r + 1)
        (length l1 + length l2)).
Proof.
  intros Hfuel. unfold merge_run.
  destruct merge_facts_bounds as (Hlen & ? & ?).
  rewrite scratch_spec by lia. cbn [mbind result_bind fst snd].
  replace A with (pre ++ (l1 ++ l2) ++ post) by (by rewrite <- !app_assoc).
  apply scan_spec; try done; try lia.
  by rewrite length_app.
Qed.

Lemma merge_spec fuel :
  (length l1 + length l2 < fuel)%nat →
  merge fuel A p q r = Ok (pre ++ merge_ranges l1 l2 ++ post).
Proof.
  intros Hfuel. unfold merge. by rewrite merge_run_spec.
Qed.
(** The scan of a well-formed call, state by state. *)
Lemma merge_scan_safe s :
  reaches (λ s, ck s <=? r) (scan_step (l1 ++ [sentinel]) (l2 ++ [sentinel]))
    (ScanState A 0 0 p 0) s →
  (0 ≤ ci s ≤ Z.of_nat (length l1) ∧ 0 ≤ cj s ≤ Z.of_nat (length l2) ∧
   ck s = p + ci s + cj s ∧ Z.of_nat (writes s) = ci s + cj s) ∧
  (∃ x y, vget (l1 ++ [sentinel]) (ci s) = Ok x
          ∧ vget (l2 ++ [sentinel]) (cj s) = Ok y) ∧
  Forall below_sentinel (range (arr s) p (ck s)).
Proof.
  destruct merge_facts_bounds as (Hlen & ? & ?).
  replace A with (pre ++ (l1 ++ l2) ++ post) by (by rewrite <- !app_assoc).
  intros Hreach.
  apply (scan_inv_reaches pre l1 l2 post p r) in Hreach;
    try done; try lia; [|by rewrite length_app].
  split; [|split].
  - apply scan_inv_bounds in Hreach. tauto.
  - by eapply scan_inv_reads.
  - by apply (scan_inv_written pre l1 l2 post p).
Qed.
End merge_facts.

(** ** [merge_lazy] on a well-formed call *)

Section merge_lazy_facts.
Context {T : Type} `{Elem T}.

Lemma copy_back_spec fuel (pre old new post : list T) start end_ :
  start = Z.of_nat (length pre) →
  end_ = start + Z.of_nat (length new) →
  length old = length new → (length new < fuel)%nat →
  copy_back fuel (pre ++ old ++ post) new start end_
  = Ok (pre ++ new ++ post).
Proof.
  intros Hs He Hold Hfuel. unfold copy_back.
  set (Inv := λ s : list T * Z * Z, ∃ done todo junk,
         new = done ++ todo ∧ s.1.1 = pre ++ done ++ junk ++ post ∧
         s.1.2 = start + Z.of_nat (length done) ∧
         s.2 = Z.of_nat (length done) ∧ length junk = length todo).
  set (measure := λ s : list T * Z * Z,
         Z.to_nat (Z.of_nat (length new) - s.2)).
  edestruct (for_loop_total
               (λ s : list T * Z * Z,
                  negb (s.1.2 =? end_)
                  && negb (s.2 =? Z.of_nat (length new)))
               (λ s, x ← vget new s.2; A ← vset s.1.1 s.1.2 x;
                     Ok (A, s.1.2 + 1, s.2 + 1))
               Inv measure) as (s' & -> & HI & Hc).
  - intros [[A sa] sb] (done & todo & junk & E & HA & Hsa & Hsb & Hj) Hc.
    simpl in *. apply andb_true_iff in Hc as [_ Hc].
    apply negb_true_iff, Z.eqb_neq in Hc.
    assert (length new = length done + length todo)%nat as Hl
      by (by rewrite E, length_app).
    destruct todo as [|x todo]; [simpl in *; lia|].
    destruct junk as [|z junk]; [done|].
    rewrite Hsb, E, (vget_middle done todo x) by done.
    cbn [mbind result_bind]. rewrite HA.
    replace (pre ++ done ++ (z :: junk) ++ post)
      with ((pre ++ done) ++ z :: (junk ++ post))
      by (by rewrite <- !app_assoc).
    rewrite (vset_middle _ _ x z) by (rewrite length_app; lia).
    cbn [mbind result_bind].
    eexists; split; [done|]. unfold measure, Inv. simpl. split; [|lia].
    exists (done ++ [x]), todo, junk. rewrite length_app.
    simpl in *. split_and!; try lia.
    + by rewrite <- app_assoc.
    + by rewrite <- !app_assoc.
  - exists [], new, old. simpl. split_and!; try done. lia.
  - unfold measure. simpl. lia.
  - destruct HI as (done & todo & junk & E & HA & Hsa & Hsb & Hj).
    simpl.
    assert (length new = length done + length todo)%nat as Hl
      by (by rewrite E, length_app).
    apply andb_false_iff in Hc.
    assert (s'.2 = Z.of_nat (length new)) as Hend.
    { destruct Hc as [Hc|Hc]; apply negb_false_iff, Z.eqb_eq in Hc; lia. }
    destruct todo; [|simpl in *; lia]. destruct junk; [|done].
    rewrite app_nil_r in E. by rewrite HA, E.
Qed.

Variables (pre l1 l2 post : list T) (p q r : Z).
Hypothesis Hp : p = Z.of_nat (length pre).
Hypothesis Hq : q + 1 = p + Z.of_nat (length l1).
Hypothesis Hr : r = q + Z.of_nat (length l2).
Hypothesis Hpq : p ≤ q.
Hypothesis Hrep : representable (pre ++ l1 ++ l2 ++ post).

Local Abbreviation A := (pre ++ l1 ++ l2 ++ post).

Lemma merge_lazy_spec fuel :
  (length l1 + length l2 < fuel)%nat →
  merge_lazy fuel A p q r = Ok (pre ++ merge_ranges l1 l2 ++ post).
Proof.
  intros Hfuel. unfold merge_lazy, std_next, std_merge.
  destruct (merge_facts_bounds pre l1 l2 post Hrep) as (Hlen & ? & ?).
  assert (Z.of_nat (length A) = Z.of_nat (length pre)
            + Z.of_nat (length l1) + Z.of_nat (length l2)
            + Z.of_nat (length post)) as HA
    by (rewrite !length_app; lia).
  rewrite (wrap_small (q + 1)), (wrap_small (r + 1)),
    (wrap_small (r - p)) by lia.
  rewrite (wrap_small (r - p + 1)) by lia.
  rewrite !to_ptrdiff_small by lia.
  destruct (Z.leb_spec 0 p); [|lia].
  destruct (Z.leb_spec p (Z.of_nat (length A))); [|lia].
  destruct (Z.leb_spec 0 (q + 1)); [|lia].
  destruct (Z.leb_spec (q + 1) (Z.of_nat (length A))); [|lia].
  destruct (Z.leb_spec 0 (r + 1)); [|lia].
  destruct (Z.leb_spec (r + 1) (Z.of_nat (length A))); [|lia].
  cbn [andb mbind result_bind].
  destruct (Z.leb_spec p (q + 1)); [|lia].
  destruct (Z.leb_spec (q + 1) (r + 1)); [|lia].
  cbn [andb].
  rewrite (range_app_exact pre l1 (l2 ++ post)) by lia.
  replace A with ((pre ++ l1) ++ l2 ++ post) by (by rewrite <- !app_assoc).
  rewrite (range_app_exact (pre ++ l1) l2 post)
    by (rewrite ?length_app; lia).
  unfold vector. rewrite merge_ranges_length, length_replicate.
  destruct (Nat.leb_spec (length l1 + length l2)
              (Z.to_nat (r - p + 1))); [|lia].
  rewrite drop_ge by (rewrite length_replicate; lia).
  rewrite app_nil_r. cbn [mbind result_bind].
  replace ((pre ++ l1) ++ l2 ++ post) with (pre ++ (l1 ++ l2) ++ post)
    by (by rewrite <- !app_assoc).
  apply copy_back_spec; rewrite ?merge_ranges_length, ?length_app; lia.
Qed.
End merge_lazy_facts.

(** ** The recursion of [merge_sort] and [merge_sort_lazy]

    The two functions differ in the merge they call only; what follows is
    proved once, for a recursion [msort] of that shape over a merge [mrg]
    that meets the list-level contract on elements that are [good]. *)

Section sort_facts.
Context {T : Type} `{Elem T}.
Variable msort : nat → list T → Z → Z → result (list T).
Variable mrg : nat → list T → Z → Z → Z → result (list T).
Variable good : list T → Prop.

Hypothesis msort_0 : ∀ A p r, msort 0 A p r = OutOfFuel.
Hypothesis msort_S : ∀ fuel A p r,
  msort (S fuel) A p r =
  if p <? r then
    let q := wrap (p + r) / 2 in
    A ← msort fuel A p q;
    A ← msort fuel A (wrap (q + 1)) r;
    mrg fuel A p q r
  else Ok A.
Hypothesis good_perm : ∀ l l', l' ≡ₚ l → good l → good l'.
Hypothesis good_app : ∀ l1 l2, good (l1 ++ l2) → good l1 ∧ good l2.
Hypothesis mrg_spec : ∀ pre l1 l2 post p q r fuel,
  p = Z.of_nat (length pre) → q + 1 = p + Z.of_nat (length l1) →
  r = q + Z.of_nat (length l2) → p ≤ q →
  representable (pre ++ l1 ++ l2 ++ post) →
  good l1 → good l2 → (length l1 + length l2 < fuel)%nat →
  mrg fuel (pre ++ l1 ++ l2 ++ post) p q r
  = Ok (pre ++ merge_ranges l1 l2 ++ post).

Lemma msort_spec pre mid post p r fuel :
  p = Z.of_nat (length pre) → r + 1 = p + Z.of_nat (length mid) →
  (1 ≤ length mid)%nat →
  representable (pre ++ mid ++ post) → good mid →
  (length mid + 1 < fuel)%nat →
  ∃ mid', msort fuel (pre ++ mid ++ post) p r = Ok (pre ++ mid' ++ post)
          ∧ stable_sort_of mid mid'.
Proof.
  remember (length mid) as n eqn:Hn.
  revert pre mid post p r fuel Hn.
  induction (lt_wf n) as [n _ IH].
  intros pre mid post p r fuel -> Hp Hr Hne Hrep Hgood Hfuel.
  destruct fuel as [|fuel]; [lia|]. rewrite msort_S.
  assert (Z.of_nat (length pre) + Z.of_nat (length mid)
          + Z.of_nat (length post) ≤ PTRDIFF_MAX) as Hlen.
  { unfold representable in Hrep.
    rewrite !length_app, !Nat2Z.inj_add in Hrep. lia. }
  destruct PTRDIFF_MAX_lt as (? & ? & ? & ?).
  destruct (Z.ltb_spec p r) as [Hlt|Hge].
  2:{ exists mid. split; [done|]. apply stable_sort_of_short. lia. }
  cbn zeta. rewrite (wrap_small (p + r)) by lia.
  set (q := (p + r) / 2).
  assert (p ≤ q < r) as Hq by (by apply midpoint).
  rewrite (wrap_small (q + 1)) by lia.
  set (n1 := Z.to_nat (q - p + 1)).
  assert (∃ m1 m2, mid = m1 ++ m2 ∧ length m1 = n1)
    as (m1 & m2 & -> & Hm1).
  { exists (take n1 mid), (drop n1 mid).
    rewrite take_drop, length_take. split; [done | lia]. }
  assert (Z.of_nat (length m2) = r - q) as Hm2.
  { rewrite length_app in Hr. lia. }
  apply good_app in Hgood as [Hg1 Hg2].
  rewrite length_app in *.
  (* the left half *)
  destruct (IH (length m1) ltac:(lia) pre m1 (m2 ++ post) p q fuel)
    as (m1' & E1 & Hs1); try done; try lia.
  { by rewrite <- app_assoc in Hrep. }
  rewrite <- app_assoc, E1. cbn [mbind result_bind].
  assert (length m1' = length m1) as Hm1'
    by (destruct Hs1 as (_ & -> & _); done).
  (* the right half *)
  destruct (IH (length m2) ltac:(lia) (pre ++ m1') m2 post (q + 1) r fuel)
    as (m2' & E2 & Hs2); try done; try (rewrite ?length_app; lia).
  { unfold representable in *. rewrite !length_app in *. lia. }
  rewrite <- app_assoc in E2. rewrite E2. cbn [mbind result_bind].
  assert (length m2' = length m2) as Hm2'
    by (destruct Hs2 as (_ & -> & _); done).
  (* the merge *)
  rewrite <- app_assoc.
  rewrite mrg_spec; try done; try lia.
  - eexists; split; [done|]. by apply stable_sort_of_merge.
  - unfold representable in *. rewrite !length_app in *. lia.
  - destruct Hs1 as (_ & ? & _). by eapply good_perm.
  - destruct Hs2 as (_ & ? & _). by eapply good_perm.
Qed.
End sort_facts.

Section sort_instances.
Context {T : Type} `{Elem T}.

Lemma merge_sort_spec (pre mid post : list T) p r fuel :
  p = Z.of_nat (length pre) → r + 1 = p + Z.of_nat (length mid) →
  (1 ≤ length mid)%nat →
  representable (pre ++ mid ++ post) → Forall below_sentinel mid →
  (length mid + 1 < fuel)%nat →
  ∃ mid', merge_sort fuel (pre ++ mid ++ post) p r
          = Ok (pre ++ mid' ++ post)
          ∧ stable_sort_of mid mid'.
Proof.
  apply (msort_spec merge_sort merge (Forall below_sentinel)).
  - done.
  - intros l l'. apply below_sentinel_perm.
  - intros l1 l2. apply Forall_app.
  - intros. by apply merge_spec.
Qed.

Lemma merge_sort_lazy_spec (pre mid post : list T) p r fuel :
  p = Z.of_nat (length pre) → r + 1 = p + Z.of_nat (length mid) →
  (1 ≤ length mid)%nat →
  representable (pre ++ mid ++ post) →
  (length mid + 1 < fuel)%nat →
  ∃ mid', merge_sort_lazy fuel (pre ++ mid ++ post) p r
          = Ok (pre ++ mid' ++ post)
          ∧ stable_sort_of mid mid'.
Proof.
  intros. eapply (msort_spec merge_sort_lazy merge_lazy (λ _, True));
    try done.
  intros. by apply merge_lazy_spec.
Qed.

(** On elements below the sentinel the two sorts compute the same
    vector. *)
Lemma merge_sort_lazy_eq (pre mid post : list T) p r fuel :
  p = Z.of_nat (length pre) → r + 1 = p + Z.of_nat (length mid) →
  (1 ≤ length mid)%nat →
  representable (pre ++ mid ++ post) → Forall below_sentinel mid →
  (length mid + 1 < fuel)%nat →
  merge_sort_lazy fuel (pre ++ mid ++ post) p r
  = merge_sort fuel (pre ++ mid ++ post) p r.
Proof.
  remember (length mid) as n eqn:Hn.
  revert pre mid post p r fuel Hn.
  induction (lt_wf n) as [n _ IH].
  intros pre mid post p r fuel -> Hp Hr Hne Hrep Hgood Hfuel.
  destruct fuel as [|fuel]; [lia|]. simpl.
  assert (Z.of_nat (length pre) + Z.of_nat (length mid)
          + Z.of_nat (length post) ≤ PTRDIFF_MAX) as Hlen.
  { unfold representable in Hrep.
    rewrite !length_app, !Nat2Z.inj_add in Hrep. lia. }
  destruct PTRDIFF_MAX_lt as (? & ? & ? & ?).
  destruct (Z.ltb_spec p r) as [Hlt|Hge]; [|done].
  rewrite (wrap_small (p + r)) by lia.
  set (q := (p + r) / 2).
  assert (p ≤ q < r) as Hq by (by apply midpoint).
  rewrite (wrap_small (q + 1)) by lia.
  set (n1 := Z.to_nat (q - p + 1)).
  assert (∃ m1 m2, mid = m1 ++ m2 ∧ length m1 = n1)
    as (m1 & m2 & -> & Hm1).
  { exists (take n1 mid), (drop n1 mid).
    rewrite take_drop, length_take. split; [done | lia]. }
  assert (Z.of_nat (length m2) = r - q) as Hm2.
  { rewrite length_app in Hr. lia. }
  apply Forall_app in Hgood as [Hg1 Hg2].
  rewrite length_app in *. rewrite <- app_assoc.
  rewrite (IH (length m1) ltac:(lia) pre m1 (m2 ++ post) p q fuel);
    try done; try lia; [|by rewrite <- app_assoc in Hrep].
  destruct (merge_sort_spec pre m1 (m2 ++ post) p q fuel)
    as (m1' & -> & Hs1); try done; try lia.
  { by rewrite <- app_assoc in Hrep. }
  cbn [mbind result_bind].
  assert (m1' ≡ₚ m1) as Hp1 by (by destruct Hs1 as (_ & ? & _)).
  assert (length m1' = length m1) as Hm1' by (by rewrite Hp1).
  assert (representable (pre ++ m1' ++ m2 ++ post)) as Hrep1.
  { unfold representable in *. rewrite !length_app in *. lia. }
  replace (pre ++ m1' ++ m2 ++ post) with ((pre ++ m1') ++ m2 ++ post)
    by (by rewrite <- app_assoc).
  rewrite (IH (length m2) ltac:(lia) (pre ++ m1') m2 post (q + 1) r fuel);
    try done; try (rewrite ?length_app; lia);
    [|by rewrite <- app_assoc].
  destruct (merge_sort_spec (pre ++ m1') m2 post (q + 1) r fuel)
    as (m2' & -> & Hs2); try done; try (rewrite ?length_app; lia).
  { by rewrite <- app_assoc. }
  cbn [mbind result_bind].
  assert (m2' ≡ₚ m2) as Hp2 by (by destruct Hs2 as (_ & ? & _)).
  assert (length m2' = length m2) as Hm2' by (by rewrite Hp2).
  assert (representable (pre ++ m1' ++ m2' ++ post)) as Hrep2.
  { unfold representable in *. rewrite !length_app in *. lia. }
  rewrite <- app_assoc.
  rewrite merge_lazy_spec, merge_spec; try done; try lia.
  - by rewrite Hp1.
  - by rewrite Hp2.
Qed.
End sort_instances.

(** ** Index ranges *)

Section ranges.
Context {T : Type}.
Implicit Types A : list T.

Lemma sub_app (pre mid post : list T) p r :
  p = Z.of_nat (length pre) → r + 1 = p + Z.of_nat (length mid) →
  sub (pre ++ mid ++ post) p r = mid.
Proof. intros. apply range_app_exact; lia. Qed.

(** A vector splits around a range of its indices. *)
Lemma split_at_range A p r :
  0 ≤ p → p ≤ r + 1 → r < Z.of_nat (length A) →
  ∃ pre mid post,
    A = pre ++ mid ++ post ∧ p = Z.of_nat (length pre) ∧
    r + 1 = p + Z.of_nat (length mid) ∧ mid = sub A p r.
Proof.
  intros Hp Hpr Hr.
  exists (take (Z.to_nat p) A), (sub A p r), (drop (Z.to_nat (r + 1)) A).
  assert (length (take (Z.to_nat p) A) = Z.to_nat p) as H1
    by (rewrite length_take; lia).
  assert (length (sub A p r) = Z.to_nat (r + 1 - p)) as H2.
  { unfold sub, range. rewrite length_take, length_drop. lia. }
  split_and!; try lia; [|done].
  unfold sub, range.
  rewrite <- (take_drop (Z.to_nat p) A) at 1. f_equal.
  rewrite <- (take_drop (Z.to_nat (r + 1 - p)) (drop (Z.to_nat p) A)) at 1.
  f_equal. rewrite drop_drop. f_equal. lia.
Qed.

Lemma split_at_ranges A p q r :
  0 ≤ p → p ≤ q + 1 → q ≤ r → r < Z.of_nat (length A) →
  ∃ pre l1 l2 post,
    A = pre ++ l1 ++ l2 ++ post ∧ p = Z.of_nat (length pre) ∧
    q + 1 = p + Z.of_nat (length l1) ∧ r = q + Z.of_nat (length l2) ∧
    l1 = sub A p q ∧ l2 = sub A (q + 1) r ∧ l1 ++ l2 = sub A p r.
Proof.
  intros Hp Hpq Hqr Hr.
  destruct (split_at_range A p q) as (pre & l1 & rest & E & H1 & H2 & H3);
    try lia.
  destruct (split_at_range A (q + 1) r)
    as (pre' & l2 & post & E' & H1' & H2' & H3'); try lia.
  assert (pre' = pre ++ l1) as ->.
  { rewrite E in E'. rewrite app_assoc in E'.
    apply app_inj_1 in E' as [? _]; [done|].
    rewrite length_app. lia. }
  exists pre, l1, l2, post.
  rewrite <- app_assoc in E'.
  split_and!; try done; try lia.
  symmetry. rewrite E', (app_assoc l1 l2 post).
  apply sub_app; [done|]. rewrite length_app. lia.
Qed.
End ranges.

(** On [int] the order of the keys is the order of the integers. *)
Lemma sorted_int (l : list Z) : sorted l ↔ StronglySorted Z.le l.
Proof. reflexivity. Qed.

(** An outcome reached with some fuel is the outcome with any fuel that
    does not run out. *)
Lemma fuel_mono_OutOfBounds {X} (f : nat → result X) n :
  fuel_mono f → f n = OutOfBounds → ∀ m x, f m ≠ Ok x.
Proof.
  intros Hf Hn m x Hm. destruct (Nat.le_ge_cases n m) as [Hle|Hle].
  - rewrite (Hf n m Hle) in Hm by (by rewrite Hn). by rewrite Hn in Hm.
  - rewrite (Hf m n Hle) in Hn by (by rewrite Hm). by rewrite Hm in Hn.
Qed.

(** A result reached with some fuel is the result with any fuel. *)
Lemma fuel_mono_Ok {X} (f : nat → result X) n x :
  fuel_mono f → f n = Ok x → ∀ m y, f m = Ok y → y = x.
Proof.
  intros Hf Hn m y Hm. destruct (Nat.le_ge_cases n m) as [Hle|Hle].
  - rewrite (Hf n m Hle) in Hm by (by rewrite Hn).
    rewrite Hn in Hm. by injection Hm.
  - rewrite (Hf m n Hle) in Hn by (by rewrite Hm).
    rewrite Hm in Hn. by injection Hn.
Qed.









(** ** Frames *)

Lemma frame_refl {T} (A : list T) p r : frame A A p r.
Proof. by split. Qed.

Lemma frame_trans {T} (A A1 A2 : list T) p r p1 r1 p2 r2 :
  p ≤ p1 → r1 ≤ r → p ≤ p2 → r2 ≤ r →
  frame A A1 p1 r1 → frame A1 A2 p2 r2 → frame A A2 p r.
Proof.
  intros ? ? ? ? [Hl1 Hf1] [Hl2 Hf2]. split; [congruence|].
  intros i Hi. rewrite Hf2, Hf1 by lia. done.
Qed.

(** A loop that has returned went through states that satisfy every
    invariant of its body. *)
Lemma for_loop_inv {St} (cond : St → bool) (body : St → result St)
    (Inv : St → Prop) fuel s s' :
  (∀ s s', Inv s → cond s = true → body s = Ok s' → Inv s') →
  Inv s → for_loop fuel cond body s = Ok s' → Inv s' ∧ cond s' = false.
Proof.
  intros Hstep Hs Hloop. apply for_loop_reaches in Hloop as [Hr Hc].
  split; [|done]. by eapply reaches_inv.
Qed.

Section frame_facts.
Context {T : Type} `{Elem T}.
Implicit Types A L R : list T.

(** What one iteration of the scan does when it succeeds. *)
Lemma scan_step_Ok L R s s' :
  scan_step L R s = Ok s' →
  ∃ x y, vget L (ci s) = Ok x ∧ vget R (cj s) = Ok y ∧
    0 ≤ ck s < Z.of_nat (length (arr s)) ∧
    ck s' = wrap (ck s + 1) ∧ writes s' = S (writes s) ∧
    if key x <=? key y
    then arr s' = <[Z.to_nat (ck s) := x]> (arr s)
         ∧ ci s' = wrap (ci s + 1) ∧ cj s' = cj s
    else arr s' = <[Z.to_nat (ck s) := y]> (arr s)
         ∧ ci s' = ci s ∧ cj s' = wrap (cj s + 1).
Proof.
  unfold scan_step.
  intros (x & Hx & (y & Hy & Hstep)%bind_Ok)%bind_Ok.
  exists x, y. split; [done|]. split; [done|].
  destruct (key x <=? key y);
    apply bind_Ok in Hstep as (A' & (? & ->)%vset_Ok & [= <-]); done.
Qed.

Lemma scan_step_not_OutOfFuel L R s : scan_step L R s ≠ OutOfFuel.
Proof.
  unfold scan_step.
  apply bind_not_OutOfFuel; [apply vget_not_OutOfFuel|]. intros x _.
  apply bind_not_OutOfFuel; [apply vget_not_OutOfFuel|]. intros y _.
  destruct (key x <=? key y);
    (apply bind_not_OutOfFuel; [apply vset_not_OutOfFuel | done]).
Qed.

Lemma scan_frame fuel L R A p r s' :
  representable A →
  scan fuel L R r (ScanState A 0 0 p 0) = Ok s' → frame A (arr s') p r.
Proof.
  intros Hrep Hscan. unfold scan in Hscan.
  destruct PTRDIFF_MAX_lt as (? & ? & ? & ?).
  apply (for_loop_inv _ _ (λ s, p ≤ ck s ∧ frame A (arr s) p r)) in Hscan
    as [[_ ?] _]; [done| |].
  - intros s1 s2 [Hk [Hlen Hfr]] Hc Hstep. apply Z.leb_le in Hc.
    apply scan_step_Ok in Hstep
      as (x & y & _ & _ & Hin & Hk' & _ & Hstep).
    unfold representable in Hrep.
    assert (∃ v, arr s2 = <[Z.to_nat (ck s1) := v]> (arr s1)) as [v Harr]
      by (destruct (key x <=? key y); destruct Hstep as [-> _]; eauto).
    rewrite Hk', wrap_small by lia. split; [lia|]. rewrite Harr. split.
    + by rewrite length_insert.
    + intros i Hi. rewrite list_lookup_insert_ne by lia. by apply Hfr.
  - split; [simpl; lia | apply frame_refl].
Qed.

Lemma merge_frame fuel A p q r A' :
  representable A → merge fuel A p q r = Ok A' → frame A A' p r.
Proof.
  intros Hrep. unfold merge, merge_run.
  intros (s & (LR & _ & Hscan)%bind_Ok & [= <-])%bind_Ok.
  by eapply scan_frame.
Qed.

Lemma std_next_Ok A n d :
  std_next A n = Ok d →
  d = to_ptrdiff n ∧ 0 ≤ d ≤ Z.of_nat (length A).
Proof.
  unfold std_next.
  destruct (Z.leb_spec 0 (to_ptrdiff n)),
    (Z.leb_spec (to_ptrdiff n) (Z.of_nat (length A))); simpl; try done.
  intros [= <-]. lia.
Qed.

Lemma std_merge_Ok A f1 l1 f2 l2 B B' :
  std_merge A f1 l1 f2 l2 B = Ok B' → f1 ≤ l1 ∧ f2 ≤ l2.
Proof.
  unfold std_merge.
  destruct (Z.leb_spec f1 l1), (Z.leb_spec f2 l2); simpl; try done;
    intros; lia.
Qed.

Lemma copy_back_frame fuel A B start end_ A' :
  0 ≤ start ≤ end_ →
  copy_back fuel A B start end_ = Ok A' → frame A A' start (end_ - 1).
Proof.
  intros Hse. unfold copy_back.
  intros (s & Hloop & [= <-])%bind_Ok.
  apply (for_loop_inv _ _
           (λ s, start ≤ s.1.2 ≤ end_ ∧ frame A s.1.1 start (end_ - 1)))
    in Hloop as [[_ ?] _]; [done| |].
  - intros [[A1 sa] sb] s2 [Hsa [Hlen Hfr]] Hc. simpl in *.
    apply andb_true_iff in Hc as [Hc _].
    apply negb_true_iff, Z.eqb_neq in Hc.
    intros (x & _ & (A2 & (Hin & ->)%vset_Ok & [= <-])%bind_Ok)%bind_Ok.
    simpl. split; [lia|]. split.
    + by rewrite length_insert.
    + intros i Hi. rewrite list_lookup_insert_ne by lia. by apply Hfr.
  - simpl. split; [lia | apply frame_refl].
Qed.

Lemma merge_lazy_frame fuel A p q r A' :
  0 ≤ p ≤ SIZE_MAX → 0 ≤ r ≤ SIZE_MAX →
  merge_lazy fuel A p q r = Ok A' → frame A A' p r.
Proof.
  intros Hp Hr. unfold merge_lazy.
  intros (start & [Hs Hs']%std_next_Ok
          & (middle & [Hm Hm']%std_next_Ok
             & (end_ & [He He']%std_next_Ok
                & (B & [Hsm Hme]%std_merge_Ok & Hcopy)%bind_Ok)%bind_Ok
            )%bind_Ok)%bind_Ok.
  apply copy_back_frame in Hcopy as [Hlen Hfr]; [|lia].
  split; [done|]. intros i Hi. apply Hfr.
  assert (SIZE_MAX + 1 = SIZE_MOD) as HS by done.
  assert (PTRDIFF_MAX < SIZE_MAX) as HP by done.
  unfold to_ptrdiff in Hs, He.
  destruct (Z.leb_spec p PTRDIFF_MAX); [|lia].
  destruct (Z.eq_dec r SIZE_MAX) as [->|Hne].
  - replace (wrap (SIZE_MAX + 1)) with 0 in He by done.
    simpl in He. lia.
  - rewrite wrap_small in He by lia.
    destruct (Z.leb_spec (r + 1) PTRDIFF_MAX); lia.
Qed.
End frame_facts.

Section in_bounds_facts.
Context {T : Type} `{Elem T}.
Implicit Types A L R : list T.

(** A copy loop that has returned has read its last index. *)
Lemma copy_in_Ok_last fuel A idx n L0 L1 :
  0 < n →
  copy_in fuel A idx n L0 = Ok L1 → ∃ x, vget A (idx (n - 1)) = Ok x.
Proof.
  intros Hn. unfold copy_in. intros (s & Hloop & _)%bind_Ok.
  apply (for_loop_inv _ _
           (λ s, s.2 ≤ n ∧ (0 < s.2 → s.2 = n →
                            ∃ x, vget A (idx (n - 1)) = Ok x)))
    in Hloop as [[Hle Hlast] Hc].
  - apply Z.ltb_ge in Hc. apply Hlast; lia.
  - intros [L i] s2 [Hi Hlast] Hc. simpl in *. apply Z.ltb_lt in Hc.
    intros (x & Hx & (L' & (Hin & ->)%vset_Ok & [= <-])%bind_Ok)%bind_Ok.
    simpl. pose proof (wrap_range (i + 1)).
    assert (wrap (i + 1) ≤ i + 1) as Hw.
    { unfold wrap. apply Z.mod_le; [lia | done]. }
    split; [lia|]. intros _ Hend.
    exists x. by replace (n - 1) with i by lia.
  - simpl. split; [lia|]. intros; lia.
Qed.

(** [merge] returns only if [r] is an index of the vector. *)
Lemma merge_Ok_in_bounds fuel A p q r A' :
  0 ≤ q < r → r ≤ SIZE_MAX →
  merge fuel A p q r = Ok A' → r < Z.of_nat (length A).
Proof.
  intros Hq Hr. unfold merge, merge_run, scratch.
  intros (s & (LR & Hscratch & _)%bind_Ok & _)%bind_Ok.
  apply bind_Ok in Hscratch as (L1 & _ & Hscratch).
  apply bind_Ok in Hscratch as (L2 & _ & Hscratch).
  apply bind_Ok in Hscratch as (R1 & Hcopy & _).
  assert (SIZE_MAX + 1 = SIZE_MOD) as HS by done.
  rewrite (wrap_small (r - q)) in Hcopy by lia.
  apply copy_in_Ok_last in Hcopy as [x Hx]; [|lia].
  replace (q + (r - q - 1)) with (r - 1) in Hx by lia.
  rewrite (wrap_small (r - 1)) in Hx by lia.
  replace (r - 1 + 1) with r in Hx by lia.
  rewrite wrap_small in Hx by lia.
  apply vget_Ok in Hx as [_ Hx%lookup_lt_Some]. lia.
Qed.

Lemma merge_lazy_Ok_in_bounds fuel A p q r A' :
  0 ≤ q < r → r ≤ SIZE_MAX →
  merge_lazy fuel A p q r = Ok A' → r < Z.of_nat (length A).
Proof.
  intros Hq Hr. unfold merge_lazy.
  intros (start & [Hs Hs']%std_next_Ok
          & (middle & [Hm Hm']%std_next_Ok
             & (end_ & [He He']%std_next_Ok
                & (B & [Hsm Hme]%std_merge_Ok & Hcopy)%bind_Ok)%bind_Ok
            )%bind_Ok)%bind_Ok.
  assert (SIZE_MAX + 1 = SIZE_MOD) as HS by done.
  assert (PTRDIFF_MAX < SIZE_MAX) as HP by done.
  rewrite (wrap_small (q + 1)) in Hm by lia.
  unfold to_ptrdiff in Hm, He.
  destruct (Z.leb_spec (q + 1) PTRDIFF_MAX); [|lia].
  destruct (Z.eq_dec r SIZE_MAX) as [->|Hne].
  - replace (wrap (SIZE_MAX + 1)) with 0 in He by done.
    simpl in He. lia.
  - rewrite wrap_small in He by lia.
    destruct (Z.leb_spec (r + 1) PTRDIFF_MAX); lia.
Qed.
End in_bounds_facts.

(** The split point of [merge_sort] lies below [r], whatever the sum
    does. *)
Lemma split_point_lt p r :
  0 ≤ p < r → 0 ≤ wrap (p + r) / 2 < r.
Proof.
  intros Hpr. pose proof (wrap_range (p + r)).
  assert (wrap (p + r) ≤ p + r) by (apply Z.mod_le; [lia | done]).
  split; [apply Z.div_pos; lia|].
  apply Z.div_lt_upper_bound; lia.
Qed.

Section sort_frame_facts.
Context {T : Type}.
Variable msort : nat → list T → Z → Z → result (list T).
Variable mrg : nat → list T → Z → Z → Z → result (list T).

Hypothesis msort_0 : ∀ A p r, msort 0 A p r = OutOfFuel.
Hypothesis msort_S : ∀ fuel A p r,
  msort (S fuel) A p r =
  if p <? r then
    let q := wrap (p + r) / 2 in
    A ← msort fuel A p q;
    A ← msort fuel A (wrap (q + 1)) r;
    mrg fuel A p q r
  else Ok A.
Hypothesis mrg_frame : ∀ fuel A p q r A',
  representable A → 0 ≤ p ≤ SIZE_MAX → 0 ≤ r ≤ SIZE_MAX →
  mrg fuel A p q r = Ok A' → frame A A' p r.
Hypothesis mrg_in_bounds : ∀ fuel A p q r A',
  0 ≤ q < r → r ≤ SIZE_MAX →
  mrg fuel A p q r = Ok A' → r < Z.of_nat (length A).

Lemma msort_frame fuel A p r A' :
  representable A → 0 ≤ p ≤ SIZE_MAX → 0 ≤ r ≤ SIZE_MAX →
  msort fuel A p r = Ok A' → frame A A' p r.
Proof.
  revert A p r A'. induction fuel as [|fuel IH];
    intros A p r A' Hrep Hp Hr; [by rewrite msort_0|].
  rewrite msort_S. destruct (Z.ltb_spec p r) as [Hlt|Hge].
  2:{ intros [= <-]. apply frame_refl. }
  cbn zeta. set (q := wrap (p + r) / 2).
  intros (A1 & H1 & (A2 & H2 & H3)%bind_Ok)%bind_Ok.
  assert (0 ≤ q < r) as Hq by (apply split_point_lt; lia).
  pose proof (wrap_range (q + 1)) as Hq1.
  destruct PTRDIFF_MAX_lt as (HP & HS & HP2 & _).
  apply IH in H1 as F1; [|done|lia..].
  assert (representable A1) as Hrep1
    by (unfold representable in *; by rewrite (proj1 F1)).
  apply IH in H2 as F2; [|done|lia..].
  assert (representable A2) as Hrep2
    by (unfold representable in *; by rewrite (proj1 F2)).
  apply mrg_in_bounds in H3 as Hin; [|lia..].
  apply mrg_frame in H3 as F3; [|done|lia..].
  rewrite (proj1 F2), (proj1 F1) in Hin. unfold representable in Hrep.
  assert (q = (p + r) / 2) as Hq'
    by (unfold q; rewrite wrap_small; lia).
  pose proof (midpoint p r Hlt) as Hmid. rewrite <- Hq' in Hmid.
  rewrite (wrap_small (q + 1)) in F2 by lia.
  apply (frame_trans A A2 A' p r p r p r); try lia; [|done].
  apply (frame_trans A A1 A2 p r p q (q + 1) r); try lia; done.
Qed.
End sort_frame_facts.

Section sort_frame_instances.
Context {T : Type} `{Elem T}.

Lemma merge_sort_frame fuel (A : list T) p r A' :
  representable A → 0 ≤ p ≤ SIZE_MAX → 0 ≤ r ≤ SIZE_MAX →
  merge_sort fuel A p r = Ok A' → frame A A' p r.
Proof.
  apply (msort_frame merge_sort merge); try done.
  - intros. by eapply merge_frame.
  - intros. by eapply merge_Ok_in_bounds.
Qed.

Lemma merge_sort_lazy_frame fuel (A : list T) p r A' :
  representable A → 0 ≤ p ≤ SIZE_MAX → 0 ≤ r ≤ SIZE_MAX →
  merge_sort_lazy fuel A p r = Ok A' → frame A A' p r.
Proof.
  apply (msort_frame merge_sort_lazy merge_lazy); try done.
  - intros. by eapply merge_lazy_frame.
  - intros. by eapply merge_lazy_Ok_in_bounds.
Qed.
End sort_frame_instances.


(** ** Termination *)

Section halts_facts.
Context {T : Type} `{Elem T}.
Implicit Types A L R : list T.

(** The scan ends, whatever the buffers hold. *)
Lemma scan_halts fuel L R A p r :
  0 ≤ p → r < SIZE_MAX → (Z.to_nat (r + 1 - p) < fuel)%nat →
  scan fuel L R r (ScanState A 0 0 p 0) ≠ OutOfFuel.
Proof.
  intros Hp Hr Hfuel. unfold scan.
  apply (for_loop_halts _ _ (λ s, 0 ≤ ck s)
           (λ s, Z.to_nat (r + 1 - ck s))); try done.
  - apply scan_step_not_OutOfFuel.
  - intros s s' Hk Hc Hstep. apply Z.leb_le in Hc.
    apply scan_step_Ok in Hstep as (x & y & _ & _ & _ & Hk' & _).
    assert (SIZE_MAX + 1 = SIZE_MOD) as HS by done.
    rewrite Hk', wrap_small by lia. lia.
Qed.

Lemma merge_halts fuel A p q r :
  0 ≤ p ≤ q → q ≤ r < Z.of_nat (length A) → representable A →
  (Z.to_nat (r - p + 1) < fuel)%nat →
  merge fuel A p q r ≠ OutOfFuel.
Proof.
  intros Hpq Hqr Hrep Hfuel.
  destruct (split_at_ranges A p q r)
    as (pre & l1 & l2 & post & EA & Hp & Hq & Hr & _); try lia.
  destruct PTRDIFF_MAX_lt as (HP & HS & HP2 & _).
  unfold representable in Hrep.
  unfold merge, merge_run.
  apply bind_not_OutOfFuel; [|done].
  rewrite EA at 1. rewrite scratch_spec; try done; try lia.
  - cbn [mbind result_bind fst snd]. apply scan_halts; lia.
  - by rewrite <- EA.
Qed.

Lemma merge_sort_halts fuel A p r :
  0 ≤ p ≤ r → r < Z.of_nat (length A) → representable A →
  (Z.to_nat (r - p + 1) + 1 < fuel)%nat →
  merge_sort fuel A p r ≠ OutOfFuel.
Proof.
  remember (Z.to_nat (r - p)) as n eqn:Hn.
  revert A p r fuel Hn. induction (lt_wf n) as [n _ IH].
  intros A p r fuel -> Hpr Hr Hrep Hfuel.
  destruct fuel as [|fuel]; [lia|]. simpl.
  destruct (Z.ltb_spec p r) as [Hlt|Hge]; [|done].
  destruct PTRDIFF_MAX_lt as (HP & HS & HP2 & _).
  pose proof Hrep as Hrep'. unfold representable in Hrep'.
  rewrite (wrap_small (p + r)) by lia.
  pose proof (midpoint p r Hlt) as Hq. set (q := (p + r) / 2) in *.
  rewrite (wrap_small (q + 1)) by lia.
  apply bind_not_OutOfFuel.
  { eapply IH; [|done|..]; try done; lia. }
  intros A1 [Hlen1 _]%merge_sort_frame; [|done|lia..].
  apply bind_not_OutOfFuel.
  { eapply IH; [|done|..]; unfold representable; rewrite ?Hlen1;
      try done; lia. }
  intros A2 [Hlen2 _]%merge_sort_frame;
    [|unfold representable; by rewrite Hlen1|lia..].
  apply merge_halts; unfold representable; rewrite ?Hlen2, ?Hlen1;
    try done; lia.
Qed.
End halts_facts.



(** ** Erasure of the tags *)

Lemma for_loop_sim {S1 S2} (f : S1 → S2) cond1 cond2 body1 body2 :
  (∀ s, cond2 (f s) = cond1 s) →
  (∀ s, body2 (f s) = f <$> body1 s) →
  ∀ fuel s,
    for_loop fuel cond2 body2 (f s) = f <$> for_loop fuel cond1 body1 s.
Proof.
  intros Hc Hb. induction fuel as [|fuel IH]; intros s; simpl; [done|].
  rewrite Hc. destruct (cond1 s); [|done].
  rewrite Hb. destruct (body1 s) as [s'| |]; simpl; [|done..]. apply IH.
Qed.

Section erasure.
Implicit Types v A L R : list (Z * nat).

Lemma vget_erase v i : vget (erase v) i = fst <$> vget v i.
Proof.
  unfold vget, erase. destruct (0 <=? i); [|done].
  rewrite list_lookup_fmap. by destruct (v !! Z.to_nat i).
Qed.

Lemma vset_erase v i x : vset (erase v) i x.1 = erase <$> vset v i x.
Proof.
  unfold vset, erase. rewrite length_fmap.
  destruct ((0 <=? i) && (i <? Z.of_nat (length v))); [|done].
  simpl. by rewrite list_fmap_insert.
Qed.

Lemma copy_in_erase fuel A idx n L :
  copy_in fuel (erase A) idx n (erase L) = erase <$> copy_in fuel A idx n L.
Proof.
  unfold copy_in.
  pose proof (for_loop_sim (λ s : list (Z * nat) * Z, (erase s.1, s.2))
             (λ s, s.2 <? n) (λ s, s.2 <? n)
             (λ s, x ← vget A (idx s.2); L ← vset s.1 s.2 x;
                   Ok (L, wrap (s.2 + 1)))
             (λ s, x ← vget (erase A) (idx s.2); L ← vset s.1 s.2 x;
                   Ok (L, wrap (s.2 + 1)))
             ltac:(done)) as Hsim.
  assert (∀ s : list (Z * nat) * Z,
            (x ← vget (erase A) (idx s.2); L ← vset (erase s.1) s.2 x;
             Ok (L, wrap (s.2 + 1)))
            = (λ s : list (Z * nat) * Z, (erase s.1, s.2)) <$>
              (x ← vget A (idx s.2); L ← vset s.1 s.2 x;
               Ok (L, wrap (s.2 + 1)))) as Hbody.
  { intros [L' i]. simpl. rewrite vget_erase.
    destruct (vget A (idx i)) as [x| |]; simpl; [|done..].
    rewrite vset_erase. by destruct (vset L' i x). }
  specialize (Hsim Hbody fuel (L, 0)). cbn [fst snd] in Hsim.
  rewrite Hsim. clear Hsim.
  destruct (for_loop _ _ _ _) as [[? ?]| |]; reflexivity.
Qed.

Lemma scan_step_erase L R s :
  scan_step (erase L) (erase R) (erase_state s)
  = erase_state <$> scan_step L R s.
Proof.
  unfold scan_step. simpl. rewrite !vget_erase.
  destruct (vget L (ci s)) as [x| |]; simpl; [|done..].
  destruct (vget R (cj s)) as [y| |]; simpl; [|done..].
  destruct (x.1 <=? y.1); rewrite vset_erase;
    by destruct (vset (arr s) (ck s) _).
Qed.

Lemma scan_erase fuel L R r s :
  scan fuel (erase L) (erase R) r (erase_state s)
  = erase_state <$> scan fuel L R r s.
Proof.
  unfold scan. apply (for_loop_sim erase_state); [done|].
  apply scan_step_erase.
Qed.

Lemma scratch_erase fuel A p q r :
  scratch fuel (erase A) p q r
  = (λ LR, (erase LR.1, erase LR.2)) <$> scratch fuel A p q r.
Proof.
  assert (∀ n, vector (T:=Z) n = erase (vector n)) as Hvec.
  { intros. unfold vector, erase. rewrite fmap_replicate. reflexivity. }
  unfold scratch. rewrite !Hvec.
  set (n1 := wrap (wrap (q - p) + 1)). set (n2 := wrap (r - q)).
  rewrite (copy_in_erase fuel A (λ i, wrap (p + i)) n1).
  destruct (copy_in fuel A (λ i, wrap (p + i)) n1 _) as [L| |];
    simpl; [|done..].
  change INT_MAX with (sentinel (T:=Z * nat)).1.
  rewrite (vset_erase L).
  destruct (vset L n1 _) as [L'| |]; simpl; [|done..].
  rewrite (copy_in_erase fuel A (λ i, wrap (wrap (q + i) + 1)) n2).
  destruct (copy_in fuel A _ n2 _) as [R| |]; simpl; [|done..].
  change INT_MAX with (sentinel (T:=Z * nat)).1.
  rewrite (vset_erase R).
  by destruct (vset R n2 _) as [R'| |].
Qed.

Lemma merge_erase fuel A p q r :
  merge fuel (erase A) p q r = erase <$> merge fuel A p q r.
Proof.
  unfold merge, merge_run. rewrite scratch_erase.
  destruct (scratch fuel A p q r) as [[L R]| |]; simpl; [|done..].
  change (ScanState (erase A) 0 0 p 0) with (erase_state (ScanState A 0 0 p 0)).
  rewrite scan_erase. by destruct (scan fuel L R r _).
Qed.

(** Running [merge_sort] on tagged elements and forgetting the tags is
    running it on the elements. *)
Lemma merge_sort_erase fuel A p r :
  merge_sort fuel (erase A) p r = erase <$> merge_sort fuel A p r.
Proof.
  revert A p r. induction fuel as [|fuel IH]; intros A p r; simpl; [done|].
  destruct (p <? r); [|done].
  rewrite IH. destruct (merge_sort fuel A p _) as [A1| |]; simpl; [|done..].
  rewrite IH. destruct (merge_sort fuel A1 _ r) as [A2| |]; simpl; [|done..].
  apply merge_erase.
Qed.
End erasure.

Section tags.
Implicit Types S : list Z.

Lemma tag_from_erase k S : erase (tag_from k S) = S.
Proof.
  unfold erase. revert k.
  induction S as [|x S IH]; intros k; simpl; by f_equal.
Qed.

Lemma tag_from_length k S : length (tag_from k S) = length S.
Proof.
  rewrite <- (tag_from_erase k S) at 2. unfold erase.
  by rewrite length_fmap.
Qed.

Lemma tag_from_lookup k S i x :
  S !! i = Some x → tag_from k S !! i = Some (x, (k + i)%nat).
Proof.
  revert k i. induction S as [|y S IH]; intros k [|i]; simpl; try done.
  - intros [= ->]. by rewrite Nat.add_0_r.
  - intros Hx. rewrite (IH (Datatypes.S k) i Hx). do 2 f_equal. lia.
Qed.

Lemma tag_from_above k S : Forall (λ y, (k ≤ y.2)%nat) (tag_from k S).
Proof.
  revert k. induction S as [|x S IH]; intros k; simpl; constructor.
  - done.
  - eapply Forall_impl; [apply IH|]. simpl. intros; lia.
Qed.

Lemma tag_from_sorted k S : StronglySorted tag_lt (tag_from k S).
Proof.
  revert k. induction S as [|x S IH]; intros k; simpl; constructor.
  - apply IH.
  - eapply Forall_impl; [apply tag_from_above|].
    unfold tag_lt. simpl. intros; lia.
Qed.

Lemma tag_from_below k S :
  Forall (λ x, x < INT_MAX) S → Forall below_sentinel (tag_from k S).
Proof.
  intros HS. revert k. induction HS as [|x S Hx _ IH]; intros k; simpl;
    constructor; [done | apply IH].
Qed.
End tags.

Section order_facts.
Context {X : Type} (R : X → X → Prop).

Lemma StronglySorted_filter (P : X → Prop) `{∀ x, Decision (P x)} l :
  StronglySorted R l → StronglySorted R (filter P l).
Proof.
  induction 1 as [|x l Hl IH Hx]; [constructor|].
  rewrite filter_cons. destruct (decide (P x)); [|done].
  constructor; [done|].
  apply Forall_forall. intros y [_ Hy]%list_elem_of_filter.
  by eapply Forall_forall in Hx.
Qed.

Lemma StronglySorted_before l1 a l2 b l3 :
  StronglySorted R (l1 ++ a :: l2 ++ b :: l3) → R a b.
Proof.
  induction l1 as [|x l1 IH]; simpl; intros Hs.
  - apply StronglySorted_inv in Hs as [_ Hall].
    apply Forall_app in Hall as [_ Hall]. by apply Forall_cons in Hall as [? _].
  - apply StronglySorted_inv in Hs as [Hs _]. by apply IH.
Qed.

(** Two positions of a list split it in three. *)
Lemma lookup_two_split (l : list X) i j a b :
  (i < j)%nat → l !! i = Some a → l !! j = Some b →
  ∃ l1 l2 l3, l = l1 ++ a :: l2 ++ b :: l3.
Proof.
  intros Hij Ha Hb.
  exists (take i l), (take (j - S i) (drop (S i) l)),
    (drop (S (j - S i)) (drop (S i) l)).
  rewrite <- (take_drop_middle l i a Ha) at 1. do 2 f_equal.
  symmetry. apply take_drop_middle.
  rewrite lookup_drop. by replace (S i + (j - S i))%nat with j by lia.
Qed.
End order_facts.

(** * The claims *)

(** C1 (amended).  For every non-empty vector [S] of [int], the call
    [merge_sort_lazy(S, 0, S.size() - 1)] returns with [S] holding a
    permutation of its former elements in non-decreasing order; so does
    [merge_sort(S, 0, S.size() - 1)] when every element is less than
    [INT_MAX]. *)
Theorem merge_sort_sorts (S : list Z) (fuel : nat) :
  S ≠ [] → representable S → (length S + 1 < fuel)%nat →
  (Forall (λ x, x < INT_MAX) S →
   ∃ S', merge_sort fuel S 0 (wrap (size S - 1)) = Ok S'
         ∧ S' ≡ₚ S ∧ StronglySorted Z.le S') ∧
  (∃ S', merge_sort_lazy fuel S 0 (wrap (size S - 1)) = Ok S'
         ∧ S' ≡ₚ S ∧ StronglySorted Z.le S').
Proof.
  intros Hne Hrep Hfuel.
  assert (1 ≤ length S)%nat as Hlen by (destruct S; [done | simpl; lia]).
  destruct PTRDIFF_MAX_lt as (? & ? & ? & ?).
  assert (wrap (size S - 1) = Z.of_nat (length S) - 1) as ->.
  { unfold size, representable in *. rewrite !wrap_small; try lia.
    rewrite wrap_small; lia. }
  pose proof (merge_sort_spec [] S [] 0 (Z.of_nat (length S) - 1) fuel)
    as Hspec.
  pose proof (merge_sort_lazy_spec [] S [] 0 (Z.of_nat (length S) - 1) fuel)
    as Hlazy.
  simpl in Hspec, Hlazy. rewrite app_nil_r in Hspec, Hlazy.
  split.
  - intros Hbelow.
    destruct Hspec as (S' & HS' & Hsort & Hperm & _); try done; try lia.
    rewrite app_nil_r in HS'. eauto.
  - destruct Hlazy as (S' & HS' & Hsort & Hperm & _); try done; try lia.
    rewrite app_nil_r in HS'. eauto.
Qed.

Lemma merge_sort_sorts_witness :
  let S := [31; 41; 59; 26; 42; 58] in
  (S ≠ [] ∧ representable S ∧ (length S + 1 < 8)%nat) ∧
  (Forall (λ x, x < INT_MAX) S →
   ∃ S', merge_sort 8 S 0 (wrap (size S - 1)) = Ok S'
         ∧ S' ≡ₚ S ∧ StronglySorted Z.le S') ∧
  (∃ S', merge_sort_lazy 8 S 0 (wrap (size S - 1)) = Ok S'
         ∧ S' ≡ₚ S ∧ StronglySorted Z.le S').
Proof.
  intros S.
  assert (S ≠ [] ∧ representable S ∧ (length S + 1 < 8)%nat)
    as (H1 & H2 & H3).
  { split_and!; [done | by vm_compute | simpl; lia]. }
  split; [done|]. exact (merge_sort_sorts S 8 H1 H2 H3).
Defined.

(** C1 as stated fails: on the empty vector [S.size() - 1] is the largest
    [size_t], the recursion is entered and the first merge reads the
    vector out of bounds; and on [0, 0, INT_MAX, INT_MAX] the scan of
    [merge] reads past the sentinel of its left buffer. *)
Lemma merge_sort_sorts_fails :
  merge_sort 100 ([] : list Z) 0 (wrap (size ([] : list Z) - 1))
    = OutOfBounds ∧
  merge_sort_lazy 100 ([] : list Z) 0 (wrap (size ([] : list Z) - 1))
    = OutOfBounds ∧
  merge_sort 100 [0; 0; INT_MAX; INT_MAX] 0
    (wrap (size [0; 0; INT_MAX; INT_MAX] - 1)) = OutOfBounds ∧
  ¬ (∀ S : list Z, ∃ fuel S',
       merge_sort fuel S 0 (wrap (size S - 1)) = Ok S'
       ∧ S' ≡ₚ S ∧ StronglySorted Z.le S').
Proof.
  assert (merge_sort 100 ([] : list Z) 0 (wrap (size ([] : list Z) - 1))
          = OutOfBounds) as Hempty by (vm_compute; reflexivity).
  split; [exact Hempty|].
  split; [vm_compute; reflexivity|].
  split; [vm_compute; reflexivity|].
  intros Hall. destruct (Hall []) as (fuel & S' & HS' & _).
  revert HS'.
  apply (fuel_mono_OutOfBounds
           (λ fuel, merge_sort fuel [] 0 (wrap (size ([] : list Z) - 1)))
           100); [apply merge_sort_mono | exact Hempty].
Qed.

(** C2 (amended).  For every vector [A] of [int] and indices
    [p <= q <= r < A.size()] such that [A[p..q]] and [A[q+1..r]] are each
    in non-decreasing order and every element of [A[p..r]] is less than
    [INT_MAX], [merge(A, p, q, r)] returns and leaves in [A[p..r]] the
    former elements of that range in non-decreasing order; and
    [merge([1,3,5,2,4,6,8], 0, 2, 6)] leaves [1,2,3,4,5,6,8]. *)
Theorem merge_sorts_range (A : list Z) (p q r : Z) (fuel : nat) :
  0 ≤ p ≤ q → q ≤ r < Z.of_nat (length A) → representable A →
  StronglySorted Z.le (sub A p q) →
  StronglySorted Z.le (sub A (q + 1) r) →
  Forall (λ x, x < INT_MAX) (sub A p r) →
  (Z.to_nat (r - p + 1) < fuel)%nat →
  (∃ A', merge fuel A p q r = Ok A'
         ∧ StronglySorted Z.le (sub A' p r)
         ∧ sub A' p r ≡ₚ sub A p r) ∧
  (∀ n, (7 < n)%nat →
        merge n [1; 3; 5; 2; 4; 6; 8] 0 2 6 = Ok [1; 2; 3; 4; 5; 6; 8]).
Proof.
  intros Hpq Hqr Hrep Hs1 Hs2 Hbelow Hfuel. split.
  - destruct (split_at_ranges A p q r)
      as (pre & l1 & l2 & post & EA & Hp & Hq & Hr & E1 & E2 & E12);
      try lia.
    rewrite <- E1 in Hs1. rewrite <- E2 in Hs2. rewrite <- E12 in Hbelow.
    clear E1 E2 E12. subst A.
    apply Forall_app in Hbelow as [Hb1 Hb2].
    rewrite (merge_spec pre l1 l2 post p q r) by (done || lia).
    eexists; split; [done|].
    rewrite (sub_app pre (merge_ranges l1 l2) post)
      by (rewrite ?merge_ranges_length, ?Nat2Z.inj_add; lia).
    rewrite (app_assoc l1 l2 post), (sub_app pre (l1 ++ l2) post)
      by (rewrite ?length_app, ?Nat2Z.inj_add; lia).
    split; [|apply merge_ranges_perm].
    exact (merge_ranges_sorted l1 l2 Hs1 Hs2).
  - intros n Hn.
    assert (merge 8 [1; 3; 5; 2; 4; 6; 8] 0 2 6 = Ok [1; 2; 3; 4; 5; 6; 8])
      as H8 by (vm_compute; reflexivity).
    rewrite (merge_mono [1; 3; 5; 2; 4; 6; 8] 0 2 6 8%nat n);
      [exact H8 | lia | by rewrite H8].
Qed.

Lemma merge_sorts_range_witness :
  let A := [1; 3; 5; 2; 4; 6; 8] in
  (0 ≤ 0 ≤ 2 ∧ 2 ≤ 6 < Z.of_nat (length A) ∧ representable A ∧
   StronglySorted Z.le (sub A 0 2) ∧ StronglySorted Z.le (sub A (2 + 1) 6) ∧
   Forall (λ x, x < INT_MAX) (sub A 0 6) ∧
   (Z.to_nat (6 - 0 + 1) < 8)%nat) ∧
  (∃ A', merge 8 A 0 2 6 = Ok A'
         ∧ StronglySorted Z.le (sub A' 0 6)
         ∧ sub A' 0 6 ≡ₚ sub A 0 6) ∧
  (∀ n, (7 < n)%nat →
        merge n [1; 3; 5; 2; 4; 6; 8] 0 2 6 = Ok [1; 2; 3; 4; 5; 6; 8]).
Proof.
  intros A.
  assert (0 ≤ 0 ≤ 2) as H1 by lia.
  assert (2 ≤ 6 < Z.of_nat (length A)) as H2 by (simpl; lia).
  assert (representable A) as H3 by (vm_compute; discriminate).
  assert (StronglySorted Z.le (sub A 0 2)) as H4
    by (vm_compute; repeat constructor; discriminate).
  assert (StronglySorted Z.le (sub A (2 + 1) 6)) as H5
    by (vm_compute; repeat constructor; discriminate).
  assert (Forall (λ x, x < INT_MAX) (sub A 0 6)) as H6
    by (apply (bool_decide_unpack _); vm_compute; reflexivity).
  assert (Z.to_nat (6 - 0 + 1) < 8)%nat as H7 by (simpl; lia).
  split; [done|]. exact (merge_sorts_range A 0 2 6 8 H1 H2 H3 H4 H5 H6 H7).
Defined.

(** C2 as stated fails: [0, 0] and [INT_MAX, INT_MAX] are sorted halves,
    and the scan reads the left buffer past its sentinel. *)
Lemma merge_sorts_range_fails :
  let A := [0; 0; INT_MAX; INT_MAX] in
  (0 ≤ 0 ≤ 1 ∧ 1 ≤ 3 < Z.of_nat (length A)
   ∧ StronglySorted Z.le (sub A 0 1)
   ∧ StronglySorted Z.le (sub A (1 + 1) 3)) ∧
  merge 100 A 0 1 3 = OutOfBounds ∧
  ∀ fuel A', merge fuel A 0 1 3 ≠ Ok A'.
Proof.
  intros A.
  assert (merge 100 A 0 1 3 = OutOfBounds) as Hrun
    by (vm_compute; reflexivity).
  split_and!; try (simpl; lia); try exact Hrun.
  - vm_compute; repeat constructor; discriminate.
  - vm_compute; repeat constructor; discriminate.
  - apply (fuel_mono_OutOfBounds (λ fuel, merge fuel A 0 1 3) 100);
      [apply merge_mono | exact Hrun].
Qed.

(** C3 (amended).  For every call [merge(A, p, q, r)] with
    [p <= q <= r < A.size()], both halves sorted and every element of
    [A[p..r]] less than [INT_MAX], the scan performs exactly
    [r - p + 1] writes, one in each iteration, and in every state it
    passes through the cursors are indices of the scratch buffers [L]
    (of [q - p + 2] slots) and [R] (of [r - q + 1] slots): nothing is
    read behind a sentinel. *)
Theorem merge_scan_writes (A : list Z) (p q r : Z) (fuel : nat) :
  0 ≤ p ≤ q → q ≤ r < Z.of_nat (length A) → representable A →
  StronglySorted Z.le (sub A p q) →
  StronglySorted Z.le (sub A (q + 1) r) →
  Forall (λ x, x < INT_MAX) (sub A p r) →
  (Z.to_nat (r - p + 1) < fuel)%nat →
  ∃ L R s_end,
    scratch fuel A p q r = Ok (L, R) ∧
    Z.of_nat (length L) = (q - p + 1) + 1 ∧
    Z.of_nat (length R) = (r - q) + 1 ∧
    merge_run fuel A p q r = Ok s_end ∧
    Z.of_nat (writes s_end) = r - p + 1 ∧ ck s_end = r + 1 ∧
    ∀ s, reaches (λ s, ck s <=? r) (scan_step L R) (ScanState A 0 0 p 0) s →
         0 ≤ ci s < Z.of_nat (length L) ∧ 0 ≤ cj s < Z.of_nat (length R) ∧
         Z.of_nat (writes s) = ck s - p.
Proof.
  intros Hpq Hqr Hrep _ _ Hbelow Hfuel.
  destruct (split_at_ranges A p q r)
    as (pre & l1 & l2 & post & EA & Hp & Hq & Hr & _ & _ & E12); try lia.
  rewrite <- E12 in Hbelow. clear E12. subst A.
  apply Forall_app in Hbelow as [Hb1 Hb2].
  exists (l1 ++ [sentinel]), (l2 ++ [sentinel]).
  pose proof (merge_run_spec (H:=int_elem) pre l1 l2 post p q r Hp Hq Hr
                ltac:(lia) Hrep Hb1 Hb2 fuel ltac:(lia)) as Hrun.
  eexists. split; [apply scratch_spec; try done; lia|].
  rewrite !length_app. cbn [length]. split; [lia|]. split; [lia|].
  split; [exact Hrun|]. cbn [writes ck]. split; [lia|]. split; [done|].
  intros s Hs.
  destruct (merge_scan_safe (H:=int_elem) pre l1 l2 post p q r Hp Hq Hr
              Hrep Hb1 Hb2 s Hs) as ((? & ? & ? & ?) & ? & ?).
  lia.
Qed.

Lemma merge_scan_writes_witness :
  let A := [1; 3; 5; 2; 4; 6; 8] in
  (0 ≤ 0 ≤ 2 ∧ 2 ≤ 6 < Z.of_nat (length A) ∧ representable A ∧
   StronglySorted Z.le (sub A 0 2) ∧ StronglySorted Z.le (sub A (2 + 1) 6) ∧
   Forall (λ x, x < INT_MAX) (sub A 0 6) ∧
   (Z.to_nat (6 - 0 + 1) < 8)%nat) ∧
  ∃ L R s_end,
    scratch 8 A 0 2 6 = Ok (L, R) ∧
    Z.of_nat (length L) = (2 - 0 + 1) + 1 ∧
    Z.of_nat (length R) = (6 - 2) + 1 ∧
    merge_run 8 A 0 2 6 = Ok s_end ∧
    Z.of_nat (writes s_end) = 6 - 0 + 1 ∧ ck s_end = 6 + 1 ∧
    ∀ s, reaches (λ s, ck s <=? 6) (scan_step L R) (ScanState A 0 0 0 0) s →
         0 ≤ ci s < Z.of_nat (length L) ∧ 0 ≤ cj s < Z.of_nat (length R) ∧
         Z.of_nat (writes s) = ck s - 0.
Proof.
  intros A.
  assert (0 ≤ 0 ≤ 2) as H1 by lia.
  assert (2 ≤ 6 < Z.of_nat (length A)) as H2 by (simpl; lia).
  assert (representable A) as H3 by (vm_compute; discriminate).
  assert (StronglySorted Z.le (sub A 0 2)) as H4
    by (vm_compute; repeat constructor; discriminate).
  assert (StronglySorted Z.le (sub A (2 + 1) 6)) as H5
    by (vm_compute; repeat constructor; discriminate).
  assert (Forall (λ x, x < INT_MAX) (sub A 0 6)) as H6
    by (apply (bool_decide_unpack _); vm_compute; reflexivity).
  assert (Z.to_nat (6 - 0 + 1) < 8)%nat as H7 by (simpl; lia).
  split; [done|]. exact (merge_scan_writes A 0 2 6 8 H1 H2 H3 H4 H5 H6 H7).
Defined.

(** C3 as stated fails.  With [A = 0, 0, INT_MAX, INT_MAX], [p = 0],
    [q = 1], [r = 3] the halves are sorted; after three iterations, each
    of which took from [L] (the third one its sentinel), the scan is at
    [k = 3 <= r] with [i = 3], and [L] has the slots 0, 1 and 2 only. *)
Lemma merge_scan_writes_fails :
  let A := [0; 0; INT_MAX; INT_MAX] in
  let L := [0; 0; INT_MAX] in
  let R := [INT_MAX; INT_MAX; INT_MAX] in
  let s := ScanState [0; 0; INT_MAX; INT_MAX] 3 0 3 3 in
  (StronglySorted Z.le (sub A 0 1) ∧ StronglySorted Z.le (sub A (1 + 1) 3)) ∧
  scratch 100 A 0 1 3 = Ok (L, R) ∧
  reaches (λ s, ck s <=? 3) (scan_step L R) (ScanState A 0 0 0 0) s ∧
  (ck s <=? 3) = true ∧
  vget L (ci s) = OutOfBounds ∧
  merge_run 100 A 0 1 3 = OutOfBounds ∧
  ∀ fuel s_end, merge_run fuel A 0 1 3 ≠ Ok s_end.
Proof.
  intros A L R s.
  assert (merge_run 100 A 0 1 3 = OutOfBounds) as Hrun
    by (vm_compute; reflexivity).
  split.
  { split; vm_compute; repeat constructor; discriminate. }
  split; [vm_compute; reflexivity|]. split.
  { apply (reaches_step _ _ _ (ScanState [0; 0; INT_MAX; INT_MAX] 2 0 2 2));
      [|reflexivity|vm_compute; reflexivity].
    apply (reaches_step _ _ _ (ScanState [0; 0; INT_MAX; INT_MAX] 1 0 1 1));
      [|reflexivity|vm_compute; reflexivity].
    apply (reaches_step _ _ _ (ScanState [0; 0; INT_MAX; INT_MAX] 0 0 0 0));
      [|reflexivity|vm_compute; reflexivity].
    apply reaches_start. }
  split; [reflexivity|]. split; [vm_compute; reflexivity|].
  split; [exact Hrun|].
  apply (fuel_mono_OutOfBounds (λ fuel, merge_run fuel A 0 1 3) 100);
    [apply merge_run_mono | exact Hrun].
Qed.

(** C4 (amended).  When [r <= p] the call [merge_sort(S, p, r)] (and
    [merge_sort_lazy(S, p, r)]) returns with [S] unchanged; in particular
    [merge_sort([5], 0, S.size() - 1)] leaves [5], and
    [merge_sort([], 0, 0)] leaves the empty vector. *)
Theorem merge_sort_base_case (S : list Z) (p r : Z) (fuel : nat) :
  r ≤ p → (0 < fuel)%nat →
  merge_sort fuel S p r = Ok S ∧ merge_sort_lazy fuel S p r = Ok S ∧
  merge_sort fuel [5] 0 (wrap (size [5] - 1)) = Ok [5] ∧
  merge_sort fuel ([] : list Z) 0 0 = Ok [].
Proof.
  intros Hrp Hfuel. destruct fuel as [|fuel]; [lia|]. simpl.
  destruct (Z.ltb_spec p r); [lia|]. done.
Qed.

Lemma merge_sort_base_case_witness :
  (0 ≤ 0 ∧ (0 < 1)%nat) ∧
  merge_sort 1 [5] 0 0 = Ok [5] ∧ merge_sort_lazy 1 [5] 0 0 = Ok [5] ∧
  merge_sort 1 [5] 0 (wrap (size [5] - 1)) = Ok [5] ∧
  merge_sort 1 ([] : list Z) 0 0 = Ok [].
Proof.
  assert (0 ≤ 0) as H1 by lia. assert (0 < 1)%nat as H2 by lia.
  split; [done|]. exact (merge_sort_base_case [5] 0 0 1 H1 H2).
Defined.

(** C4 as stated fails on the empty vector: [S.size() - 1] is
    [SIZE_MAX], so [p < r] holds, the recursion goes down to
    [merge(S, 0, 0, 1)], and that reads [S[0]]. *)
Lemma merge_sort_base_case_fails :
  wrap (size ([] : list Z) - 1) = SIZE_MAX ∧
  merge_sort 100 ([] : list Z) 0 (wrap (size ([] : list Z) - 1))
    = OutOfBounds ∧
  ∀ fuel, merge_sort fuel ([] : list Z) 0 (wrap (size ([] : list Z) - 1))
          ≠ Ok [].
Proof.
  assert (merge_sort 100 ([] : list Z) 0 (wrap (size ([] : list Z) - 1))
          = OutOfBounds) as Hempty by (vm_compute; reflexivity).
  split; [vm_compute; reflexivity|]. split; [exact Hempty|].
  intros fuel.
  apply (fuel_mono_OutOfBounds
           (λ fuel, merge_sort fuel [] 0 (wrap (size ([] : list Z) - 1)))
           100); [apply merge_sort_mono | exact Hempty].
Qed.

(** C5 (amended).  In an iteration of the scan of [merge] in which the
    head of the left buffer and the head of the right buffer have equal
    keys, the element written is the one of the left buffer, and only the
    left cursor advances.  Consequently [merge_sort] is stable on every
    non-empty vector [S] whose elements are all less than [INT_MAX]: run
    on the elements paired with their positions, [merge_sort(S, 0, S.size() - 1)] returns a
    permutation in which, of two elements with equal keys, the one that
    comes first has the smaller original position; and forgetting the
    positions gives the vector the program computes on [S]. *)
Theorem merge_sort_stable :
  (∀ (L R : list (Z * nat)) s s' x y,
     vget L (ci s) = Ok x → vget R (cj s) = Ok y → x.1 = y.1 →
     scan_step L R s = Ok s' →
     arr s' !! Z.to_nat (ck s) = Some x ∧
     ci s' = wrap (ci s + 1) ∧ cj s' = cj s) ∧
  (∀ (S : list Z) (fuel : nat),
     S ≠ [] → representable S → Forall (λ x, x < INT_MAX) S →
     (length S + 1 < fuel)%nat →
     ∃ A', merge_sort fuel (tag_from 0 S) 0 (wrap (size S - 1)) = Ok A' ∧
           merge_sort fuel S 0 (wrap (size S - 1)) = Ok (erase A') ∧
           A' ≡ₚ tag_from 0 S ∧
           ∀ i j a b, (i < j)%nat → A' !! i = Some a → A' !! j = Some b →
                      a.1 = b.1 → (a.2 < b.2)%nat).
Proof.
  split.
  - intros L R s s' x y Hx Hy Hxy Hstep.
    apply scan_step_Ok in Hstep
      as (x' & y' & Hx' & Hy' & Hin & _ & _ & Hstep).
    rewrite Hx in Hx'. rewrite Hy in Hy'.
    injection Hx' as <-. injection Hy' as <-.
    change (key x) with x.1 in Hstep. change (key y) with y.1 in Hstep.
    destruct (Z.leb_spec x.1 y.1); [|lia].
    destruct Hstep as (-> & -> & ->). split; [|done].
    apply list_lookup_insert_eq. lia.
  - intros S fuel Hne Hrep Hbelow Hfuel.
    assert (1 ≤ length S)%nat as Hlen by (destruct S; [done | simpl; lia]).
    destruct PTRDIFF_MAX_lt as (? & ? & ? & ?).
    assert (wrap (size S - 1) = Z.of_nat (length S) - 1) as ->.
    { unfold size, representable in *. rewrite !wrap_small; try lia.
      rewrite wrap_small; lia. }
    pose proof (merge_sort_spec (H:=tagged_elem) [] (tag_from 0 S) []
                  0 (Z.of_nat (length S) - 1) fuel) as Hspec.
    simpl in Hspec. rewrite app_nil_r, tag_from_length in Hspec.
    destruct Hspec as (A' & HA' & Hsorted & Hperm & Hfilter);
      try done; try lia.
    { unfold representable. by rewrite tag_from_length. }
    { by apply tag_from_below. }
    rewrite app_nil_r in HA'. exists A'. split; [done|]. split; [|split].
    + rewrite <- (tag_from_erase 0 S) at 1.
      by rewrite merge_sort_erase, HA'.
    + done.
    + intros i j a b Hij Ha Hb Hab.
      destruct (lookup_two_split A' i j a b Hij Ha Hb)
        as (l1 & l2 & l3 & ->).
      specialize (Hfilter a.1).
      rewrite filter_app, filter_cons_True, filter_app, filter_cons_True
        in Hfilter by done.
      apply (StronglySorted_before tag_lt (filter (has_key a.1) l1) a
               (filter (has_key a.1) l2) b (filter (has_key a.1) l3)).
      rewrite Hfilter.
      apply StronglySorted_filter, tag_from_sorted.
Qed.

Lemma merge_sort_stable_witness :
  let S := [2; 1; 2; 1] in
  (S ≠ [] ∧ representable S ∧ Forall (λ x, x < INT_MAX) S ∧
   (length S + 1 < 6)%nat) ∧
  ∃ A', merge_sort 6 (tag_from 0 S) 0 (wrap (size S - 1)) = Ok A' ∧
        merge_sort 6 S 0 (wrap (size S - 1)) = Ok (erase A') ∧
        A' ≡ₚ tag_from 0 S ∧
        ∀ i j a b, (i < j)%nat → A' !! i = Some a → A' !! j = Some b →
                   a.1 = b.1 → (a.2 < b.2)%nat.
Proof.
  intros S.
  assert (S ≠ []) as H1 by done.
  assert (representable S) as H2 by (vm_compute; discriminate).
  assert (Forall (λ x, x < INT_MAX) S) as H3
    by (apply (bool_decide_unpack _); vm_compute; reflexivity).
  assert (length S + 1 < 6)%nat as H4 by (simpl; lia).
  split; [done|]. exact (proj2 merge_sort_stable S 6%nat H1 H2 H3 H4).
Defined.

Example merge_sort_stable_run :
  merge_sort 6 (tag_from 0 [2; 1; 2; 1]) 0 3
  = Ok [(1, 1%nat); (1, 3%nat); (2, 0%nat); (2, 2%nat)].
Proof. vm_compute. reflexivity. Qed.

(** C5 as stated fails: stability is not a consequence of the tie rule
    alone.  On [INT_MAX, 2, INT_MAX, 1] the sort returns, but in the last
    merge the sentinel of the left buffer ties with the [INT_MAX] that
    came from position 2 and is written in its place: the run on the
    elements paired with their positions leaves [(INT_MAX, 0)] at the
    indices 2 and 3, the element of position 2 is not in the output, and
    the two equal keys do not come in the order of their positions.  On
    [0, 0, INT_MAX, INT_MAX] the sort has no output: the scan reads the
    left buffer behind its sentinel. *)
Lemma merge_sort_stable_fails :
  let S := [INT_MAX; 2; INT_MAX; 1] in
  let A' := [(1, 3%nat); (2, 1%nat); (INT_MAX, 0%nat); (INT_MAX, 0%nat)] in
  merge_sort 6 S 0 (wrap (size S - 1)) = Ok (erase A') ∧
  merge_sort 6 (tag_from 0 S) 0 (wrap (size S - 1)) = Ok A' ∧
  (∀ fuel B, merge_sort fuel (tag_from 0 S) 0 (wrap (size S - 1)) = Ok B →
             B = A') ∧
  (INT_MAX, 2%nat) ∈ tag_from 0 S ∧ ((INT_MAX, 2%nat) ∉ A') ∧
  ¬ (A' ≡ₚ tag_from 0 S) ∧
  ¬ (∀ i j a b, (i < j)%nat → A' !! i = Some a → A' !! j = Some b →
                a.1 = b.1 → (a.2 < b.2)%nat) ∧
  merge_sort 100 (tag_from 0 [0; 0; INT_MAX; INT_MAX]) 0
    (wrap (size [0; 0; INT_MAX; INT_MAX] - 1)) = OutOfBounds ∧
  ¬ (∀ (S : list Z) (fuel : nat), (length S + 1 < fuel)%nat →
       ∃ B, merge_sort fuel (tag_from 0 S) 0 (wrap (size S - 1)) = Ok B ∧
            B ≡ₚ tag_from 0 S ∧
            ∀ i j a b, (i < j)%nat → B !! i = Some a → B !! j = Some b →
                       a.1 = b.1 → (a.2 < b.2)%nat).
Proof.
  intros S A'.
  assert (merge_sort 6 (tag_from 0 S) 0 (wrap (size S - 1)) = Ok A')
    as Hrun by (vm_compute; reflexivity).
  assert (∀ fuel B,
            merge_sort fuel (tag_from 0 S) 0 (wrap (size S - 1)) = Ok B →
            B = A') as Hall.
  { intros fuel B.
    apply (fuel_mono_Ok
             (λ fuel, merge_sort fuel (tag_from 0 S) 0 (wrap (size S - 1)))
             6); [apply merge_sort_mono | exact Hrun]. }
  assert ((INT_MAX, 2%nat) ∈ tag_from 0 S) as Hin.
  { apply list_elem_of_lookup. by exists 2%nat. }
  assert ((INT_MAX, 2%nat) ∉ A') as Hout.
  { unfold A'. rewrite !not_elem_of_cons.
    repeat split;
      try (intros E; apply (f_equal snd) in E; discriminate E).
    apply not_elem_of_nil. }
  assert (¬ (∀ i j a b, (i < j)%nat → A' !! i = Some a → A' !! j = Some b →
                        a.1 = b.1 → (a.2 < b.2)%nat)) as Horder.
  { intros Hord.
    specialize (Hord 2%nat 3%nat (INT_MAX, 0%nat) (INT_MAX, 0%nat)
                  ltac:(lia) eq_refl eq_refl eq_refl).
    simpl in Hord. lia. }
  split; [vm_compute; reflexivity|]. split; [exact Hrun|].
  split; [exact Hall|]. split; [exact Hin|]. split; [exact Hout|].
  split; [intros Hperm; apply Hout; by rewrite Hperm|].
  split; [exact Horder|]. split; [vm_compute; reflexivity|].
  intros Hstable.
  destruct (Hstable S 6%nat ltac:(simpl; lia)) as (B & HB & _ & Hord).
  apply Hall in HB as ->. by apply Horder.
Qed.



(** C7.  When [merge(A, p, q, r)], [merge_lazy(A, p, q, r)],
    [merge_sort(A, p, r)] or [merge_sort_lazy(A, p, r)] has returned, the
    vector has the length it had and, at every index outside [p..r], the
    element it had. *)
Theorem sort_frame (A A' : list Z) (p q r : Z) (fuel : nat) :
  representable A → 0 ≤ p ≤ SIZE_MAX → 0 ≤ r ≤ SIZE_MAX →
  merge fuel A p q r = Ok A' ∨ merge_lazy fuel A p q r = Ok A' ∨
  merge_sort fuel A p r = Ok A' ∨ merge_sort_lazy fuel A p r = Ok A' →
  length A' = length A ∧
  ∀ i : nat, Z.of_nat i < p ∨ r < Z.of_nat i → A' !! i = A !! i.
Proof.
  intros Hrep Hp Hr [Hrun|[Hrun|[Hrun|Hrun]]].
  - by eapply merge_frame.
  - by eapply merge_lazy_frame.
  - by eapply merge_sort_frame.
  - by eapply merge_sort_lazy_frame.
Qed.

Lemma sort_frame_witness :
  let A := [9; 31; 41; 59; 26; 42; 58; 7] in
  let A' := [9; 26; 31; 41; 42; 58; 59; 7] in
  (representable A ∧ 0 ≤ 1 ≤ SIZE_MAX ∧ 0 ≤ 6 ≤ SIZE_MAX ∧
   (merge 9 A 1 3 6 = Ok A' ∨ merge_lazy 9 A 1 3 6 = Ok A' ∨
    merge_sort 9 A 1 6 = Ok A' ∨ merge_sort_lazy 9 A 1 6 = Ok A')) ∧
  length A' = length A ∧
  ∀ i : nat, Z.of_nat i < 1 ∨ 6 < Z.of_nat i → A' !! i = A !! i.
Proof.
  intros A A'.
  assert (representable A) as H1 by (vm_compute; discriminate).
  assert (0 ≤ 1 ≤ SIZE_MAX) as H2 by (split; vm_compute; discriminate).
  assert (0 ≤ 6 ≤ SIZE_MAX) as H3 by (split; vm_compute; discriminate).
  assert (merge 9 A 1 3 6 = Ok A' ∨ merge_lazy 9 A 1 3 6 = Ok A' ∨
          merge_sort 9 A 1 6 = Ok A' ∨ merge_sort_lazy 9 A 1 6 = Ok A')
    as H4 by (right; right; left; vm_compute; reflexivity).
  split; [done|]. exact (sort_frame A A' 1 3 6 9 H1 H2 H3 H4).
Defined.

(** C8 (amended).  For every vector [A] of [int] and range
    [p..r] of its indices whose elements are all less than [INT_MAX]:
    for every [q] with [p <= q <= r] such that [A[p..q]] and [A[q+1..r]]
    are sorted, [merge(A, p, q, r)] and [merge_lazy(A, p, q, r)] return
    with the same vector; and [merge_sort(A, p, r)] and
    [merge_sort_lazy(A, p, r)] return with the same vector. *)
Theorem merge_variants_agree (A : list Z) (p q r : Z) (fuel : nat) :
  0 ≤ p ≤ r → r < Z.of_nat (length A) → representable A →
  Forall (λ x, x < INT_MAX) (sub A p r) →
  (Z.to_nat (r - p + 1) + 1 < fuel)%nat →
  (p ≤ q ≤ r →
   StronglySorted Z.le (sub A p q) →
   StronglySorted Z.le (sub A (q + 1) r) →
   ∃ A', merge fuel A p q r = Ok A' ∧ merge_lazy fuel A p q r = Ok A') ∧
  (∃ A', merge_sort fuel A p r = Ok A' ∧ merge_sort_lazy fuel A p r = Ok A').
Proof.
  intros Hpr Hr Hrep Hbelow Hfuel. split.
  - intros Hq _ _.
    destruct (split_at_ranges A p q r)
      as (pre & l1 & l2 & post & EA & Hp & Hq' & Hr' & _ & _ & E12);
      try lia.
    rewrite <- E12 in Hbelow. clear E12. subst A.
    apply Forall_app in Hbelow as [Hb1 Hb2].
    exists (pre ++ merge_ranges l1 l2 ++ post). split.
    + apply (merge_spec (H:=int_elem)); try done; lia.
    + apply (merge_lazy_spec (H:=int_elem)); try done; lia.
  - destruct (split_at_range A p r)
      as (pre & mid & post & EA & Hp & Hr' & Hmid); try lia.
    rewrite <- Hmid in Hbelow. clear Hmid. subst A.
    rewrite (merge_sort_lazy_eq (H:=int_elem) pre mid post p r fuel);
      try done; try lia.
    destruct (merge_sort_spec (H:=int_elem) pre mid post p r fuel)
      as (mid' & -> & _); try done; try lia. eauto.
Qed.

Lemma merge_variants_agree_witness :
  let A := [1; 3; 5; 2; 4; 6; 8] in
  (0 ≤ 0 ≤ 6 ∧ 6 < Z.of_nat (length A) ∧ representable A ∧
   Forall (λ x, x < INT_MAX) (sub A 0 6) ∧
   (Z.to_nat (6 - 0 + 1) + 1 < 9)%nat ∧
   0 ≤ 2 ≤ 6 ∧ StronglySorted Z.le (sub A 0 2) ∧
   StronglySorted Z.le (sub A (2 + 1) 6)) ∧
  (∃ A', merge 9 A 0 2 6 = Ok A' ∧ merge_lazy 9 A 0 2 6 = Ok A') ∧
  (∃ A', merge_sort 9 A 0 6 = Ok A' ∧ merge_sort_lazy 9 A 0 6 = Ok A').
Proof.
  intros A.
  assert (0 ≤ 0 ≤ 6) as H1 by lia.
  assert (6 < Z.of_nat (length A)) as H2 by (simpl; lia).
  assert (representable A) as H3 by (vm_compute; discriminate).
  assert (Forall (λ x, x < INT_MAX) (sub A 0 6)) as H4
    by (apply (bool_decide_unpack _); vm_compute; reflexivity).
  assert (Z.to_nat (6 - 0 + 1) + 1 < 9)%nat as H5 by (simpl; lia).
  assert (0 ≤ 2 ≤ 6) as H6 by lia.
  assert (StronglySorted Z.le (sub A 0 2)) as H7
    by (vm_compute; repeat constructor; discriminate).
  assert (StronglySorted Z.le (sub A (2 + 1) 6)) as H8
    by (vm_compute; repeat constructor; discriminate).
  split; [done|].
  destruct (merge_variants_agree A 0 2 6 9 H1 H2 H3 H4 H5) as [Hm Hs].
  exact (conj (Hm H6 H7 H8) Hs).
Defined.

(** C8 as stated fails: on [0, 0, INT_MAX, INT_MAX] with sorted halves
    [merge_lazy] returns and [merge] reads past the sentinel of its left
    buffer, and so for the two sorts. *)
Lemma merge_variants_agree_fails :
  let A := [0; 0; INT_MAX; INT_MAX] in
  (StronglySorted Z.le (sub A 0 1) ∧ StronglySorted Z.le (sub A (1 + 1) 3)) ∧
  merge 100 A 0 1 3 = OutOfBounds ∧
  merge_lazy 100 A 0 1 3 = Ok A ∧
  merge_sort 100 A 0 3 = OutOfBounds ∧
  merge_sort_lazy 100 A 0 3 = Ok A ∧
  (∀ fuel A', merge fuel A 0 1 3 ≠ Ok A') ∧
  (∀ fuel A', merge_sort fuel A 0 3 ≠ Ok A').
Proof.
  intros A.
  assert (merge 100 A 0 1 3 = OutOfBounds) as Hm
    by (vm_compute; reflexivity).
  assert (merge_sort 100 A 0 3 = OutOfBounds) as Hs
    by (vm_compute; reflexivity).
  split.
  { split; vm_compute; repeat constructor; discriminate. }
  split; [exact Hm|]. split; [vm_compute; reflexivity|].
  split; [exact Hs|]. split; [vm_compute; reflexivity|]. split.
  - apply (fuel_mono_OutOfBounds (λ fuel, merge fuel A 0 1 3) 100);
      [apply merge_mono | exact Hm].
  - apply (fuel_mono_OutOfBounds (λ fuel, merge_sort fuel A 0 3) 100);
      [apply merge_sort_mono | exact Hs].
Qed.



(** C10.  For every call [merge(A, p, q, r)] with
    [p <= q <= r < A.size()] in which every element of [A[p..r]] is less
    than [INT_MAX], in every state the scan passes through the cursor [i]
    is at most [n1 = q - p + 1] and [j] at most [n2 = r - q], [L[i]] and
    [R[j]] are elements of the scratch buffers, and every value written
    into [A] so far is less than [INT_MAX]; the scan ends in such a
    state. *)
Theorem merge_scan_in_bounds (A : list Z) (p q r : Z) (fuel : nat) :
  0 ≤ p ≤ q → q ≤ r < Z.of_nat (length A) → representable A →
  Forall (λ x, x < INT_MAX) (sub A p r) →
  (Z.to_nat (r - p + 1) < fuel)%nat →
  ∃ L R,
    scratch fuel A p q r = Ok (L, R) ∧
    Z.of_nat (length L) = (q - p + 1) + 1 ∧
    Z.of_nat (length R) = (r - q) + 1 ∧
    (∀ s, reaches (λ s, ck s <=? r) (scan_step L R) (ScanState A 0 0 p 0) s →
          0 ≤ ci s ≤ q - p + 1 ∧ 0 ≤ cj s ≤ r - q ∧
          (∃ x y, vget L (ci s) = Ok x ∧ vget R (cj s) = Ok y) ∧
          Forall (λ x, x < INT_MAX) (range (arr s) p (ck s))) ∧
    ∃ s_end, merge_run fuel A p q r = Ok s_end ∧
             reaches (λ s, ck s <=? r) (scan_step L R)
               (ScanState A 0 0 p 0) s_end.
Proof.
  intros Hpq Hqr Hrep Hbelow Hfuel.
  destruct (split_at_ranges A p q r)
    as (pre & l1 & l2 & post & EA & Hp & Hq & Hr & _ & _ & E12); try lia.
  rewrite <- E12 in Hbelow. clear E12. subst A.
  apply Forall_app in Hbelow as [Hb1 Hb2].
  exists (l1 ++ [sentinel]), (l2 ++ [sentinel]).
  assert (scratch fuel (pre ++ l1 ++ l2 ++ post) p q r
          = Ok (l1 ++ [sentinel], l2 ++ [sentinel])) as Hscratch.
  { apply scratch_spec; try done; try lia. }
  split; [exact Hscratch|].
  rewrite !length_app. cbn [length]. split; [lia|]. split; [lia|]. split.
  - intros s Hs.
    destruct (merge_scan_safe (H:=int_elem) pre l1 l2 post p q r Hp Hq Hr
                Hrep Hb1 Hb2 s Hs) as ((? & ? & ? & ?) & ? & ?).
    split_and!; try done; lia.
  - pose proof (merge_run_spec (H:=int_elem) pre l1 l2 post p q r Hp Hq Hr
                  ltac:(lia) Hrep Hb1 Hb2 fuel ltac:(lia)) as Hrun.
    eexists. split; [exact Hrun|].
    unfold merge_run in Hrun. rewrite Hscratch in Hrun.
    by apply for_loop_reaches in Hrun as [? _].
Qed.

Lemma merge_scan_in_bounds_witness :
  let A := [1; 3; 5; 2; 4; 6; 8] in
  (0 ≤ 0 ≤ 2 ∧ 2 ≤ 6 < Z.of_nat (length A) ∧ representable A ∧
   Forall (λ x, x < INT_MAX) (sub A 0 6) ∧
   (Z.to_nat (6 - 0 + 1) < 8)%nat) ∧
  ∃ L R,
    scratch 8 A 0 2 6 = Ok (L, R) ∧
    Z.of_nat (length L) = (2 - 0 + 1) + 1 ∧
    Z.of_nat (length R) = (6 - 2) + 1 ∧
    (∀ s, reaches (λ s, ck s <=? 6) (scan_step L R) (ScanState A 0 0 0 0) s →
          0 ≤ ci s ≤ 2 - 0 + 1 ∧ 0 ≤ cj s ≤ 6 - 2 ∧
          (∃ x y, vget L (ci s) = Ok x ∧ vget R (cj s) = Ok y) ∧
          Forall (λ x, x < INT_MAX) (range (arr s) 0 (ck s))) ∧
    ∃ s_end, merge_run 8 A 0 2 6 = Ok s_end ∧
             reaches (λ s, ck s <=? 6) (scan_step L R)
               (ScanState A 0 0 0 0) s_end.
Proof.
  intros A.
  assert (0 ≤ 0 ≤ 2) as H1 by lia.
  assert (2 ≤ 6 < Z.of_nat (length A)) as H2 by (simpl; lia).
  assert (representable A) as H3 by (vm_compute; discriminate).
  assert (Forall (λ x, x < INT_MAX) (sub A 0 6)) as H4
    by (apply (bool_decide_unpack _); vm_compute; reflexivity).
  assert (Z.to_nat (6 - 0 + 1) < 8)%nat as H5 by (simpl; lia).
  split; [done|]. exact (merge_scan_in_bounds A 0 2 6 8 H1 H2 H3 H4 H5).
Defined.

(** * Further properties of the code *)

(** ** The sentinel of [merge], exactly

    The scan of [merge] needs less than all elements below the sentinel:
    the left half may hold anything up to the sentinel, and the last
    element of the right half may be the sentinel itself.  In that last
    case the scan ends by writing the sentinel of the left buffer in
    place of it. *)

Section scan_last_facts.
Context {T : Type} `{Elem T}.
Variables (pre l1 l2 post : list T) (p r : Z).
Hypothesis Hp : p = Z.of_nat (length pre).
Hypothesis Hr : r + 1 = p + Z.of_nat (length l1) + Z.of_nat (length l2).
Hypothesis Hmax : r < SIZE_MAX.
Hypothesis Hb1 : Forall (λ x, key x ≤ key sentinel) l1.
Hypothesis Hb2 : ∀ c y t,
  l2 = c ++ y :: t → below_sentinel y ∨ (y = sentinel ∧ t = []).

Local Abbreviation L := (l1 ++ [sentinel]).
Local Abbreviation R := (l2 ++ [sentinel]).
Local Abbreviation inv := (λ s,
  scan_inv pre l1 l2 post p s ∨
  (arr s = pre ++ merge_ranges l1 l2 ++ post ∧ ck s = r + 1 ∧
   writes s = (length l1 + length l2)%nat)).

Lemma scan_step_last s :
  inv s → (ck s <=? r) = true →
  ∃ s', scan_step L R s = Ok s' ∧ inv s' ∧
        (remaining r s' < remaining r s)%nat.
Proof.
  intros [Hinv|(_ & Hk & _)] Hc; apply Z.leb_le in Hc; [|lia].
  destruct Hinv as [c1 t1 c2 t2 out junk E1 E2 Hi Hj Hk Hout Hw Harr Hjunk Hm].
  assert (length l1 = length c1 + length t1)%nat as Hl1
    by (by rewrite E1, length_app).
  assert (length l2 = length c2 + length t2)%nat as Hl2
    by (by rewrite E2, length_app).
  assert (SIZE_MAX + 1 = SIZE_MOD) as HS by done.
  destruct junk as [|z junk]; [simpl in *; lia|].
  assert (∀ x, vset (arr s) (ck s) x
               = Ok (pre ++ (out ++ [x]) ++ junk ++ post)) as Hset.
  { intros x. rewrite Harr.
    replace (pre ++ out ++ (z :: junk) ++ post)
      with ((pre ++ out) ++ z :: (junk ++ post))
      by (by rewrite <- !app_assoc).
    rewrite (vset_middle _ _ x z) by (rewrite length_app; lia).
    by rewrite <- !app_assoc. }
  assert (wrap (ck s + 1) = p + Z.of_nat (S (length out))) as Hk'
    by (rewrite wrap_small; lia).
  assert (L = c1 ++ t1 ++ [sentinel]) as HL
    by (by rewrite E1, <- app_assoc).
  assert (R = c2 ++ t2 ++ [sentinel]) as HR
    by (by rewrite E2, <- app_assoc).
  assert (Forall (λ x, key x ≤ key sentinel) t1) as Ht1
    by (rewrite E1 in Hb1; by apply Forall_app in Hb1 as [_ ?]).
  unfold scan_step, remaining. rewrite HL, HR.
  destruct t1 as [|x t1], t2 as [|y t2]; simpl in Hjunk; [lia|..];
    cbn [app].
  - (* the left buffer is exhausted *)
    rewrite (vget_middle c1 _ sentinel), (vget_middle c2 _ y) by done.
    cbn [mbind result_bind].
    destruct (Hb2 c2 y t2 E2) as [Hy|[-> ->]].
    + unfold below_sentinel in Hy.
      destruct (Z.leb_spec (key sentinel) (key y)); [lia|].
      rewrite Hset. eexists; split; [done|]. split; [|simpl; lia]. left.
      apply (ScanInv pre l1 l2 post p _ c1 [] (c2 ++ [y]) t2 (out ++ [y])
               junk);
        rewrite ?length_app; cbn [arr ci cj ck writes length];
        try done; try lia.
      * by rewrite E2, <- app_assoc.
      * rewrite wrap_small; lia.
      * rewrite <- Hm, !merge_ranges_nil_l. by rewrite <- app_assoc.
    + (* the last element is the sentinel: the left one is written *)
      destruct (Z.leb_spec (key (sentinel : T)) (key (sentinel : T)));
        [|lia].
      rewrite Hset. eexists; split; [done|]. split; [|simpl; lia]. right.
      cbn [arr ci cj ck writes]. simpl in Hjunk.
      destruct junk; [|done].
      rewrite <- Hm, merge_ranges_nil_l. simpl in *.
      split; [by rewrite <- app_assoc|]. split; [|lia].
      rewrite wrap_small; lia.
  - (* the right buffer is exhausted *)
    rewrite (vget_middle c1 _ x), (vget_middle c2 _ sentinel) by done.
    cbn [mbind result_bind].
    apply Forall_cons in Ht1 as [Hx _].
    destruct (Z.leb_spec (key x) (key sentinel)); [|lia].
    rewrite Hset. eexists; split; [done|]. split; [|simpl; lia]. left.
    apply (ScanInv pre l1 l2 post p _ (c1 ++ [x]) t1 c2 [] (out ++ [x]) junk);
      rewrite ?length_app; cbn [arr ci cj ck writes length];
      try done; try lia.
    + by rewrite E1, <- app_assoc.
    + rewrite wrap_small; lia.
    + rewrite <- Hm, !merge_ranges_nil_r. by rewrite <- app_assoc.
  - rewrite (vget_middle c1 _ x), (vget_middle c2 _ y) by done.
    cbn [mbind result_bind]. rewrite merge_ranges_cons in Hm.
    destruct (Z.leb_spec (key x) (key y)).
    + destruct (Z.ltb_spec (key y) (key x)); [lia|].
      rewrite Hset. eexists; split; [done|]. split; [|simpl; lia]. left.
      apply (ScanInv pre l1 l2 post p _ (c1 ++ [x]) t1 c2 (y :: t2)
               (out ++ [x]) junk);
        rewrite ?length_app; cbn [arr ci cj ck writes length];
        try done; try lia.
      * by rewrite E1, <- app_assoc.
      * rewrite wrap_small; lia.
      * rewrite <- Hm. by rewrite <- app_assoc.
    + destruct (Z.ltb_spec (key y) (key x)); [|lia].
      rewrite Hset. eexists; split; [done|]. split; [|simpl; lia]. left.
      apply (ScanInv pre l1 l2 post p _ c1 (x :: t1) (c2 ++ [y]) t2
               (out ++ [y]) junk);
        rewrite ?length_app; cbn [arr ci cj ck writes length];
        try done; try lia.
      * by rewrite E2, <- app_assoc.
      * rewrite wrap_small; lia.
      * rewrite <- Hm. by rewrite <- app_assoc.
Qed.

(** The scan runs to its end, makes one write for each index of the
    range and leaves the merged range. *)
Lemma scan_last_spec fuel junk :
  length junk = (length l1 + length l2)%nat →
  (length l1 + length l2 < fuel)%nat →
  ∃ s', scan fuel L R r (ScanState (pre ++ junk ++ post) 0 0 p 0) = Ok s' ∧
        arr s' = pre ++ merge_ranges l1 l2 ++ post ∧ ck s' = r + 1 ∧
        writes s' = (length l1 + length l2)%nat.
Proof.
  intros Hj Hfuel. unfold scan.
  destruct (for_loop_total (λ s, ck s <=? r) (scan_step L R)
              inv (remaining r) scan_step_last fuel
              (ScanState (pre ++ junk ++ post) 0 0 p 0))
    as (s' & -> & Hinv & Hc).
  { left. by apply scan_inv_start. }
  { unfold remaining. simpl. lia. }
  exists s'. split; [done|]. apply Z.leb_gt in Hc.
  destruct Hinv as [Hinv|?]; [|done].
  destruct Hinv as [c1 t1 c2 t2 out junk' E1 E2 Hi Hj' Hk Hout Hw Harr
                      Hjunk Hm].
  assert (length l1 = length c1 + length t1)%nat as Hl1
    by (by rewrite E1, length_app).
  assert (length l2 = length c2 + length t2)%nat as Hl2
    by (by rewrite E2, length_app).
  destruct t1; [|simpl in *; lia]. destruct t2; [|simpl in *; lia].
  destruct junk'; [|simpl in *; lia].
  simpl in Hm. rewrite app_nil_r in Hm. rewrite Hm in Harr.
  simpl in *. split; [done|]. lia.
Qed.
End scan_last_facts.

Section merge_last_facts.
Context {T : Type} `{Elem T}.
Variables (pre l1 l2 post : list T) (p q r : Z).
Hypothesis Hp : p = Z.of_nat (length pre).
Hypothesis Hq : q + 1 = p + Z.of_nat (length l1).
Hypothesis Hr : r = q + Z.of_nat (length l2).
Hypothesis Hpq : p ≤ q.
Hypothesis Hrep : representable (pre ++ l1 ++ l2 ++ post).
Hypothesis Hb1 : Forall (λ x, key x ≤ key sentinel) l1.
Hypothesis Hb2 : ∀ c y t,
  l2 = c ++ y :: t → below_sentinel y ∨ (y = sentinel ∧ t = []).

Lemma merge_last_spec fuel :
  (length l1 + length l2 < fuel)%nat →
  ∃ s', merge_run fuel (pre ++ l1 ++ l2 ++ post) p q r = Ok s' ∧
        arr s' = pre ++ merge_ranges l1 l2 ++ post ∧
        writes s' = (length l1 + length l2)%nat.
Proof.
  intros Hfuel. unfold merge_run.
  destruct (merge_facts_bounds pre l1 l2 post Hrep) as (Hlen & ? & ?).
  rewrite (scratch_spec pre l1 l2 post p q r) by (done || lia).
  cbn [mbind result_bind fst snd].
  replace (pre ++ l1 ++ l2 ++ post) with (pre ++ (l1 ++ l2) ++ post)
    by (by rewrite <- !app_assoc).
  destruct (scan_last_spec pre l1 l2 post p r) with (fuel := fuel)
    (junk := l1 ++ l2) as (s' & Hs' & Harr & _ & Hw);
    try done; try lia; [by rewrite length_app|].
  eauto.
Qed.
End merge_last_facts.

(** The recursion over a merge whose contract asks for sorted halves. *)

Section sort_sorted_facts.
Context {T : Type} `{Elem T}.
Variable msort : nat → list T → Z → Z → result (list T).
Variable mrg : nat → list T → Z → Z → Z → result (list T).
Variable good : list T → Prop.

Hypothesis msort_0 : ∀ A p r, msort 0 A p r = OutOfFuel.
Hypothesis msort_S : ∀ fuel A p r,
  msort (S fuel) A p r =
  if p <? r then
    let q := wrap (p + r) / 2 in
    A ← msort fuel A p q;
    A ← msort fuel A (wrap (q + 1)) r;
    mrg fuel A p q r
  else Ok A.
Hypothesis good_perm : ∀ l l', l' ≡ₚ l → good l → good l'.
Hypothesis good_app : ∀ l1 l2, good (l1 ++ l2) → good l1 ∧ good l2.
Hypothesis mrg_spec : ∀ pre l1 l2 post p q r fuel,
  p = Z.of_nat (length pre) → q + 1 = p + Z.of_nat (length l1) →
  r = q + Z.of_nat (length l2) → p ≤ q →
  representable (pre ++ l1 ++ l2 ++ post) →
  good l1 → good l2 → sorted l1 → sorted l2 →
  (length l1 + length l2 < fuel)%nat →
  mrg fuel (pre ++ l1 ++ l2 ++ post) p q r
  = Ok (pre ++ merge_ranges l1 l2 ++ post).

Lemma msort_sorted_spec pre mid post p r fuel :
  p = Z.of_nat (length pre) → r + 1 = p + Z.of_nat (length mid) →
  (1 ≤ length mid)%nat →
  representable (pre ++ mid ++ post) → good mid →
  (length mid + 1 < fuel)%nat →
  ∃ mid', msort fuel (pre ++ mid ++ post) p r = Ok (pre ++ mid' ++ post)
          ∧ stable_sort_of mid mid'.
Proof.
  remember (length mid) as n eqn:Hn.
  revert pre mid post p r fuel Hn.
  induction (lt_wf n) as [n _ IH].
  intros pre mid post p r fuel -> Hp Hr Hne Hrep Hgood Hfuel.
  destruct fuel as [|fuel]; [lia|]. rewrite msort_S.
  assert (Z.of_nat (length pre) + Z.of_nat (length mid)
          + Z.of_nat (length post) ≤ PTRDIFF_MAX) as Hlen.
  { unfold representable in Hrep.
    rewrite !length_app, !Nat2Z.inj_add in Hrep. lia. }
  destruct PTRDIFF_MAX_lt as (? & ? & ? & ?).
  destruct (Z.ltb_spec p r) as [Hlt|Hge].
  2:{ exists mid. split; [done|]. apply stable_sort_of_short. lia. }
  cbn zeta. rewrite (wrap_small (p + r)) by lia.
  set (q := (p + r) / 2).
  assert (p ≤ q < r) as Hq by (by apply midpoint).
  rewrite (wrap_small (q + 1)) by lia.
  set (n1 := Z.to_nat (q - p + 1)).
  assert (∃ m1 m2, mid = m1 ++ m2 ∧ length m1 = n1)
    as (m1 & m2 & -> & Hm1).
  { exists (take n1 mid), (drop n1 mid).
    rewrite take_drop, length_take. split; [done | lia]. }
  assert (Z.of_nat (length m2) = r - q) as Hm2.
  { rewrite length_app in Hr. lia. }
  apply good_app in Hgood as [Hg1 Hg2].
  rewrite length_app in *.
  destruct (IH (length m1) ltac:(lia) pre m1 (m2 ++ post) p q fuel)
    as (m1' & E1 & Hs1); try done; try lia.
  { by rewrite <- app_assoc in Hrep. }
  rewrite <- app_assoc, E1. cbn [mbind result_bind].
  assert (length m1' = length m1) as Hm1'
    by (destruct Hs1 as (_ & -> & _); done).
  destruct (IH (length m2) ltac:(lia) (pre ++ m1') m2 post (q + 1) r fuel)
    as (m2' & E2 & Hs2); try done; try (rewrite ?length_app; lia).
  { unfold representable in *. rewrite !length_app in *. lia. }
  rewrite <- app_assoc in E2. rewrite E2. cbn [mbind result_bind].
  assert (length m2' = length m2) as Hm2'
    by (destruct Hs2 as (_ & -> & _); done).
  rewrite <- app_assoc.
  rewrite mrg_spec; try done; try lia.
  - eexists; split; [done|]. by apply stable_sort_of_merge.
  - unfold representable in *. rewrite !length_app in *. lia.
  - destruct Hs1 as (_ & ? & _). by eapply good_perm.
  - destruct Hs2 as (_ & ? & _). by eapply good_perm.
  - by destruct Hs1.
  - by destruct Hs2.
Qed.
End sort_sorted_facts.

(** ** [int] vectors that hold [INT_MAX] *)

Section int_max_facts.
Implicit Types l : list Z.

(** In a sorted list of [int] with at most one [INT_MAX], it is the
    last element. *)
Lemma sorted_one_max_last l c y t :
  StronglySorted Z.le l → Forall (λ x, x ≤ INT_MAX) l →
  (length (filter (λ x, x = INT_MAX) l) ≤ 1)%nat →
  l = c ++ y :: t → y < INT_MAX ∨ (y = INT_MAX ∧ t = []).
Proof.
  intros Hs Hall Hone ->.
  apply Forall_app in Hall as [_ Hall].
  apply Forall_cons in Hall as [Hy Hall].
  destruct (decide (y = INT_MAX)) as [->|Hne]; [right|left; lia].
  split; [done|]. destruct t as [|z t]; [done|]. exfalso.
  apply Forall_cons in Hall as [Hz _].
  assert (INT_MAX ≤ z) as Hle
    by (by apply (StronglySorted_before Z.le c INT_MAX [] z t)).
  assert (z = INT_MAX) as -> by lia.
  rewrite filter_app, !filter_cons_True, length_app in Hone by done.
  simpl in Hone. lia.
Qed.

(** All of a list but its last element. *)
Lemma but_last_below l c y t :
  Forall (λ x, x ≤ INT_MAX) l →
  Forall (λ x, x < INT_MAX) (take (length l - 1) l) →
  l = c ++ y :: t → y < INT_MAX ∨ (y = INT_MAX ∧ t = []).
Proof.
  intros Hall Hbut ->.
  apply Forall_app in Hall as [_ Hall].
  apply Forall_cons in Hall as [Hy _].
  destruct t as [|z t].
  - destruct (decide (y = INT_MAX)); [by right | left; lia].
  - left. eapply Forall_forall in Hbut; [exact Hbut|].
    rewrite length_app. simpl.
    rewrite take_app_ge by lia. apply elem_of_app. right.
    replace (length c + S (S (length t)) - 1 - length c)%nat
      with (S (length t)) by lia.
    simpl. left.
Qed.

Lemma merge_last_int pre l1 l2 post p q r fuel :
  p = Z.of_nat (length pre) → q + 1 = p + Z.of_nat (length l1) →
  r = q + Z.of_nat (length l2) → p ≤ q →
  representable (pre ++ l1 ++ l2 ++ post) →
  Forall (λ x, x ≤ INT_MAX) l1 →
  (∀ c y t, l2 = c ++ y :: t → y < INT_MAX ∨ (y = INT_MAX ∧ t = [])) →
  (length l1 + length l2 < fuel)%nat →
  ∃ s, merge_run fuel (pre ++ l1 ++ l2 ++ post) p q r = Ok s ∧
       arr s = pre ++ merge_ranges l1 l2 ++ post ∧
       writes s = (length l1 + length l2)%nat.
Proof.
  intros. by apply (merge_last_spec (H:=int_elem)).
Qed.

Lemma merge_sort_one_max_spec pre mid post p r fuel :
  p = Z.of_nat (length pre) → r + 1 = p + Z.of_nat (length mid) →
  (1 ≤ length mid)%nat →
  representable (pre ++ mid ++ post) →
  Forall (λ x, x ≤ INT_MAX) mid →
  (length (filter (λ x, x = INT_MAX) mid) ≤ 1)%nat →
  (length mid + 1 < fuel)%nat →
  ∃ mid', merge_sort fuel (pre ++ mid ++ post) p r
          = Ok (pre ++ mid' ++ post)
          ∧ stable_sort_of mid mid'.
Proof.
  intros Hp Hr Hne Hrep Hall Hone Hfuel.
  apply (msort_sorted_spec merge_sort merge
           (λ l, Forall (λ x, x ≤ INT_MAX) l
                 ∧ (length (filter (λ x, x = INT_MAX) l) ≤ 1)%nat));
    try done.
  - intros l l' Hperm [Hall' Hone']. split.
    + eapply Permutation_Forall; [symmetry; exact Hperm | done].
    + assert (filter (λ x, x = INT_MAX) l' ≡ₚ filter (λ x, x = INT_MAX) l)
        as Hf by (by apply filter_Permutation).
      by rewrite (Permutation_length Hf).
  - intros l1 l2 [[? ?]%Forall_app Hlen].
    rewrite filter_app, length_app in Hlen. split; split; (done || lia).
  - intros pre' l1 l2 post' p' q' r' fuel' ? ? ? ? ? [Ha1 _] [Ha2 Ho2]
      _ Hs2 ?.
    destruct (merge_last_int pre' l1 l2 post' p' q' r' fuel')
      as (s & Hrun & Harr & _); try done.
    { intros c y t. by apply sorted_one_max_last. }
    unfold merge. rewrite Hrun. cbn [mbind result_bind]. by rewrite Harr.
Qed.
End int_max_facts.

(** An outcome that is neither a result nor a lack of fuel. *)
Lemma result_OutOfBounds {X} (m : result X) :
  m ≠ OutOfFuel → (∀ x, m ≠ Ok x) → m = OutOfBounds.
Proof. destruct m as [x| |]; try done. intros _ Hx. by destruct (Hx x). Qed.

(** When an element of the right half other than its last is not below
    the sentinel, the sentinel of the left buffer is consumed before the
    scan is over and the next iteration reads behind it. *)

Section merge_fault_facts.
Context {T : Type} `{Elem T}.
Variables (pre l1 c t post : list T) (y : T) (p q r : Z).
Hypothesis Hp : p = Z.of_nat (length pre).
Hypothesis Hq : q + 1 = p + Z.of_nat (length l1).
Hypothesis Hr : r = q + Z.of_nat (length (c ++ y :: t)).
Hypothesis Hpq : p ≤ q.
Hypothesis Hrep : representable (pre ++ l1 ++ (c ++ y :: t) ++ post).
Hypothesis Hb1 : Forall (λ x, key x ≤ key sentinel) l1.
Hypothesis Hy : key sentinel ≤ key y.
Hypothesis Ht : t ≠ [].

Local Abbreviation l2 := (c ++ y :: t).
Local Abbreviation L := (l1 ++ [sentinel]).
Local Abbreviation R := (l2 ++ [sentinel]).

Lemma scan_fault_inv s s' :
  0 ≤ ci s ≤ Z.of_nat (length l1) + 1 ∧ 0 ≤ cj s ≤ Z.of_nat (length c)
  ∧ ck s = p + ci s + cj s →
  (ck s <=? r) = true → scan_step L R s = Ok s' →
  0 ≤ ci s' ≤ Z.of_nat (length l1) + 1 ∧ 0 ≤ cj s' ≤ Z.of_nat (length c)
  ∧ ck s' = p + ci s' + cj s'.
Proof.
  intros (Hi & Hj & Hk) Hc Hstep. apply Z.leb_le in Hc.
  destruct (merge_facts_bounds pre l1 l2 post Hrep) as (Hlen & ? & HS).
  rewrite length_app in Hr, Hlen. cbn [length] in Hr, Hlen.
  apply scan_step_Ok in Hstep
    as (x & y' & Hx & Hy' & _ & Hk' & _ & Hstep).
  apply vget_Ok in Hx as [_ Hx]. apply vget_Ok in Hy' as [_ Hy'].
  assert (ci s < Z.of_nat (length l1) + 1) as Hi'.
  { apply lookup_lt_Some in Hx. rewrite length_app in Hx. simpl in Hx. lia. }
  assert (key x ≤ key sentinel) as Hxs.
  { apply lookup_app_Some in Hx as [Hx|[_ Hx]].
    - apply list_elem_of_lookup_2 in Hx. by eapply Forall_forall in Hb1.
    - apply list_lookup_singleton_Some in Hx as [_ <-]. lia. }
  rewrite Hk', (wrap_small (ck s + 1)) by lia.
  destruct (Z.leb_spec (key x) (key y')) as [Hle|Hgt].
  - destruct Hstep as (_ & -> & ->). rewrite wrap_small by lia. lia.
  - destruct Hstep as (_ & -> & ->).
    assert (cj s ≠ Z.of_nat (length c)) as Hne.
    { intros E. rewrite E, Nat2Z.id, <- app_assoc in Hy'.
      cbn [app] in Hy'. rewrite list_lookup_middle in Hy' by done.
      injection Hy' as <-. lia. }
    rewrite wrap_small by lia. lia.
Qed.

Lemma merge_fault fuel :
  (length l1 + length l2 < fuel)%nat →
  merge fuel (pre ++ l1 ++ l2 ++ post) p q r = OutOfBounds.
Proof.
  intros Hfuel.
  destruct (merge_facts_bounds pre l1 l2 post Hrep) as (Hlen & ? & HS).
  pose proof Hr as Hr'. pose proof Hlen as Hlen'.
  rewrite length_app in Hr', Hlen'. cbn [length] in Hr', Hlen'.
  assert (1 ≤ length t)%nat as Hlt by (destruct t; [done | simpl; lia]).
  unfold merge, merge_run.
  rewrite (scratch_spec pre l1 l2 post p q r) by (done || lia).
  cbn [mbind result_bind fst snd].
  rewrite (result_OutOfBounds
             (scan fuel L R r (ScanState (pre ++ l1 ++ l2 ++ post) 0 0 p 0)));
    [done| |].
  - apply scan_halts; lia.
  - intros s' Hscan. unfold scan in Hscan.
    apply (for_loop_inv _ _
             (λ s, 0 ≤ ci s ≤ Z.of_nat (length l1) + 1
                   ∧ 0 ≤ cj s ≤ Z.of_nat (length c)
                   ∧ ck s = p + ci s + cj s)) in Hscan
      as [(Hi & Hj & Hk) Hc].
    + apply Z.leb_gt in Hc. lia.
    + apply scan_fault_inv.
    + simpl. lia.
Qed.
End merge_fault_facts.

Section int_merge_facts.
Implicit Types l : list Z.

(** A list of [int] has all its elements but the last below [INT_MAX],
    or one that is not. *)
Lemma but_last_cases l :
  Forall (λ x, x ≤ INT_MAX) l →
  (∀ c y t, l = c ++ y :: t → y < INT_MAX ∨ (y = INT_MAX ∧ t = [])) ∨
  (∃ c y t, l = c ++ y :: t ∧ INT_MAX ≤ y ∧ t ≠ []).
Proof.
  intros Hall.
  destruct (decide (Forall (λ x, x < INT_MAX) (take (length l - 1) l)))
    as [Hbut|Hbut].
  - left. intros c y t. by apply but_last_below.
  - right. apply not_Forall_Exists in Hbut; [|apply _].
    apply Exists_exists in Hbut as (y & Hin & Hy). simpl in Hy.
    apply list_elem_of_lookup_1 in Hin as [i Hi].
    apply lookup_take_Some in Hi as [Hi Hlt].
    exists (take i l), y, (drop (S i) l). split_and!.
    + by rewrite take_drop_middle.
    + lia.
    + intros E. apply (f_equal length) in E.
      rewrite length_drop in E. simpl in E. lia.
Qed.

(** Whenever [merge] returns on a vector of [int], it has merged. *)
Lemma merge_int_Ok pre l1 l2 post p q r fuel A' :
  p = Z.of_nat (length pre) → q + 1 = p + Z.of_nat (length l1) →
  r = q + Z.of_nat (length l2) → p ≤ q →
  representable (pre ++ l1 ++ l2 ++ post) →
  Forall (λ x, x ≤ INT_MAX) l1 → Forall (λ x, x ≤ INT_MAX) l2 →
  merge fuel (pre ++ l1 ++ l2 ++ post) p q r = Ok A' →
  A' = pre ++ merge_ranges l1 l2 ++ post.
Proof.
  intros Hp Hq Hr Hpq Hrep H1 H2 Hrun.
  set (big := S (length l1 + length l2 + fuel)).
  assert (merge big (pre ++ l1 ++ l2 ++ post) p q r = Ok A') as Hbig.
  { rewrite (merge_mono _ p q r fuel big); [done | lia | by rewrite Hrun]. }
  destruct (but_last_cases l2 H2) as [Hb2|(c & y & t & -> & Hy & Ht)].
  - destruct (merge_last_int pre l1 l2 post p q r big)
      as (s & Hs & Harr & _); try done; [lia|].
    unfold merge in Hbig. rewrite Hs in Hbig. simpl in Hbig.
    injection Hbig as <-. done.
  - rewrite (merge_fault (H:=int_elem) pre l1 c t post y p q r) in Hbig;
      try done. unfold big. lia.
Qed.

(** Whenever [merge_sort] returns on a vector of [int], it has sorted. *)
Lemma merge_sort_int_Ok pre mid post p r fuel A' :
  p = Z.of_nat (length pre) → r + 1 = p + Z.of_nat (length mid) →
  (1 ≤ length mid)%nat →
  representable (pre ++ mid ++ post) →
  Forall (λ x, x ≤ INT_MAX) mid →
  merge_sort fuel (pre ++ mid ++ post) p r = Ok A' →
  ∃ mid', A' = pre ++ mid' ++ post ∧ stable_sort_of mid mid'.
Proof.
  revert pre mid post p r A'.
  induction fuel as [|fuel IH];
    intros pre mid post p r A' Hp Hr Hne Hrep Hall; [done|].
  simpl.
  assert (Z.of_nat (length pre) + Z.of_nat (length mid)
          + Z.of_nat (length post) ≤ PTRDIFF_MAX) as Hlen.
  { unfold representable in Hrep.
    rewrite !length_app, !Nat2Z.inj_add in Hrep. lia. }
  destruct PTRDIFF_MAX_lt as (? & ? & ? & ?).
  destruct (Z.ltb_spec p r) as [Hlt|Hge].
  2:{ intros [= <-]. exists mid. split; [done|].
      apply stable_sort_of_short. lia. }
  rewrite (wrap_small (p + r)) by lia.
  set (q := (p + r) / 2).
  assert (p ≤ q < r) as Hq by (by apply midpoint).
  rewrite (wrap_small (q + 1)) by lia.
  set (n1 := Z.to_nat (q - p + 1)).
  assert (∃ m1 m2, mid = m1 ++ m2 ∧ length m1 = n1)
    as (m1 & m2 & -> & Hm1).
  { exists (take n1 mid), (drop n1 mid).
    rewrite take_drop, length_take. split; [done | lia]. }
  assert (Z.of_nat (length m2) = r - q) as Hm2.
  { rewrite length_app in Hr. lia. }
  apply Forall_app in Hall as [Ha1 Ha2].
  rewrite length_app in *. rewrite <- app_assoc.
  intros (A1 & E1 & (A2 & E2 & E3)%bind_Ok)%bind_Ok.
  apply IH in E1 as (m1' & -> & Hs1); try done; try lia;
    [|by rewrite <- app_assoc in Hrep].
  assert (m1' ≡ₚ m1) as Hp1 by (by destruct Hs1 as (_ & ? & _)).
  assert (length m1' = length m1) as Hm1' by (by rewrite Hp1).
  replace (pre ++ m1' ++ m2 ++ post) with ((pre ++ m1') ++ m2 ++ post)
    in E2 by (by rewrite <- app_assoc).
  apply IH in E2 as (m2' & -> & Hs2); try done;
    try (rewrite ?length_app; lia).
  2:{ unfold representable in *. rewrite !length_app in *. lia. }
  assert (m2' ≡ₚ m2) as Hp2 by (by destruct Hs2 as (_ & ? & _)).
  assert (length m2' = length m2) as Hm2' by (by rewrite Hp2).
  rewrite <- app_assoc in E3.
  apply merge_int_Ok in E3 as ->; try done; try lia.
  - eexists; split; [done|]. by apply stable_sort_of_merge.
  - unfold representable in *. rewrite !length_app in *. lia.
  - eapply Permutation_Forall; [symmetry; exact Hp1 | done].
  - eapply Permutation_Forall; [symmetry; exact Hp2 | done].
Qed.
End int_merge_facts.

(** ** Calls outside the vector *)

Section halts_any_facts.
Context {T : Type} `{Elem T}.
Implicit Types A L B : list T.

(** A copy loop ends, whatever it reads. *)
Lemma copy_in_halts fuel A idx n L :
  n < SIZE_MOD → (Z.to_nat n < fuel)%nat →
  copy_in fuel A idx n L ≠ OutOfFuel.
Proof.
  intros Hn Hfuel. unfold copy_in.
  apply bind_not_OutOfFuel; [|done].
  apply (for_loop_halts _ _ (λ s : list T * Z, 0 ≤ s.2)
           (λ s, Z.to_nat (n - s.2))); simpl; try done; try lia.
  - intros [L' i]. simpl.
    apply bind_not_OutOfFuel; [apply vget_not_OutOfFuel|]. intros x _.
    apply bind_not_OutOfFuel; [apply vset_not_OutOfFuel | done].
  - intros [L' i] s' Hi Hc. simpl in *. apply Z.ltb_lt in Hc.
    intros (x & _ & (L'' & _ & [= <-])%bind_Ok)%bind_Ok. simpl.
    rewrite wrap_small by lia. lia.
Qed.

(** [merge] ends on every vector. *)
Lemma merge_halts_any fuel A p q r :
  0 ≤ p ≤ q → q ≤ r < SIZE_MAX → (Z.to_nat (r - p + 1) < fuel)%nat →
  merge fuel A p q r ≠ OutOfFuel.
Proof.
  intros Hpq Hqr Hfuel.
  assert (SIZE_MAX + 1 = SIZE_MOD) as HS by done.
  unfold merge, merge_run, scratch.
  rewrite (wrap_small (q - p)), (wrap_small (r - q)) by lia.
  rewrite (wrap_small (q - p + 1)) by lia.
  apply bind_not_OutOfFuel; [|done].
  apply bind_not_OutOfFuel.
  - apply bind_not_OutOfFuel; [apply copy_in_halts; lia|]. intros L1 _.
    apply bind_not_OutOfFuel; [apply vset_not_OutOfFuel|]. intros L2 _.
    apply bind_not_OutOfFuel; [apply copy_in_halts; lia|]. intros R1 _.
    apply bind_not_OutOfFuel; [apply vset_not_OutOfFuel | done].
  - intros [L R] _. apply scan_halts; lia.
Qed.

Lemma std_next_not_OutOfFuel A n : std_next A n ≠ OutOfFuel.
Proof. unfold std_next. by case_match. Qed.

Lemma std_merge_length A f1 l1 f2 l2 B B' :
  std_merge A f1 l1 f2 l2 B = Ok B' → length B' = length B.
Proof.
  unfold std_merge. destruct (_ && _); [|done].
  destruct (Nat.leb_spec (length (merge_ranges (range A f1 l1)
                                    (range A f2 l2))) (length B));
    [|done].
  intros [= <-]. rewrite length_app, length_drop. lia.
Qed.

Lemma std_merge_not_OutOfFuel A f1 l1 f2 l2 B :
  std_merge A f1 l1 f2 l2 B ≠ OutOfFuel.
Proof. unfold std_merge. by repeat case_match. Qed.

(** The copy loop of [merge_lazy] ends. *)
Lemma copy_back_halts fuel A B start end_ :
  (length B < fuel)%nat → copy_back fuel A B start end_ ≠ OutOfFuel.
Proof.
  intros Hfuel. unfold copy_back.
  apply bind_not_OutOfFuel; [|done].
  apply (for_loop_halts _ _ (λ s : list T * Z * Z, 0 ≤ s.2)
           (λ s, Z.to_nat (Z.of_nat (length B) - s.2)));
    simpl; try done; try lia.
  - intros [[A' sa] sb]. simpl.
    apply bind_not_OutOfFuel; [apply vget_not_OutOfFuel|]. intros x _.
    apply bind_not_OutOfFuel; [apply vset_not_OutOfFuel | done].
  - intros [[A' sa] sb] s' Hsb Hc. simpl in *.
    intros (x & [_ Hx%lookup_lt_Some]%vget_Ok
            & (A'' & _ & [= <-])%bind_Ok)%bind_Ok.
    simpl. lia.
Qed.

(** [merge_lazy] ends on every vector. *)
Lemma merge_lazy_halts_any fuel A p q r :
  0 ≤ p ≤ r → r < SIZE_MAX → (Z.to_nat (r - p + 1) < fuel)%nat →
  merge_lazy fuel A p q r ≠ OutOfFuel.
Proof.
  intros Hpr Hr Hfuel.
  assert (SIZE_MAX + 1 = SIZE_MOD) as HS by done.
  unfold merge_lazy.
  apply bind_not_OutOfFuel; [apply std_next_not_OutOfFuel|].
  intros start _.
  apply bind_not_OutOfFuel; [apply std_next_not_OutOfFuel|].
  intros middle _.
  apply bind_not_OutOfFuel; [apply std_next_not_OutOfFuel|].
  intros end_ _.
  apply bind_not_OutOfFuel; [apply std_merge_not_OutOfFuel|].
  intros B HB%std_merge_length.
  apply copy_back_halts. rewrite HB. unfold vector.
  rewrite length_replicate, (wrap_small (r - p)) by lia.
  rewrite wrap_small by lia. lia.
Qed.
End halts_any_facts.

Section sort_any_facts.
Context {T : Type}.
Variable msort : nat → list T → Z → Z → result (list T).
Variable mrg : nat → list T → Z → Z → Z → result (list T).

Hypothesis msort_0 : ∀ A p r, msort 0 A p r = OutOfFuel.
Hypothesis msort_S : ∀ fuel A p r,
  msort (S fuel) A p r =
  if p <? r then
    let q := wrap (p + r) / 2 in
    A ← msort fuel A p q;
    A ← msort fuel A (wrap (q + 1)) r;
    mrg fuel A p q r
  else Ok A.
Hypothesis mrg_halts : ∀ fuel A p q r,
  0 ≤ p ≤ q → q ≤ r < SIZE_MAX → (Z.to_nat (r - p + 1) < fuel)%nat →
  mrg fuel A p q r ≠ OutOfFuel.
Hypothesis msort_frame : ∀ fuel A p r A',
  representable A → 0 ≤ p ≤ SIZE_MAX → 0 ≤ r ≤ SIZE_MAX →
  msort fuel A p r = Ok A' → frame A A' p r.
Hypothesis mrg_in_bounds : ∀ fuel A p q r A',
  0 ≤ q < r → r ≤ SIZE_MAX →
  mrg fuel A p q r = Ok A' → r < Z.of_nat (length A).

(** The recursion ends on every vector, as long as [p + r] does not
    wrap around. *)
Lemma msort_halts_any fuel A p r :
  0 ≤ p → r ≤ PTRDIFF_MAX → (Z.to_nat (r - p + 1) + 1 < fuel)%nat →
  msort fuel A p r ≠ OutOfFuel.
Proof.
  revert A p r. induction fuel as [|fuel IH]; intros A p r Hp Hr Hfuel;
    [lia|].
  rewrite msort_S. destruct (Z.ltb_spec p r) as [Hlt|Hge]; [|done].
  destruct PTRDIFF_MAX_lt as (HP & HS & HP2 & _).
  cbn zeta. rewrite (wrap_small (p + r)) by lia.
  pose proof (midpoint p r Hlt) as Hq. set (q := (p + r) / 2) in *.
  rewrite (wrap_small (q + 1)) by lia.
  apply bind_not_OutOfFuel; [apply IH; lia|]. intros A1 _.
  apply bind_not_OutOfFuel; [apply IH; lia|]. intros A2 _.
  apply mrg_halts; lia.
Qed.

(** The recursion does not return from a range that ends outside the
    vector. *)
Lemma msort_out_of_range fuel A p r A' :
  representable A → 0 ≤ p < r → r ≤ SIZE_MAX →
  Z.of_nat (length A) ≤ r → msort fuel A p r ≠ Ok A'.
Proof.
  intros Hrep Hpr Hr Hlen. destruct fuel as [|fuel];
    [by rewrite msort_0|].
  rewrite msort_S. destruct (Z.ltb_spec p r) as [_|?]; [|lia].
  cbn zeta. set (q := wrap (p + r) / 2).
  intros (A1 & H1 & (A2 & H2 & H3)%bind_Ok)%bind_Ok.
  assert (0 ≤ q < r) as Hq by (apply split_point_lt; lia).
  pose proof (wrap_range (q + 1)) as Hq1.
  assert (SIZE_MAX + 1 = SIZE_MOD) as HS by done.
  apply msort_frame in H1 as [Hl1 _]; [|done|lia..].
  apply msort_frame in H2 as [Hl2 _];
    [|unfold representable in *; by rewrite Hl1|lia..].
  apply mrg_in_bounds in H3; lia.
Qed.
End sort_any_facts.

Section sort_any_instances.
Context {T : Type} `{Elem T}.
Implicit Types A : list T.

Lemma merge_sort_out_of_range fuel A p r :
  representable A → 0 ≤ p < r → r ≤ PTRDIFF_MAX →
  Z.of_nat (length A) ≤ r → (Z.to_nat (r - p + 1) + 1 < fuel)%nat →
  merge_sort fuel A p r = OutOfBounds.
Proof.
  intros Hrep Hpr Hr Hlen Hfuel.
  destruct PTRDIFF_MAX_lt as (HP & HS & HP2 & _).
  apply result_OutOfBounds.
  - apply (msort_halts_any merge_sort merge); try done; try lia.
    intros. by apply merge_halts_any.
  - intros A'.
    apply (msort_out_of_range merge_sort merge); try done; try lia.
    + intros. by eapply merge_sort_frame.
    + intros. by eapply merge_Ok_in_bounds.
Qed.

Lemma merge_sort_lazy_out_of_range fuel A p r :
  representable A → 0 ≤ p < r → r ≤ PTRDIFF_MAX →
  Z.of_nat (length A) ≤ r → (Z.to_nat (r - p + 1) + 1 < fuel)%nat →
  merge_sort_lazy fuel A p r = OutOfBounds.
Proof.
  intros Hrep Hpr Hr Hlen Hfuel.
  destruct PTRDIFF_MAX_lt as (HP & HS & HP2 & _).
  apply result_OutOfBounds.
  - apply (msort_halts_any merge_sort_lazy merge_lazy); try done; try lia.
    intros. apply merge_lazy_halts_any; lia.
  - intros A'.
    apply (msort_out_of_range merge_sort_lazy merge_lazy);
      try done; try lia.
    + intros. by eapply merge_sort_lazy_frame.
    + intros. by eapply merge_lazy_Ok_in_bounds.
Qed.

(** With [r = SIZE_MAX] and [p >= 1] the sum [p + r] wraps around, the
    split point falls below [p], and the second recursive call is on a
    range that again ends at [SIZE_MAX]. *)
Lemma split_point_wraps p :
  1 ≤ p < SIZE_MAX →
  let q := wrap (p + SIZE_MAX) / 2 in
  0 ≤ q < p ∧ 1 ≤ wrap (q + 1) ≤ p.
Proof.
  intros Hp. cbn zeta.
  assert (SIZE_MAX + 1 = SIZE_MOD) as HS by done.
  assert (wrap (p + SIZE_MAX) = p - 1) as ->.
  { unfold wrap. replace (p + SIZE_MAX) with (p - 1 + 1 * SIZE_MOD) by lia.
    rewrite Z.mod_add by (rewrite <- HS; lia).
    apply Z.mod_small. lia. }
  assert (0 ≤ (p - 1) / 2 < p) as Hq.
  { split; [apply Z.div_pos; lia|]. apply Z.div_lt_upper_bound; lia. }
  split; [done|]. rewrite wrap_small by lia. lia.
Qed.
End sort_any_instances.

Section sort_wraps_facts.
Context {T : Type}.
Variable msort : nat → list T → Z → Z → result (list T).
Variable mrg : nat → list T → Z → Z → Z → result (list T).

Hypothesis msort_0 : ∀ A p r, msort 0 A p r = OutOfFuel.
Hypothesis msort_S : ∀ fuel A p r,
  msort (S fuel) A p r =
  if p <? r then
    let q := wrap (p + r) / 2 in
    A ← msort fuel A p q;
    A ← msort fuel A (wrap (q + 1)) r;
    mrg fuel A p q r
  else Ok A.

Lemma msort_wraps_forever fuel A p :
  1 ≤ p < SIZE_MAX → msort fuel A p SIZE_MAX = OutOfFuel.
Proof.
  revert A p. induction fuel as [|fuel IH]; intros A p Hp;
    [by rewrite msort_0|].
  rewrite msort_S. destruct (Z.ltb_spec p SIZE_MAX) as [_|?]; [|lia].
  destruct (split_point_wraps p Hp) as [Hq Hq1]. cbn zeta in *.
  set (q := wrap (p + SIZE_MAX) / 2) in *.
  destruct fuel as [|fuel]; [by rewrite msort_0|].
  rewrite (msort_S fuel A p q).
  destruct (Z.ltb_spec p q) as [?|_]; [lia|].
  cbn [mbind result_bind]. rewrite IH; [done|lia].
Qed.
End sort_wraps_facts.

(** ** Erasure of the tags in [merge_sort_lazy] *)

Section lazy_erasure.
Implicit Types v A B l : list (Z * nat).

Lemma erase_length v : length (erase v) = length v.
Proof. unfold erase. apply length_fmap. Qed.

Lemma std_next_erase A n : std_next (erase A) n = std_next A n.
Proof. unfold std_next. by rewrite erase_length. Qed.

Lemma range_erase A first last :
  range (erase A) first last = erase (range A first last).
Proof. unfold range, erase. by rewrite fmap_take, fmap_drop. Qed.

Lemma merge_ranges_erase l1 l2 :
  merge_ranges (erase l1) (erase l2) = erase (merge_ranges l1 l2).
Proof.
  unfold erase. revert l2. induction l1 as [|x l1 IH1]; intros l2.
  { cbn [fmap list_fmap]. by rewrite !merge_ranges_nil_l. }
  induction l2 as [|y l2 IH2].
  { cbn [fmap list_fmap]. by rewrite !merge_ranges_nil_r. }
  rewrite merge_ranges_cons. cbn [fmap list_fmap] in *.
  rewrite merge_ranges_int.
  change (key y) with y.1. change (key x) with x.1.
  destruct (y.1 <? x.1); cbn [fmap list_fmap].
  - by rewrite IH2.
  - by rewrite <- IH1.
Qed.

Lemma std_merge_erase A (first1 last1 first2 last2 : Z) B :
  std_merge (erase A) first1 last1 first2 last2 (erase B)
  = erase <$> std_merge A first1 last1 first2 last2 B.
Proof.
  unfold std_merge. destruct (_ && _); [|done].
  rewrite !range_erase, merge_ranges_erase, !erase_length.
  destruct (_ <=? _)%nat; [|done]. simpl. f_equal.
  unfold erase. by rewrite fmap_app, fmap_drop.
Qed.

Lemma copy_back_erase fuel A B start end_ :
  copy_back fuel (erase A) (erase B) start end_
  = erase <$> copy_back fuel A B start end_.
Proof.
  unfold copy_back. rewrite erase_length.
  pose proof (for_loop_sim
                (λ s : list (Z * nat) * Z * Z, (erase s.1.1, s.1.2, s.2))
                (λ s, negb (s.1.2 =? end_)
                      && negb (s.2 =? Z.of_nat (length B)))
                (λ s, negb (s.1.2 =? end_)
                      && negb (s.2 =? Z.of_nat (length B)))
                (λ s, x ← vget B s.2; A ← vset s.1.1 s.1.2 x;
                      Ok (A, s.1.2 + 1, s.2 + 1))
                (λ s, x ← vget (erase B) s.2; A ← vset s.1.1 s.1.2 x;
                      Ok (A, s.1.2 + 1, s.2 + 1))
                ltac:(done)) as Hsim.
  assert (∀ s : list (Z * nat) * Z * Z,
            (x ← vget (erase B) s.2; A ← vset (erase s.1.1) s.1.2 x;
             Ok (A, s.1.2 + 1, s.2 + 1))
            = (λ s : list (Z * nat) * Z * Z, (erase s.1.1, s.1.2, s.2)) <$>
              (x ← vget B s.2; A ← vset s.1.1 s.1.2 x;
               Ok (A, s.1.2 + 1, s.2 + 1))) as Hbody.
  { intros [[A' sa] sb]. simpl. rewrite vget_erase.
    destruct (vget B sb) as [x| |]; simpl; [|done..].
    rewrite vset_erase. by destruct (vset A' sa x). }
  specialize (Hsim Hbody fuel (A, start, 0)). cbn [fst snd] in Hsim.
  rewrite Hsim. clear Hsim.
  destruct (for_loop _ _ _ _) as [[[? ?] ?]| |]; reflexivity.
Qed.

Lemma merge_lazy_erase fuel A p q r :
  merge_lazy fuel (erase A) p q r = erase <$> merge_lazy fuel A p q r.
Proof.
  unfold merge_lazy. rewrite !std_next_erase.
  destruct (std_next A p) as [start| |]; simpl; [|done..].
  destruct (std_next A (wrap (q + 1))) as [middle| |]; simpl; [|done..].
  destruct (std_next A (wrap (r + 1))) as [end_| |]; simpl; [|done..].
  assert (∀ n, vector (T:=Z) n = erase (vector n)) as Hvec.
  { intros. unfold vector, erase. rewrite fmap_replicate. reflexivity. }
  rewrite Hvec, std_merge_erase.
  destruct (std_merge A start middle middle end_ _) as [B| |];
    simpl; [|done..].
  apply copy_back_erase.
Qed.

(** Running [merge_sort_lazy] on tagged elements and forgetting the
    tags is running it on the elements. *)
Lemma merge_sort_lazy_erase fuel A p r :
  merge_sort_lazy fuel (erase A) p r = erase <$> merge_sort_lazy fuel A p r.
Proof.
  revert A p r. induction fuel as [|fuel IH]; intros A p r; simpl; [done|].
  destruct (p <? r); [|done].
  rewrite IH.
  destruct (merge_sort_lazy fuel A p _) as [A1| |]; simpl; [|done..].
  rewrite IH.
  destruct (merge_sort_lazy fuel A1 _ r) as [A2| |]; simpl; [|done..].
  apply merge_lazy_erase.
Qed.
End lazy_erasure.

(** In a stable sort of a vector tagged with its positions, equal keys
    come in the order of their positions. *)
Lemma stable_sort_of_tags (S : list Z) (A' : list (Z * nat)) i j a b :
  stable_sort_of (tag_from 0 S) A' →
  (i < j)%nat → A' !! i = Some a → A' !! j = Some b →
  a.1 = b.1 → (a.2 < b.2)%nat.
Proof.
  intros (_ & _ & Hfilter) Hij Ha Hb Hab.
  destruct (lookup_two_split A' i j a b Hij Ha Hb)
    as (l1 & l2 & l3 & ->).
  specialize (Hfilter a.1).
  rewrite filter_app, filter_cons_True, filter_app, filter_cons_True
    in Hfilter by done.
  apply (StronglySorted_before tag_lt (filter (has_key a.1) l1) a
           (filter (has_key a.1) l2) b (filter (has_key a.1) l3)).
  rewrite Hfilter.
  apply StronglySorted_filter, tag_from_sorted.
Qed.

(** ** The printed line *)

Section print_facts.
Local Open Scope string_scope.
Implicit Types s t : string.

Local Abbreviation space := (" "%char).
Local Abbreviation chars := list_ascii_of_string.

Lemma pretty_N_char_no_space (x : N) : pretty_N_char x ≠ space.
Proof. unfold pretty_N_char. by repeat case_match. Qed.

Lemma pretty_N_go_no_space (x : N) s :
  space ∉ chars s → space ∉ chars (pretty_N_go x s).
Proof.
  revert s. induction (N.lt_wf_0 x) as [x _ IH]; intros s Hs.
  assert (x = 0 ∨ 0 < x)%N as [->|?] by lia.
  - by rewrite pretty_N_go_0.
  - rewrite pretty_N_go_step by done. apply IH.
    { by apply N.div_lt. }
    simpl. apply not_elem_of_cons. split; [|done].
    intros E. by apply (pretty_N_char_no_space (x `mod` 10)%N).
Qed.

(** [cout << i] for an [int] writes no space. *)
Lemma pretty_Z_no_space (z : Z) : space ∉ chars (pretty z).
Proof.
  assert (∀ x : positive, space ∉ chars (pretty x)) as Hpos.
  { intros x. unfold pretty, pretty_positive, pretty, pretty_N.
    destruct (decide (N.pos x = 0%N)); [done|].
    apply pretty_N_go_no_space. simpl. apply not_elem_of_nil. }
  destruct z as [|x|x]; unfold pretty, pretty_Z.
  - simpl. by intros [E|[]%elem_of_nil]%elem_of_cons.
  - apply Hpos.
  - simpl. apply not_elem_of_cons. split; [done | apply Hpos].
Qed.

(** Two texts without a space, each followed by a space, start the same
    text only if they are equal. *)
Lemma space_separates s1 s2 t1 t2 :
  space ∉ chars s1 → space ∉ chars s2 →
  s1 +:+ String space t1 = s2 +:+ String space t2 → s1 = s2 ∧ t1 = t2.
Proof.
  revert s2. induction s1 as [|c s1 IH]; intros [|c' s2] H1 H2; simpl.
  - by intros [= ->].
  - intros [= <- _]. destruct H2. simpl. left.
  - intros [= -> _]. destruct H1. simpl. left.
  - intros [= -> E]. simpl in H1, H2.
    apply not_elem_of_cons in H1 as [_ H1].
    apply not_elem_of_cons in H2 as [_ H2].
    destruct (IH s2 H1 H2 E) as [-> ->]. done.
Qed.

Lemma print_vector_cons (x : Z) (v : list Z) :
  print_vector (x :: v) = pretty x +:+ String space (print_vector v).
Proof. reflexivity. Qed.

Lemma print_vector_ne_nil (x : Z) (v : list Z) :
  print_vector (x :: v) ≠ "".
Proof.
  rewrite print_vector_cons. by destruct (pretty x).
Qed.
End print_facts.

(** ** Sorted ranges *)

Section stable_sort_facts.
Context {T : Type} `{Elem T}.
Implicit Types l : list T.

(** There is one stable sort of a list: a sorted list is its own. *)
Lemma stable_sort_of_sorted l l' :
  sorted l → stable_sort_of l l' → l' = l.
Proof.
  intros Hl. revert l'. induction l as [|x l IH]; intros l' (Hs & Hp & Hf).
  { by apply Permutation_nil_r in Hp. }
  destruct l' as [|y l'']; [by apply Permutation_nil_cons in Hp|].
  apply sorted_cons_inv in Hl as [Hl Hx].
  apply sorted_cons_inv in Hs as [Hs Hy].
  assert (key y ≤ key x) as Hyx.
  { assert (x ∈ y :: l'') as Hin by (rewrite Hp; left).
    apply elem_of_cons in Hin as [->|Hin]; [lia|].
    by eapply Forall_forall in Hy. }
  assert (key x ≤ key y) as Hxy.
  { assert (y ∈ x :: l) as Hin by (rewrite <- Hp; left).
    apply elem_of_cons in Hin as [->|Hin]; [lia|].
    by eapply Forall_forall in Hx. }
  pose proof (Hf (key x)) as Hfx.
  rewrite (filter_cons_True _ y), (filter_cons_True _ x) in Hfx
    by (unfold has_key; lia).
  injection Hfx as -> Hfx. f_equal.
  apply IH; [done|]. split_and!; [done | by eapply Permutation_cons_inv |].
  intros v. specialize (Hf v).
  destruct (decide (has_key v x)).
  - rewrite !(filter_cons_True _ x) in Hf by done. by injection Hf.
  - by rewrite !(filter_cons_False _ x) in Hf by done.
Qed.

Lemma stable_sort_of_unique l l1 l2 :
  stable_sort_of l l1 → stable_sort_of l l2 → l1 = l2.
Proof.
  intros (S1 & P1 & F1) (S2 & P2 & F2). symmetry.
  apply stable_sort_of_sorted; [done|]. split_and!; [done| |].
  - by rewrite P1, P2.
  - intros v. by rewrite F1, F2.
Qed.
End stable_sort_facts.


(** ** The properties *)

(** X1.  For every vector of [int], whatever its elements, and every
    range [p <= r < A.size()], [merge_sort_lazy(A, p, r)] returns with
    [A[p..r]] holding its former elements in non-decreasing order. *)
Theorem merge_sort_lazy_sorts_range (A : list Z) (p r : Z) (fuel : nat) :
  0 ≤ p ≤ r → r < Z.of_nat (length A) → representable A →
  (Z.to_nat (r - p + 1) + 1 < fuel)%nat →
  ∃ A', merge_sort_lazy fuel A p r = Ok A'
        ∧ StronglySorted Z.le (sub A' p r)
        ∧ sub A' p r ≡ₚ sub A p r.
Proof.
  intros Hpr Hr Hrep Hfuel.
  destruct (split_at_range A p r)
    as (pre & mid & post & EA & Hp & Hr' & Hmid); try lia.
  rewrite <- Hmid. clear Hmid. subst A.
  destruct (merge_sort_lazy_spec (H:=int_elem) pre mid post p r fuel)
    as (mid' & -> & Hs & Hperm & _); try done; try lia.
  eexists; split; [done|].
  rewrite (sub_app pre mid' post) by (rewrite ?Hperm; lia). done.
Qed.

Lemma merge_sort_lazy_sorts_range_witness :
  let A := [9; 31; INT_MAX; 59; INT_MAX; 42; 58; 7] in
  (0 ≤ 1 ≤ 6 ∧ 6 < Z.of_nat (length A) ∧ representable A ∧
   (Z.to_nat (6 - 1 + 1) + 1 < 9)%nat) ∧
  ∃ A', merge_sort_lazy 9 A 1 6 = Ok A'
        ∧ StronglySorted Z.le (sub A' 1 6)
        ∧ sub A' 1 6 ≡ₚ sub A 1 6.
Proof.
  intros A.
  assert (0 ≤ 1 ≤ 6) as H1 by lia.
  assert (6 < Z.of_nat (length A)) as H2 by (simpl; lia).
  assert (representable A) as H3 by (vm_compute; discriminate).
  assert (Z.to_nat (6 - 1 + 1) + 1 < 9)%nat as H4 by (simpl; lia).
  split; [exact (conj H1 (conj H2 (conj H3 H4)))|].
  exact (merge_sort_lazy_sorts_range A 1 6 9 H1 H2 H3 H4).
Defined.

(** X2.  [merge_sort] needs less than all elements below [INT_MAX]: on
    every range [p <= r < A.size()] of a vector of [int] that holds
    [INT_MAX] at most once, [merge_sort(A, p, r)] returns with [A[p..r]]
    holding its former elements in non-decreasing order, the vector that
    [merge_sort_lazy(A, p, r)] returns. *)
Theorem merge_sort_one_max (A : list Z) (p r : Z) (fuel : nat) :
  0 ≤ p ≤ r → r < Z.of_nat (length A) → representable A →
  Forall (λ x, x ≤ INT_MAX) (sub A p r) →
  (length (filter (λ x, x = INT_MAX) (sub A p r)) ≤ 1)%nat →
  (Z.to_nat (r - p + 1) + 1 < fuel)%nat →
  ∃ A', merge_sort fuel A p r = Ok A'
        ∧ merge_sort_lazy fuel A p r = Ok A'
        ∧ StronglySorted Z.le (sub A' p r)
        ∧ sub A' p r ≡ₚ sub A p r.
Proof.
  intros Hpr Hr Hrep Hall Hone Hfuel.
  destruct (split_at_range A p r)
    as (pre & mid & post & EA & Hp & Hr' & Hmid); try lia.
  rewrite <- Hmid in *. clear Hmid. subst A.
  destruct (merge_sort_one_max_spec pre mid post p r fuel)
    as (mid' & -> & Hs); try done; try lia.
  destruct (merge_sort_lazy_spec (H:=int_elem) pre mid post p r fuel)
    as (mid'' & -> & Hs'); try done; try lia.
  rewrite (stable_sort_of_unique mid mid'' mid' Hs' Hs).
  eexists; split; [done|]. split; [done|].
  destruct Hs as (Hsorted & Hperm & _).
  rewrite (sub_app pre mid' post) by (rewrite ?Hperm; lia). done.
Qed.

Lemma merge_sort_one_max_witness :
  let A := [5; INT_MAX; 3; 1] in
  (0 ≤ 0 ≤ 3 ∧ 3 < Z.of_nat (length A) ∧ representable A ∧
   Forall (λ x, x ≤ INT_MAX) (sub A 0 3) ∧
   (length (filter (λ x, x = INT_MAX) (sub A 0 3)) ≤ 1)%nat ∧
   (Z.to_nat (3 - 0 + 1) + 1 < 6)%nat) ∧
  ∃ A', merge_sort 6 A 0 3 = Ok A'
        ∧ merge_sort_lazy 6 A 0 3 = Ok A'
        ∧ StronglySorted Z.le (sub A' 0 3)
        ∧ sub A' 0 3 ≡ₚ sub A 0 3.
Proof.
  intros A.
  assert (0 ≤ 0 ≤ 3) as H1 by lia.
  assert (3 < Z.of_nat (length A)) as H2 by (simpl; lia).
  assert (representable A) as H3 by (vm_compute; discriminate).
  assert (Forall (λ x, x ≤ INT_MAX) (sub A 0 3)) as H4
    by (apply (bool_decide_unpack _); vm_compute; reflexivity).
  assert (length (filter (λ x, x = INT_MAX) (sub A 0 3)) ≤ 1)%nat as H5
    by (apply (bool_decide_unpack _); vm_compute; reflexivity).
  assert (Z.to_nat (3 - 0 + 1) + 1 < 6)%nat as H6 by (simpl; lia).
  split; [exact (conj H1 (conj H2 (conj H3 (conj H4 (conj H5 H6)))))|].
  exact (merge_sort_one_max A 0 3 6 H1 H2 H3 H4 H5 H6).
Defined.

(** X3.  Reading behind a sentinel is the only way in which the
    sentinels of [merge] fail: on every range [p <= r < A.size()] of a
    vector of [int], if the run of [merge_sort(A, p, r)] has no undefined
    behaviour (no access outside a vector), then it leaves [A[p..r]]
    holding its former elements in non-decreasing order, and the vector
    is the one [merge_sort_lazy(A, p, r)] returns.  Nothing is said of a
    run that has read outside a buffer. *)
Theorem merge_sort_defined_sorted (A A' : list Z) (p r : Z) (fuel : nat) :
  0 ≤ p ≤ r → r < Z.of_nat (length A) → representable A →
  Forall (λ x, x ≤ INT_MAX) (sub A p r) →
  merge_sort fuel A p r = Ok A' →
  StronglySorted Z.le (sub A' p r) ∧ sub A' p r ≡ₚ sub A p r ∧
  ∀ n, (Z.to_nat (r - p + 1) + 1 < n)%nat → merge_sort_lazy n A p r = Ok A'.
Proof.
  intros Hpr Hr Hrep Hall Hrun.
  destruct (split_at_range A p r)
    as (pre & mid & post & EA & Hp & Hr' & Hmid); try lia.
  rewrite <- Hmid in *. clear Hmid. subst A.
  apply merge_sort_int_Ok in Hrun as (mid' & -> & Hs); try done; try lia.
  pose proof Hs as (Hsorted & Hperm & _).
  rewrite (sub_app pre mid' post) by (rewrite ?Hperm; lia).
  split; [done|]. split; [done|]. intros n Hn.
  destruct (merge_sort_lazy_spec (H:=int_elem) pre mid post p r n)
    as (mid'' & -> & Hs'); try done; try lia.
  by rewrite (stable_sort_of_unique mid mid'' mid' Hs' Hs).
Qed.

Lemma merge_sort_defined_sorted_witness :
  let A := [INT_MAX; 2; INT_MAX; 1] in
  let A' := [1; 2; INT_MAX; INT_MAX] in
  (0 ≤ 0 ≤ 3 ∧ 3 < Z.of_nat (length A) ∧ representable A ∧
   Forall (λ x, x ≤ INT_MAX) (sub A 0 3) ∧
   merge_sort 6 A 0 3 = Ok A') ∧
  StronglySorted Z.le (sub A' 0 3) ∧ sub A' 0 3 ≡ₚ sub A 0 3 ∧
  ∀ n, (Z.to_nat (3 - 0 + 1) + 1 < n)%nat → merge_sort_lazy n A 0 3 = Ok A'.
Proof.
  intros A A'.
  assert (0 ≤ 0 ≤ 3) as H1 by lia.
  assert (3 < Z.of_nat (length A)) as H2 by (simpl; lia).
  assert (representable A) as H3 by (vm_compute; discriminate).
  assert (Forall (λ x, x ≤ INT_MAX) (sub A 0 3)) as H4
    by (apply (bool_decide_unpack _); vm_compute; reflexivity).
  assert (merge_sort 6 A 0 3 = Ok A') as H5 by (vm_compute; reflexivity).
  split; [exact (conj H1 (conj H2 (conj H3 (conj H4 H5))))|].
  exact (merge_sort_defined_sorted A A' 0 3 6 H1 H2 H3 H4 H5).
Defined.



(** X5.  [merge(A, p, q, r)] with [p <= q <= r < A.size()] on a vector
    of [int] has undefined behaviour whenever an element of the right
    half other than its last is [INT_MAX]: the sentinel of [L] is
    consumed and the next iteration reads [L[n1 + 1]]. *)
Theorem merge_sentinel_fault (A : list Z) (p q r j : Z) (fuel : nat) :
  0 ≤ p ≤ q → q ≤ r < Z.of_nat (length A) → representable A →
  Forall (λ x, x ≤ INT_MAX) (sub A p q) →
  q < j < r → vget A j = Ok INT_MAX →
  (Z.to_nat (r - p + 1) < fuel)%nat →
  merge fuel A p q r = OutOfBounds.
Proof.
  intros Hpq Hqr Hrep Hall Hj Hget Hfuel.
  destruct (split_at_ranges A p q r)
    as (pre & l1 & l2 & post & EA & Hp & Hq & Hr & E1 & _ & _); try lia.
  rewrite <- E1 in Hall. clear E1. subst A.
  apply vget_Ok in Hget as [_ Hget].
  set (i := Z.to_nat (j - q - 1)).
  replace (Z.to_nat j) with (length pre + (length l1 + i))%nat in Hget
    by lia.
  rewrite lookup_app_r in Hget by lia.
  replace (length pre + (length l1 + i) - length pre)%nat
    with (length l1 + i)%nat in Hget by lia.
  rewrite lookup_app_r in Hget by lia.
  replace (length l1 + i - length l1)%nat with i in Hget by lia.
  rewrite lookup_app_l in Hget by lia.
  assert (drop (S i) l2 ≠ []) as Hne.
  { intros E. apply (f_equal length) in E.
    rewrite length_drop in E. simpl in E. lia. }
  assert (l2 = take i l2 ++ INT_MAX :: drop (S i) l2) as E2
    by (by rewrite take_drop_middle).
  revert Hne E2. generalize (take i l2), (drop (S i) l2).
  intros c t Ht ->.
  apply (merge_fault (H:=int_elem)); try done; lia.
Qed.

Lemma merge_sentinel_fault_witness :
  let A := [0; 0; INT_MAX; INT_MAX] in
  (0 ≤ 0 ≤ 1 ∧ 1 ≤ 3 < Z.of_nat (length A) ∧ representable A ∧
   Forall (λ x, x ≤ INT_MAX) (sub A 0 1) ∧ 1 < 2 < 3 ∧
   vget A 2 = Ok INT_MAX ∧ (Z.to_nat (3 - 0 + 1) < 5)%nat) ∧
  merge 5 A 0 1 3 = OutOfBounds.
Proof.
  intros A.
  assert (0 ≤ 0 ≤ 1) as H1 by lia.
  assert (1 ≤ 3 < Z.of_nat (length A)) as H2 by (simpl; lia).
  assert (representable A) as H3 by (vm_compute; discriminate).
  assert (Forall (λ x, x ≤ INT_MAX) (sub A 0 1)) as H4
    by (apply (bool_decide_unpack _); vm_compute; reflexivity).
  assert (1 < 2 < 3) as H5 by lia.
  assert (vget A 2 = Ok INT_MAX) as H6 by (vm_compute; reflexivity).
  assert (Z.to_nat (3 - 0 + 1) < 5)%nat as H7 by (simpl; lia).
  split; [exact (conj H1 (conj H2 (conj H3 (conj H4 (conj H5 (conj H6 H7))))))|].
  exact (merge_sentinel_fault A 0 1 3 2 5 H1 H2 H3 H4 H5 H6 H7).
Defined.

(** X6.  [merge_lazy] has no sentinel: for every vector of [int],
    whatever its elements, and indices [p <= q <= r < A.size()] such that
    [A[p..q]] and [A[q+1..r]] are in non-decreasing order,
    [merge_lazy(A, p, q, r)] returns with [A[p..r]] holding its former
    elements in non-decreasing order. *)
Theorem merge_lazy_sorts_range (A : list Z) (p q r : Z) (fuel : nat) :
  0 ≤ p ≤ q → q ≤ r < Z.of_nat (length A) → representable A →
  StronglySorted Z.le (sub A p q) →
  StronglySorted Z.le (sub A (q + 1) r) →
  (Z.to_nat (r - p + 1) < fuel)%nat →
  ∃ A', merge_lazy fuel A p q r = Ok A'
        ∧ StronglySorted Z.le (sub A' p r)
        ∧ sub A' p r ≡ₚ sub A p r.
Proof.
  intros Hpq Hqr Hrep Hs1 Hs2 Hfuel.
  destruct (split_at_ranges A p q r)
    as (pre & l1 & l2 & post & EA & Hp & Hq & Hr & E1 & E2 & E12);
    try lia.
  rewrite <- E1 in Hs1. rewrite <- E2 in Hs2.
  clear E1 E2 E12. subst A.
  rewrite (merge_lazy_spec (H:=int_elem) pre l1 l2 post p q r)
    by (done || lia).
  eexists; split; [done|].
  rewrite (sub_app pre (merge_ranges l1 l2) post)
    by (rewrite ?merge_ranges_length, ?Nat2Z.inj_add; lia).
  rewrite (app_assoc l1 l2 post), (sub_app pre (l1 ++ l2) post)
    by (rewrite ?length_app, ?Nat2Z.inj_add; lia).
  split; [|apply merge_ranges_perm].
  exact (merge_ranges_sorted l1 l2 Hs1 Hs2).
Qed.

Lemma merge_lazy_sorts_range_witness :
  let A := [0; 0; INT_MAX; INT_MAX] in
  (0 ≤ 0 ≤ 1 ∧ 1 ≤ 3 < Z.of_nat (length A) ∧ representable A ∧
   StronglySorted Z.le (sub A 0 1) ∧ StronglySorted Z.le (sub A (1 + 1) 3) ∧
   (Z.to_nat (3 - 0 + 1) < 5)%nat) ∧
  ∃ A', merge_lazy 5 A 0 1 3 = Ok A'
        ∧ StronglySorted Z.le (sub A' 0 3)
        ∧ sub A' 0 3 ≡ₚ sub A 0 3.
Proof.
  intros A.
  assert (0 ≤ 0 ≤ 1) as H1 by lia.
  assert (1 ≤ 3 < Z.of_nat (length A)) as H2 by (simpl; lia).
  assert (representable A) as H3 by (vm_compute; discriminate).
  assert (StronglySorted Z.le (sub A 0 1)) as H4
    by (vm_compute; repeat constructor; discriminate).
  assert (StronglySorted Z.le (sub A (1 + 1) 3)) as H5
    by (vm_compute; repeat constructor; discriminate).
  assert (Z.to_nat (3 - 0 + 1) < 5)%nat as H6 by (simpl; lia).
  split; [exact (conj H1 (conj H2 (conj H3 (conj H4 (conj H5 H6)))))|].
  exact (merge_lazy_sorts_range A 0 1 3 5 H1 H2 H3 H4 H5 H6).
Defined.



(** X8.  Sorting a sorted range changes nothing: for every vector of
    [int] and range [p <= r < A.size()] with [A[p..r]] in non-decreasing
    order, [merge_sort_lazy(A, p, r)] returns with the vector as it
    was. *)
Theorem merge_sort_lazy_sorted_unchanged (A : list Z) (p r : Z)
    (fuel : nat) :
  0 ≤ p ≤ r → r < Z.of_nat (length A) → representable A →
  StronglySorted Z.le (sub A p r) →
  (Z.to_nat (r - p + 1) + 1 < fuel)%nat →
  merge_sort_lazy fuel A p r = Ok A.
Proof.
  intros Hpr Hr Hrep Hsorted Hfuel.
  destruct (split_at_range A p r)
    as (pre & mid & post & EA & Hp & Hr' & Hmid); try lia.
  rewrite <- Hmid in Hsorted. clear Hmid. subst A.
  destruct (merge_sort_lazy_spec (H:=int_elem) pre mid post p r fuel)
    as (mid' & -> & Hs); try done; try lia.
  by rewrite (stable_sort_of_sorted mid mid').
Qed.

Lemma merge_sort_lazy_sorted_unchanged_witness :
  let A := [9; 1; 1; 2; INT_MAX; INT_MAX; 0] in
  (0 ≤ 1 ≤ 5 ∧ 5 < Z.of_nat (length A) ∧ representable A ∧
   StronglySorted Z.le (sub A 1 5) ∧
   (Z.to_nat (5 - 1 + 1) + 1 < 7)%nat) ∧
  merge_sort_lazy 7 A 1 5 = Ok A.
Proof.
  intros A.
  assert (0 ≤ 1 ≤ 5) as H1 by lia.
  assert (5 < Z.of_nat (length A)) as H2 by (simpl; lia).
  assert (representable A) as H3 by (vm_compute; discriminate).
  assert (StronglySorted Z.le (sub A 1 5)) as H4
    by (vm_compute; repeat constructor; discriminate).
  assert (Z.to_nat (5 - 1 + 1) + 1 < 7)%nat as H5 by (simpl; lia).
  split; [exact (conj H1 (conj H2 (conj H3 (conj H4 H5))))|].
  exact (merge_sort_lazy_sorted_unchanged A 1 5 7 H1 H2 H3 H4 H5).
Defined.

(** X9.  Sorting is idempotent: for every vector of [int] and range
    [p <= r < A.size()], a second call [merge_sort_lazy(A, p, r)] after
    the first returns with the vector the first call left. *)
Theorem merge_sort_lazy_idempotent (A : list Z) (p r : Z) (fuel : nat) :
  0 ≤ p ≤ r → r < Z.of_nat (length A) → representable A →
  (Z.to_nat (r - p + 1) + 1 < fuel)%nat →
  ∃ A', merge_sort_lazy fuel A p r = Ok A'
        ∧ merge_sort_lazy fuel A' p r = Ok A'.
Proof.
  intros Hpr Hr Hrep Hfuel.
  destruct (split_at_range A p r)
    as (pre & mid & post & EA & Hp & Hr' & Hmid); try lia.
  clear Hmid. subst A.
  destruct (merge_sort_lazy_spec (H:=int_elem) pre mid post p r fuel)
    as (mid' & -> & Hs & Hperm & Hf); try done; try lia.
  eexists; split; [done|].
  assert (length mid' = length mid) as Hlen by (by rewrite Hperm).
  assert (representable (pre ++ mid' ++ post)) as Hrep'.
  { unfold representable in *.
    rewrite !length_app, Hlen, <- !length_app. done. }
  destruct (merge_sort_lazy_spec (H:=int_elem) pre mid' post p r fuel)
    as (mid'' & -> & Hs'); try done; try lia.
  by rewrite (stable_sort_of_sorted mid' mid'').
Qed.

Lemma merge_sort_lazy_idempotent_witness :
  let A := [31; 41; 59; 26; 42; 58] in
  (0 ≤ 0 ≤ 5 ∧ 5 < Z.of_nat (length A) ∧ representable A ∧
   (Z.to_nat (5 - 0 + 1) + 1 < 8)%nat) ∧
  ∃ A', merge_sort_lazy 8 A 0 5 = Ok A'
        ∧ merge_sort_lazy 8 A' 0 5 = Ok A'.
Proof.
  intros A.
  assert (0 ≤ 0 ≤ 5) as H1 by lia.
  assert (5 < Z.of_nat (length A)) as H2 by (simpl; lia).
  assert (representable A) as H3 by (vm_compute; discriminate).
  assert (Z.to_nat (5 - 0 + 1) + 1 < 8)%nat as H4 by (simpl; lia).
  split; [exact (conj H1 (conj H2 (conj H3 H4)))|].
  exact (merge_sort_lazy_idempotent A 0 5 8 H1 H2 H3 H4).
Defined.

(** X10.  A range that ends outside the vector is undefined behaviour:
    for [p < r] with [r >= A.size()], as in the call
    [merge_sort(A, 0, A.size())], the runs of [merge_sort(A, p, r)] and
    of [merge_sort_lazy(A, p, r)] make an access outside the vector.
    What the program does after that access is not defined, and nothing
    is said of it. *)
Theorem sort_out_of_range (A : list Z) (p r : Z) (fuel : nat) :
  representable A → 0 ≤ p < r → Z.of_nat (length A) ≤ r →
  r ≤ PTRDIFF_MAX → (Z.to_nat (r - p + 1) + 1 < fuel)%nat →
  merge_sort fuel A p r = OutOfBounds ∧
  merge_sort_lazy fuel A p r = OutOfBounds.
Proof.
  intros Hrep Hpr Hlen Hr Hfuel. split.
  - by apply merge_sort_out_of_range.
  - by apply merge_sort_lazy_out_of_range.
Qed.

Lemma sort_out_of_range_witness :
  let A := [31; 41; 59] in
  (representable A ∧ 0 ≤ 0 < 3 ∧ Z.of_nat (length A) ≤ 3 ∧
   3 ≤ PTRDIFF_MAX ∧ (Z.to_nat (3 - 0 + 1) + 1 < 6)%nat) ∧
  merge_sort 6 A 0 3 = OutOfBounds ∧
  merge_sort_lazy 6 A 0 3 = OutOfBounds.
Proof.
  intros A.
  assert (representable A) as H1 by (vm_compute; discriminate).
  assert (0 ≤ 0 < 3) as H2 by lia.
  assert (Z.of_nat (length A) ≤ 3) as H3 by (simpl; lia).
  assert (3 ≤ PTRDIFF_MAX) as H4 by (vm_compute; discriminate).
  assert (Z.to_nat (3 - 0 + 1) + 1 < 6)%nat as H5 by (simpl; lia).
  split; [exact (conj H1 (conj H2 (conj H3 (conj H4 H5))))|].
  exact (sort_out_of_range A 0 3 6 H1 H2 H3 H4 H5).
Defined.

(** X11.  Likewise for the merges: with [p <= q < r],
    [A.size() <= r < SIZE_MAX] and a range no longer than the vector
    ([r - p <= A.size()], so that each of the buffers [L], [R] and [B]
    is constructed with at most [A.size() + 1] elements), the runs of
    [merge(A, p, q, r)] and of [merge_lazy(A, p, q, r)] make an access
    outside the vector, which is undefined behaviour. *)
Theorem merge_out_of_range (A : list Z) (p q r : Z) (fuel : nat) :
  0 ≤ p ≤ q → q < r → Z.of_nat (length A) ≤ r → r < SIZE_MAX →
  r - p ≤ Z.of_nat (length A) → representable A →
  (Z.to_nat (r - p + 1) < fuel)%nat →
  (wrap (wrap (wrap (q - p) + 1) + 1) ≤ Z.of_nat (length A) + 1 ∧
   wrap (wrap (r - q) + 1) ≤ Z.of_nat (length A) + 1 ∧
   wrap (wrap (r - p) + 1) ≤ Z.of_nat (length A) + 1) ∧
  merge fuel A p q r = OutOfBounds ∧ merge_lazy fuel A p q r = OutOfBounds.
Proof.
  intros Hpq Hqr Hlen Hr Hrp Hrep Hfuel.
  destruct PTRDIFF_MAX_lt as (HP & HS & HP2 & _).
  unfold representable in Hrep. split.
  - rewrite (wrap_small (q - p)), (wrap_small (r - q)),
      (wrap_small (r - p)) by lia.
    rewrite (wrap_small (q - p + 1)) by lia.
    rewrite !wrap_small by lia. lia.
  - split; apply result_OutOfBounds.
    + apply merge_halts_any; lia.
    + intros A' Hrun. apply merge_Ok_in_bounds in Hrun; lia.
    + apply merge_lazy_halts_any; lia.
    + intros A' Hrun. apply merge_lazy_Ok_in_bounds in Hrun; lia.
Qed.

Lemma merge_out_of_range_witness :
  let A := [1; 3; 5; 2; 4; 6; 8] in
  (0 ≤ 0 ≤ 2 ∧ 2 < 7 ∧ Z.of_nat (length A) ≤ 7 ∧ 7 < SIZE_MAX ∧
   7 - 0 ≤ Z.of_nat (length A) ∧ representable A ∧
   (Z.to_nat (7 - 0 + 1) < 9)%nat) ∧
  (wrap (wrap (wrap (2 - 0) + 1) + 1) ≤ Z.of_nat (length A) + 1 ∧
   wrap (wrap (7 - 2) + 1) ≤ Z.of_nat (length A) + 1 ∧
   wrap (wrap (7 - 0) + 1) ≤ Z.of_nat (length A) + 1) ∧
  merge 9 A 0 2 7 = OutOfBounds ∧ merge_lazy 9 A 0 2 7 = OutOfBounds.
Proof.
  intros A.
  assert (0 ≤ 0 ≤ 2) as H1 by lia.
  assert (2 < 7) as H2 by lia.
  assert (Z.of_nat (length A) ≤ 7) as H3 by (simpl; lia).
  assert (7 < SIZE_MAX) as H4 by (vm_compute; reflexivity).
  assert (7 - 0 ≤ Z.of_nat (length A)) as H5 by (simpl; lia).
  assert (representable A) as H6 by (vm_compute; discriminate).
  assert (Z.to_nat (7 - 0 + 1) < 9)%nat as H7 by (simpl; lia).
  split; [exact (conj H1 (conj H2 (conj H3 (conj H4 (conj H5 (conj H6 H7))))))|].
  exact (merge_out_of_range A 0 2 7 9 H1 H2 H3 H4 H5 H6 H7).
Defined.

(** X12.  With [r = SIZE_MAX] and [1 <= p < r] neither sort terminates,
    whatever the vector: [p + r] wraps around, the split point [q] falls
    below [p], the first recursive call returns at once and the second
    is again on a range that starts at 1 or above and ends at
    [SIZE_MAX]. *)
Theorem sort_wraps_forever (A : list Z) (p : Z) (fuel : nat) :
  1 ≤ p < SIZE_MAX →
  (let q := wrap (p + SIZE_MAX) / 2 in q < p ∧ 1 ≤ wrap (q + 1) ≤ p) ∧
  merge_sort fuel A p SIZE_MAX = OutOfFuel ∧
  merge_sort_lazy fuel A p SIZE_MAX = OutOfFuel.
Proof.
  intros Hp. split; [|split].
  - destruct (split_point_wraps p Hp) as [Hq Hq1]. cbn zeta in *. lia.
  - by apply (msort_wraps_forever merge_sort merge).
  - by apply (msort_wraps_forever merge_sort_lazy merge_lazy).
Qed.

Lemma sort_wraps_forever_witness :
  1 ≤ 1 < SIZE_MAX ∧
  merge_sort 50 [3; 1; 2] 1 SIZE_MAX = OutOfFuel ∧
  merge_sort_lazy 50 [3; 1; 2] 1 SIZE_MAX = OutOfFuel.
Proof.
  assert (1 ≤ 1 < SIZE_MAX) as H1 by (split; vm_compute; congruence).
  split; [exact H1|].
  exact (proj2 (sort_wraps_forever [3; 1; 2] 1 50 H1)).
Defined.

(** X13.  [merge_sort_lazy] is stable on every non-empty vector of
    [int]: run on the elements paired with their positions,
    [merge_sort_lazy(S, 0, S.size() - 1)] returns a permutation in
    non-decreasing order of the keys in which, of two elements with equal
    keys, the one that comes first has the smaller original position; and
    forgetting the positions gives the vector the program computes on
    [S]. *)
Theorem merge_sort_lazy_stable (S : list Z) (fuel : nat) :
  S ≠ [] → representable S → (length S + 1 < fuel)%nat →
  ∃ A', merge_sort_lazy fuel (tag_from 0 S) 0 (wrap (size S - 1)) = Ok A' ∧
        merge_sort_lazy fuel S 0 (wrap (size S - 1)) = Ok (erase A') ∧
        A' ≡ₚ tag_from 0 S ∧ StronglySorted Z.le (erase A') ∧
        ∀ i j a b, (i < j)%nat → A' !! i = Some a → A' !! j = Some b →
                   a.1 = b.1 → (a.2 < b.2)%nat.
Proof.
  intros Hne Hrep Hfuel.
  assert (1 ≤ length S)%nat as Hlen by (destruct S; [done | simpl; lia]).
  destruct PTRDIFF_MAX_lt as (? & ? & ? & ?).
  assert (wrap (size S - 1) = Z.of_nat (length S) - 1) as ->.
  { unfold size, representable in *. rewrite !wrap_small; try lia.
    rewrite wrap_small; lia. }
  pose proof (merge_sort_lazy_spec (H:=tagged_elem) [] (tag_from 0 S) []
                0 (Z.of_nat (length S) - 1) fuel) as Hspec.
  simpl in Hspec. rewrite app_nil_r, tag_from_length in Hspec.
  destruct Hspec as (A' & HA' & Hstable); try done; try lia.
  { unfold representable. by rewrite tag_from_length. }
  rewrite app_nil_r in HA'. exists A'.
  pose proof Hstable as (Hsorted & Hperm & _).
  split; [done|]. split; [|split; [done|split]].
  - rewrite <- (tag_from_erase 0 S) at 1.
    by rewrite merge_sort_lazy_erase, HA'.
  - clear -Hsorted. unfold erase.
    induction Hsorted as [|a l _ IH Ha]; simpl; constructor; [done|].
    apply Forall_fmap. eapply Forall_impl; [exact Ha|]. done.
  - intros i j a b. by apply (stable_sort_of_tags S).
Qed.

Lemma merge_sort_lazy_stable_witness :
  let S := [INT_MAX; 1; INT_MAX; 1] in
  (S ≠ [] ∧ representable S ∧ (length S + 1 < 6)%nat) ∧
  ∃ A', merge_sort_lazy 6 (tag_from 0 S) 0 (wrap (size S - 1)) = Ok A' ∧
        merge_sort_lazy 6 S 0 (wrap (size S - 1)) = Ok (erase A') ∧
        A' ≡ₚ tag_from 0 S ∧ StronglySorted Z.le (erase A') ∧
        ∀ i j a b, (i < j)%nat → A' !! i = Some a → A' !! j = Some b →
                   a.1 = b.1 → (a.2 < b.2)%nat.
Proof.
  intros S.
  assert (S ≠ []) as H1 by done.
  assert (representable S) as H2 by (vm_compute; discriminate).
  assert (length S + 1 < 6)%nat as H3 by (simpl; lia).
  split; [exact (conj H1 (conj H2 H3))|].
  exact (merge_sort_lazy_stable S 6%nat H1 H2 H3).
Defined.

(** X14.  The line that [main] prints for a vector determines the
    vector: every element is followed by a space and the decimal form of
    an [int] holds none, so two vectors that print the same text are
    equal. *)
Theorem print_vector_inj (v w : list Z) :
  print_vector v = print_vector w → v = w.
Proof.
  revert w. induction v as [|x v IH]; intros [|y w] E.
  - done.
  - symmetry in E. by apply print_vector_ne_nil in E.
  - by apply print_vector_ne_nil in E.
  - rewrite !print_vector_cons in E.
    apply space_separates in E as [Ex Ev]; try apply pretty_Z_no_space.
    apply (inj pretty) in Ex as ->. f_equal. by apply IH.
Qed.

Lemma print_vector_inj_witness :
  print_vector [26; 31; 41] = print_vector [26; 31; 41] ∧
  [26; 31; 41] = [26; 31; 41].
Proof.
  assert (print_vector [26; 31; 41] = print_vector [26; 31; 41]) as H
    by reflexivity.
  split; [exact H|]. exact (print_vector_inj [26; 31; 41] [26; 31; 41] H).
Defined.

(** A list that holds [INT_MAX] twice holds it before its last
    element. *)
Lemma two_max_not_last (l : list Z) :
  (2 ≤ length (filter (λ x, x = INT_MAX) l))%nat →
  ∃ c t, l = c ++ INT_MAX :: t ∧ t ≠ [].
Proof.
  induction l as [|x l IH]; intros Htwo; [simpl in Htwo; lia|].
  destruct (decide (x = INT_MAX)) as [->|Hne].
  - rewrite filter_cons_True in Htwo by done. simpl in Htwo.
    exists [], l. split; [done|]. intros ->. simpl in Htwo. lia.
  - rewrite filter_cons_False in Htwo by done.
    destruct (IH Htwo) as (c & t & -> & Ht). by exists (x :: c), t.
Qed.

(** [merge_sort] does not return when the right half of the range holds
    [INT_MAX] twice. *)
Lemma merge_sort_two_max pre l1 l2 post p r fuel A' :
  p = Z.of_nat (length pre) →
  (p + r) / 2 + 1 = p + Z.of_nat (length l1) →
  r = (p + r) / 2 + Z.of_nat (length l2) → p < r →
  representable (pre ++ l1 ++ l2 ++ post) →
  Forall (λ x, x ≤ INT_MAX) l1 → Forall (λ x, x ≤ INT_MAX) l2 →
  (2 ≤ length (filter (λ x, x = INT_MAX) l2))%nat →
  merge_sort fuel (pre ++ l1 ++ l2 ++ post) p r ≠ Ok A'.
Proof.
  intros Hp Hq Hr Hlt Hrep Ha1 Ha2 Htwo.
  destruct fuel as [|fuel]; [done|]. simpl.
  destruct (merge_facts_bounds pre l1 l2 post Hrep) as (Hlen & _ & _).
  destruct PTRDIFF_MAX_lt as (? & ? & ? & ?).
  destruct (Z.ltb_spec p r) as [_|?]; [|lia].
  pose proof (midpoint p r Hlt) as Hmid.
  remember ((p + r) / 2) as q eqn:Eq.
  rewrite (wrap_small (p + r)) by lia. rewrite <- Eq.
  rewrite (wrap_small (q + 1)) by lia.
  intros (A1 & E1 & (A2 & E2 & E3)%bind_Ok)%bind_Ok.
  apply merge_sort_int_Ok in E1 as (m1' & -> & Hs1); try done; try lia.
  assert (m1' ≡ₚ l1) as Hp1 by (by destruct Hs1 as (_ & ? & _)).
  assert (length m1' = length l1) as Hm1' by (by rewrite Hp1).
  replace (pre ++ m1' ++ l2 ++ post) with ((pre ++ m1') ++ l2 ++ post)
    in E2 by (by rewrite <- app_assoc).
  apply merge_sort_int_Ok in E2 as (m2' & -> & Hs2); try done;
    try (rewrite ?length_app; lia).
  2:{ unfold representable in *. rewrite !length_app in *. lia. }
  assert (m2' ≡ₚ l2) as Hp2 by (by destruct Hs2 as (_ & ? & _)).
  assert (length m2' = length l2) as Hm2' by (by rewrite Hp2).
  assert (filter (λ x, x = INT_MAX) m2' ≡ₚ filter (λ x, x = INT_MAX) l2)
    as Hf by (by apply filter_Permutation).
  rewrite <- (Permutation_length Hf) in Htwo.
  destruct (two_max_not_last m2' Htwo) as (c & t & -> & Ht).
  rewrite <- app_assoc in E3. revert E3.
  apply (fuel_mono_OutOfBounds (λ n, merge n _ p q r)
           (S (length m1' + length (c ++ INT_MAX :: t))));
    [apply merge_mono|].
  apply (merge_fault (H:=int_elem)); try done; try lia.
  - unfold representable in *. rewrite !length_app in *. lia.
  - eapply Permutation_Forall; [symmetry; exact Hp1 | done].
Qed.

(** X15.  [merge_sort(A, p, r)] with [p < r < A.size()] on a vector of
    [int] has undefined behaviour whenever the right half
    [A[q+1..r]], [q = (p + r) / 2], holds [INT_MAX] twice: a merge reads
    behind the sentinel of its left buffer. *)
Theorem merge_sort_two_max_fault (A : list Z) (p r : Z) (fuel : nat) :
  0 ≤ p < r → r < Z.of_nat (length A) → representable A →
  Forall (λ x, x ≤ INT_MAX) (sub A p r) →
  (2 ≤ length (filter (λ x, x = INT_MAX) (sub A ((p + r) / 2 + 1) r)))%nat →
  (Z.to_nat (r - p + 1) + 1 < fuel)%nat →
  merge_sort fuel A p r = OutOfBounds.
Proof.
  intros Hpr Hr Hrep Hall Htwo Hfuel.
  apply result_OutOfBounds; [apply merge_sort_halts; (done || lia)|].
  intros A'.
  pose proof (midpoint p r ltac:(lia)) as Hmid.
  destruct (split_at_ranges A p ((p + r) / 2) r)
    as (pre & l1 & l2 & post & EA & Hp & Hq & Hr' & _ & E2 & E12);
    try lia.
  rewrite <- E12 in Hall. rewrite <- E2 in Htwo. clear E2 E12. subst A.
  apply Forall_app in Hall as [Ha1 Ha2].
  apply merge_sort_two_max; try done; lia.
Qed.

Lemma merge_sort_two_max_fault_witness :
  let A := [7; 5; 3; INT_MAX; 1; INT_MAX] in
  (0 ≤ 0 < 5 ∧ 5 < Z.of_nat (length A) ∧ representable A ∧
   Forall (λ x, x ≤ INT_MAX) (sub A 0 5) ∧
   (2 ≤ length (filter (λ x, x = INT_MAX)
                  (sub A ((0 + 5) / 2 + 1) 5)))%nat ∧
   (Z.to_nat (5 - 0 + 1) + 1 < 8)%nat) ∧
  merge_sort 8 A 0 5 = OutOfBounds.
Proof.
  intros A.
  assert (0 ≤ 0 < 5) as H1 by lia.
  assert (5 < Z.of_nat (length A)) as H2 by (simpl; lia).
  assert (representable A) as H3 by (vm_compute; discriminate).
  assert (Forall (λ x, x ≤ INT_MAX) (sub A 0 5)) as H4
    by (apply (bool_decide_unpack _); vm_compute; reflexivity).
  assert (2 ≤ length (filter (λ x, x = INT_MAX)
                        (sub A ((0 + 5) / 2 + 1) 5)))%nat as H5
    by (apply (bool_decide_unpack _); vm_compute; reflexivity).
  assert (Z.to_nat (5 - 0 + 1) + 1 < 8)%nat as H6 by (simpl; lia).
  split; [exact (conj H1 (conj H2 (conj H3 (conj H4 (conj H5 H6)))))|].
  exact (merge_sort_two_max_fault A 0 5 8 H1 H2 H3 H4 H5 H6).
Defined.
